(** * Verification of the wpiformat style tasks [stdlib.py] and [clangtidy.py]

    The development embeds the two Python tasks as Rocq functions:

    - [Stdlib.run] (the header/symbol migration engine) with its helper
      [Stdlib.func_substitute] and the [Header] rule objects, including the
      regular expressions they compile;
    - [ClangTidy.__init__] (the arguments of the analyzer) and
      [ClangTidy.run_standalone] (the analyzer wrapper): the command line
      that is run, and the filters from the point where the subprocess
      output is available as a string.

    A Python [str] is a sequence of code points; it is modelled as a list of
    code points of type [N]. *)

From Stdlib Require Import String Ascii List NArith ZArith Arith Bool Lia.
Import ListNotations.

(** ** Text *)

Definition char := N.
Definition text := list char.

(** [str "abc"] is the text of a Python string literal. *)
Fixpoint str (s : string) : text :=
  match s with
  | EmptyString => []
  | String a s' => N_of_ascii a :: str s'
  end.

Arguments str s%_string.

Definition char_eqb (a b : char) : bool := N.eqb a b.

Fixpoint text_eqb (a b : text) : bool :=
  match a, b with
  | [], [] => true
  | x :: a', y :: b' => char_eqb x y && text_eqb a' b'
  | _, _ => false
  end.

(** [starts_with p s]: [s.startswith(p)]. *)
Fixpoint starts_with (p s : text) : bool :=
  match p, s with
  | [], _ => true
  | x :: p', y :: s' => char_eqb x y && starts_with p' s'
  | _ :: _, [] => false
  end.

(** [contains p s]: the Python test [p in s]. *)
Fixpoint contains (p s : text) : bool :=
  starts_with p s ||
  match s with
  | [] => false
  | _ :: s' => contains p s'
  end.

(** [s[a:b]] for [0 <= a], [0 <= b]. *)
Definition slice (s : text) (a b : nat) : text := firstn (b - a) (skipn a s).

(** ** Regular expressions

    The fragment of Python's [re] syntax that the header table uses, with
    the backtracking semantics of [re]: alternatives are tried from left to
    right, [?], [*] and [+] are greedy. Repetition is only ever applied to a
    character class in the patterns of the table. *)

Inductive regex : Type :=
| Lit (s : text)
| Cls (p : char -> bool)
| Cat (r1 r2 : regex)
| Alt (r1 r2 : regex)
| Opt (r : regex)
| StarCls (p : char -> bool)
| PlusCls (p : char -> bool).

Section Matcher.
Variable A : Type.

Fixpoint drop_prefix (p s : text) : option text :=
  match p, s with
  | [], _ => Some s
  | x :: p', y :: s' => if char_eqb x y then drop_prefix p' s' else None
  | _ :: _, [] => None
  end.

(** Greedy repetition of a class: take one more character first, fall back
    to stopping here when the continuation fails. *)
Fixpoint star_cls (p : char -> bool) (s : text) (k : text -> option A)
  : option A :=
  match s with
  | c :: s' =>
      if p c then
        match star_cls p s' k with
        | Some x => Some x
        | None => k s
        end
      else k s
  | [] => k s
  end.

(** [rmatch r s k]: match [r] at the beginning of [s]; [k] receives the
    text that remains after the match and may reject it, which makes the
    matcher backtrack into [r]. *)
Fixpoint rmatch (r : regex) (s : text) (k : text -> option A) : option A :=
  match r with
  | Lit l =>
      match drop_prefix l s with
      | Some s' => k s'
      | None => None
      end
  | Cls p =>
      match s with
      | c :: s' => if p c then k s' else None
      | [] => None
      end
  | Cat r1 r2 => rmatch r1 s (fun s1 => rmatch r2 s1 k)
  | Alt r1 r2 =>
      match rmatch r1 s k with
      | Some x => Some x
      | None => rmatch r2 s k
      end
  | Opt r1 =>
      match rmatch r1 s k with
      | Some x => Some x
      | None => k s
      end
  | StarCls p => star_cls p s k
  | PlusCls p =>
      match s with
      | c :: s' => if p c then star_cls p s' k else None
      | [] => None
      end
  end.
End Matcher.

Arguments star_cls {A} p s k.
Arguments rmatch {A} r s k.

(** A pattern of the shape [pre (grp) post] with one capturing group.
    [match_suffixes] matches at the beginning of [s] and yields what is left
    of [s] at the beginning and at the end of the group; the result of
    [match_here] is the pair [(start(1), end(1))], relative to the
    beginning of [s]. *)
Record pattern : Type := Pattern {
  pat_pre : regex;
  pat_grp : regex;
  pat_post : regex
}.

Definition match_suffixes (p : pattern) (s : text) : option (text * text) :=
  rmatch (pat_pre p) s (fun s1 =>
    rmatch (pat_grp p) s1 (fun s2 =>
      rmatch (pat_post p) s2 (fun _ => Some (s1, s2)))).

Definition match_here (p : pattern) (s : text) : option (nat * nat) :=
  match match_suffixes p s with
  | Some (s1, s2) => Some (length s - length s1, length s - length s2)
  | None => None
  end.

(** [search_suffix p s i]: leftmost match of [p] in [s], where [s] begins at
    index [i] of the subject. The result is [(start(1), end(1))] in subject
    coordinates. *)
Fixpoint search_suffix (p : pattern) (s : text) (i : nat)
  : option (nat * nat) :=
  match match_here p s with
  | Some (a, b) => Some (i + a, i + b)
  | None =>
      match s with
      | [] => None
      | _ :: s' => search_suffix p s' (S i)
      end
  end.

(** [regex.search(lines, pos)] *)
Definition search (p : pattern) (lines : text) (pos : nat)
  : option (nat * nat) :=
  search_suffix p (skipn pos lines) pos.

(** Alternation of a list of regexes, [ "|".join(rs) ]. *)
Fixpoint alt_join (r : regex) (rs : list regex) : regex :=
  match rs with
  | [] => r
  | r' :: rs' => Alt r (alt_join r' rs')
  end.

Definition chr (a : ascii) : char := N_of_ascii a.
Arguments chr a%_char.
Definition is_char (a : ascii) : char -> bool := char_eqb (chr a).
Arguments is_char a%_char.
Definition lit (s : string) : regex := Lit (str s).
Arguments lit s%_string.

(** [[a-z]] and [[a-z0-9]] *)
Definition is_lower (c : char) : bool := (97 <=? c)%N && (c <=? 122)%N.
Definition is_digit (c : char) : bool := (48 <=? c)%N && (c <=? 57)%N.
Definition is_lower_digit (c : char) : bool := is_lower c || is_digit c.

(** [regex.sub(repl, s)] for a pattern [(?<=B) pre (grp) (?=post)] whose
    lookbehind [B] is one character wide: the non-overlapping matches are
    replaced from left to right. [prev] is the character before the
    current position of the subject, [skip] the number of characters that
    still belong to the last match. The match spans [pre] and the group;
    [post] is a lookahead and consumes nothing. *)
Section Sub.
Variable lookbehind : option char -> bool.
Variable p : pattern.
Variable repl : text -> text.

Definition match_at (prev : option char) (s : text) : option (nat * nat) :=
  if lookbehind prev then match_here p s else None.

Fixpoint sub_go (prev : option char) (skip : nat) (s : text) : text :=
  match s with
  | [] =>
      match skip, match_at prev [] with
      | 0, Some (a, b) => repl (slice [] a b)
      | _, _ => []
      end
  | c :: t =>
      match skip with
      | S k => sub_go (Some c) k t
      | 0 =>
          match match_at prev s with
          | Some (a, b) =>
              repl (slice s a b) ++
              match b with
              | 0 => c :: sub_go (Some c) 0 t
              | S k => sub_go (Some c) k t
              end
          | None => c :: sub_go (Some c) 0 t
          end
      end
  end.

Definition re_sub (s : text) : text := sub_go None 0 s.
End Sub.

(** [s.replace(old, new)]: the non-overlapping occurrences of [old] are
    replaced from left to right. *)
Fixpoint replace_go (old new : text) (skip : nat) (s : text) : text :=
  match s with
  | [] => match old with [] => new | _ => [] end
  | c :: t =>
      match skip with
      | S k => replace_go old new k t
      | 0 =>
          if starts_with old s
          then new ++
               match old with
               | [] => c :: replace_go old new 0 t
               | _ :: old' => replace_go old new (length old') t
               end
          else c :: replace_go old new 0 t
      end
  end.

Definition replace (old new s : text) : text := replace_go old new 0 s.

(** ** The header rules ([class Header]) *)

Record Header : Type := mkHeader {
  name : text;
  func_names : list text;
  type_regexes : list regex;
  add_prefix : bool
}.

(** [self.prefix] *)
Definition prefix (h : Header) : text :=
  if add_prefix h then str "std::" else str "".

(** The local [regex_prefix] of [Header.__init__]. *)
Definition regex_prefix (h : Header) : text :=
  if add_prefix h then str "" else str "std::".

(** [self.func_regex]. The guard [func_names != []] compares a set with a
    list, which are never equal in Python, so the expression is compiled
    for every header, also for an empty set of names. *)
Definition func_pattern (h : Header) : pattern :=
  {| pat_pre := Cat (Alt (lit " ") (Alt (lit ",") (lit "(")))
                    (Lit (regex_prefix h));
     pat_grp := Cat (Cls is_lower) (StarCls is_lower_digit);
     pat_post := lit "(" |}.

Definition func_regex (h : Header) : option pattern := Some (func_pattern h).

(** The lookahead [(?=\)|,|;| |\*+)] and the lookbehind [(?<=\<| |,|\()]
    of [self.type_regex]. *)
Definition type_lookahead : regex :=
  Alt (lit ")") (Alt (lit ",") (Alt (lit ";") (Alt (lit " ")
      (PlusCls (is_char "*"))))).

Definition is_type_boundary (c : char) : bool :=
  is_char "<" c || is_char " " c || is_char "," c || is_char "(" c.

Definition type_lookbehind (prev : option char) : bool :=
  match prev with
  | Some c => is_type_boundary c
  | None => false
  end.

(** [self.type_regex], without its lookbehind. *)
Definition type_regex (h : Header) : option pattern :=
  match type_regexes h with
  | [] => None
  | r :: rs =>
      Some {| pat_pre := Lit (regex_prefix h);
              pat_grp := alt_join r rs;
              pat_post := type_lookahead |}
  end.

(** [self.type_sub]: [std::\g<1>] or [\g<1>]. *)
Definition type_sub (h : Header) (g1 : text) : text := prefix h ++ g1.

(** ** [Stdlib.func_substitute] *)

(** [x in header.func_names] *)
Definition mem (x : text) (names : list text) : bool :=
  existsb (text_eqb x) names.

(** The body of the [while] loop, iterated at most [fuel] times.
    [func_substitute] starts it with more fuel than the loop can use (see
    [func_loop_fuel]). *)
Fixpoint func_loop (fuel : nat) (h : Header) (re : pattern) (lines : text)
    (pos : nat) (lines_changed : bool) : text * bool :=
  match fuel with
  | 0 => (lines, lines_changed)
  | S fuel' =>
      if pos <? length lines then
        let old_length := length lines in
        match search re lines pos with
        | None => (lines, lines_changed)
        | Some (start1, end1) =>
            let group1 := slice lines start1 end1 in
            let pos' := start1 + length (prefix h) + length group1 in
            if mem group1 (func_names h) then
              let lines' :=
                firstn start1 lines ++ prefix h ++ group1 ++ skipn end1 lines in
              let lines_changed' :=
                if negb lines_changed && negb (old_length =? length lines')
                then true else lines_changed in
              func_loop fuel' h re lines' pos' lines_changed'
            else func_loop fuel' h re lines pos' lines_changed
        end
      else (lines, lines_changed)
  end.

Definition func_substitute (h : Header) (re : pattern) (lines : text)
  : text * bool :=
  func_loop (S (length lines)) h re lines 0 false.

(** ** [Stdlib.run] *)

Definition strs (l : list string) : list text := map str l.

Definition Header_ (n : string) (fs : list string) (ts : list regex)
    (ap : bool) : Header :=
  mkHeader (str n) (strs fs) ts ap.

(** [(ptrdiff|max_align|nullptr)_t] *)
Definition re_stddef : regex :=
  Cat (Alt (lit "ptrdiff") (Alt (lit "max_align") (lit "nullptr"))) (lit "_t").

(** [((u?int((_fast|_least)?(8|16|32|64)|max|ptr)|size)_t)] *)
Definition re_stdint : regex :=
  Cat (Alt (Cat (Opt (lit "u"))
              (Cat (lit "int")
                 (Alt (Cat (Opt (Alt (lit "_fast") (lit "_least")))
                         (Alt (lit "8") (Alt (lit "16")
                            (Alt (lit "32") (lit "64")))))
                    (Alt (lit "max") (lit "ptr")))))
           (lit "size"))
      (lit "_t").

(** [(l|ll)?div_t] *)
Definition re_div : regex :=
  Cat (Opt (Alt (lit "l") (lit "ll"))) (lit "div_t").

(** [(clock|time)_t] *)
Definition re_time : regex :=
  Cat (Alt (lit "clock") (lit "time")) (lit "_t").

Definition headers : list Header :=
  [ Header_ "assert" [] [] true;
    Header_ "ctype"
      ["isalum"; "isalpha"; "isblank"; "iscntrl"; "isdigit"; "isgraph";
       "islower"; "isprint"; "ispunct"; "isspace"; "isupper"; "isxdigit";
       "tolower"; "toupper"]%string [] true;
    Header_ "errno" [] [] true;
    Header_ "float" [] [] true;
    Header_ "limits" [] [] true;
    Header_ "math"
      ["cos"; "acos"; "cosh"; "acosh"; "sin"; "asin"; "asinh"; "tan"; "atan";
       "atan2"; "atanh"; "exp"; "frexp"; "ldexp"; "log"; "log10"; "ilogb";
       "log1p"; "log2"; "logb"; "modf"; "exp2"; "expm1"; "scalbl"; "scalbln";
       "pow"; "sqrt"; "cbrt"; "hypot"; "erf"; "erfc"; "tgamma"; "lgamma";
       "ceil"; "floor"; "fmod"; "trunc"; "round"; "lround"; "llround"; "rint";
       "lrint"; "llrint"; "nearbyint"; "remainder"; "remquo"; "copysign";
       "nan"; "nextafter"; "nexttoward"; "fdim"; "fmax"; "fmin"; "fma";
       "fpclassify"; "abs"; "fabs"; "signbit"; "isfinite"; "isinf"; "isnan";
       "isnormal"; "isgreater"; "isgreaterequal"; "isless"; "islessequal";
       "islessgreater"; "isunordered"]%string [] true;
    Header_ "setjmp" ["longjmp"; "setjmp"]%string [lit "jmp_buf"] true;
    Header_ "signal" ["signal"; "raise"]%string [lit "sig_atomic_t"] false;
    Header_ "stdarg" ["va_list"]%string [] true;
    Header_ "stddef" [] [re_stddef] true;
    Header_ "stdint" [] [re_stdint] false;
    Header_ "stdio"
      ["remove"; "rename"; "rewind"; "tmpfile"; "tmpnam"; "fclose"; "fflush";
       "fopen"; "freopen"; "fgetc"; "fgets"; "fputc"; "fputs"; "fread";
       "fwrite"; "fgetpos"; "fseek"; "fsetpos"; "ftell"; "feof"; "ferror";
       "setbuf"; "setvbuf"; "fprintf"; "snprintf"; "sprintf"; "vfprintf";
       "vprintf"; "vsnprintf"; "vsprintf"; "printf"; "fscanf"; "sscanf";
       "vfscanf"; "vscanf"; "vsscanf"; "scanf"; "getchar"; "gets"; "putc";
       "putchar"; "puts"; "getc"; "ungetc"; "clearerr"; "perror"]%string
      [lit "FILE"; lit "fpos_t"] true;
    Header_ "stdlib"
      ["atof"; "atoi"; "atol"; "atoll"; "strtof"; "strtol"; "strtod";
       "strtold"; "strtoll"; "strtoul"; "strtoull"; "rand"; "srand"; "free";
       "calloc"; "malloc"; "realloc"; "abort"; "at_quick_exit"; "quick_exit";
       "atexit"; "exit"; "getenv"; "system"; "_Exit"; "bsearch"; "qsort";
       "llabs"; "labs"; "abs"; "lldiv"; "ldiv"; "div"; "mblen"; "btowc";
       "wctomb"; "wcstombs"; "mbstowcs"]%string
      [re_div] true;
    Header_ "string"
      ["memcpy"; "memcmp"; "memchr"; "memmove"; "memset"; "strcpy"; "strncpy";
       "strcat"; "strncat"; "strcmp"; "strncmp"; "strcoll"; "strchr";
       "strrchr"; "strstr"; "strxfrm"; "strcspn"; "strrspn"; "strpbrk";
       "strtok"; "strerror"; "strlen"]%string [] true;
    Header_ "time"
      ["clock"; "asctime"; "ctime"; "difftime"; "gmtime"; "localtime";
       "mktime"; "strftime"; "time"]%string
      [re_time] true ].

(** The include spines [before] and [after] of one header, wrapped in the
    directive. *)
Definition include_before (h : Header) : text :=
  str "#include <" ++
  (if add_prefix h then name h ++ str ".h" else str "c" ++ name h) ++ str ">".

Definition include_after (h : Header) : text :=
  str "#include <" ++
  (if add_prefix h then str "c" ++ name h else name h ++ str ".h") ++ str ">".

(** The three steps of the loop body of [run]. *)
Definition include_step (h : Header) (st : text * bool) : text * bool :=
  let '(lines, file_changed) := st in
  if contains (include_before h) lines then
    (replace (include_before h) (include_after h) lines, true)
  else (lines, file_changed).

Definition func_step (h : Header) (st : text * bool) : text * bool :=
  let '(lines, file_changed) := st in
  match func_regex h with
  | Some re =>
      let '(lines', changed) := func_substitute h re lines in
      (lines', file_changed || changed)
  | None => (lines, file_changed)
  end.

Definition type_step (h : Header) (st : text * bool) : text * bool :=
  let '(lines, file_changed) := st in
  match type_regex h with
  | Some re =>
      let old_length := length lines in
      let lines' := re_sub type_lookbehind re (type_sub h) lines in
      (lines',
       if negb file_changed && negb (old_length =? length lines')
       then true else file_changed)
  | None => (lines, file_changed)
  end.

Definition run_header (st : text * bool) (h : Header) : text * bool :=
  type_step h (func_step h (include_step h st)).

Definition run_with (hs : list Header) (lines : text) : text * bool :=
  fold_left run_header hs (lines, false).

(** [Stdlib.run(name, lines)]; the file name is not used. *)
Definition run (lines : text) : text * bool := run_with headers lines.

(** The migration engine of the specification. *)
Definition migrate : text -> text * bool := run.

(** ** [ClangTidy.__init__] and the command line of [run_standalone] *)

(** [self.args] after the constructor. [compile_commands] is [None] or a
    string; only a non-empty string passes the test [if compile_commands]. *)
Definition init_args (compile_commands : option text)
    (extra_args : list text) : list text :=
  let args := [str "--quiet"] in
  let args :=
    match compile_commands with
    | Some (c :: s) => args ++ [str "-p"; c :: s]
    | _ => args
    end in
  fold_left (fun args arg => args ++ [str "-extra-arg"; str "-" ++ arg])
            extra_args args.

(** The argument vector that [run_standalone] hands to [subprocess.run]. *)
Definition command (executable : text) (args : list text) (name : text)
  : list text :=
  [executable] ++ args ++ [name].

(** ** [ClangTidy.run_standalone]

    The subprocess is modelled by what [subprocess.run] hands back: the exit
    code and the decoded text of the combined standard output and error. *)

Record CompletedProcess : Type := mkCompleted {
  returncode : Z;
  stdout : text
}.

(** The outcome of a call: a returned value together with the argument of
    the call of [print], if there was one, or a raised [StopIteration].
    What [print] writes is its argument followed by a line break
    ([written]). *)
Inductive outcome : Type :=
| Returned (value : bool) (printed : option text)
| StopIteration.

(** The characters for which [str.isspace] holds. *)
Definition is_space (c : char) : bool :=
  ((9 <=? c) && (c <=? 13) || (28 <=? c) && (c <=? 32) ||
   (c =? 133) || (c =? 160) || (c =? 5760) ||
   (8192 <=? c) && (c <=? 8202) || (c =? 8232) || (c =? 8233) ||
   (c =? 8239) || (c =? 8287) || (c =? 12288))%N.

(** [s.rstrip()] *)
Definition rstrip (s : text) : text :=
  fold_right (fun c acc =>
                match acc with
                | [] => if is_space c then [] else [c]
                | _ :: _ => c :: acc
                end) [] s.

(** [s.split(sep)] for a separator of one character. *)
Fixpoint split (sep : char) (s : text) : list text :=
  match s with
  | [] => [[]]
  | c :: t =>
      if char_eqb c sep then [] :: split sep t
      else match split sep t with
           | [] => [[c]]
           | l :: ls => (c :: l) :: ls
           end
  end.

(** [sep.join(ls)] *)
Fixpoint join (sep : text) (ls : list text) : text :=
  match ls with
  | [] => []
  | [l] => l
  | l :: ls' => l ++ sep ++ join sep ls'
  end.

Definition nonempty (l : text) : bool :=
  match l with [] => false | _ :: _ => true end.

Definition generated_marker : text := str " generated.".
Definition processing_marker : text := str "Error while processing".
Definition not_found_marker : text :=
  str "file not found [clang-diagnostic-error]".

(** The [for l in iterlines] loop. [next(iterlines)] on an exhausted
    iterator raises [StopIteration], which nothing catches: [None]. *)
Fixpoint skip_not_found (iterlines : list text) (filtered_lines : list text)
  : option (list text) :=
  match iterlines with
  | [] => Some filtered_lines
  | l :: rest =>
      if contains not_found_marker l then
        match rest with
        | _ :: _ :: rest' => skip_not_found rest' filtered_lines
        | _ => None
        end
      else skip_not_found rest (filtered_lines ++ [l])
  end.

(** The lines that reach the [for] loop. *)
Definition prefiltered (output : text) : list text :=
  let lines := filter nonempty (split (chr "010") (rstrip output)) in
  let lines := filter (fun l => negb (contains generated_marker l)) lines in
  filter (fun l => negb (contains processing_marker l)) lines.

Definition banner (name : text) (lines : list text) : text :=
  str "== clang-tidy " ++ name ++ str " ==" ++ [chr "010"] ++
  join [chr "010"] lines.

Definition run_standalone (name : text) (proc : CompletedProcess) : outcome :=
  match skip_not_found (prefiltered (stdout proc)) [] with
  | None => StopIteration
  | Some [] => Returned true None
  | Some lines => Returned false (Some (banner name lines))
  end.

(** [print(s)]: the text written to the standard output is [s] followed by
    the line break of [end]. *)
Definition written (printed : text) : text := printed ++ [chr "010"].

(** * Notions used in the statements *)

(** The language of a regex. *)
Fixpoint lang (r : regex) (m : text) : Prop :=
  match r with
  | Lit l => m = l
  | Cls p => exists c, m = [c] /\ p c = true
  | Cat r1 r2 => exists m1 m2, m = m1 ++ m2 /\ lang r1 m1 /\ lang r2 m2
  | Alt r1 r2 => lang r1 m \/ lang r2 m
  | Opt r1 => m = [] \/ lang r1 m
  | StarCls p => Forall (fun c => p c = true) m
  | PlusCls p => m <> [] /\ Forall (fun c => p c = true) m
  end.

(** The characters that the call-site expression accepts in front of a
    name: [(?: |,|\()]. *)
Definition is_func_boundary (c : char) : bool :=
  is_char " " c || is_char "," c || is_char "(" c.

(** [steps R k l l']: [l'] is reached from [l] by [k] edits of [R]. *)
Inductive steps (R : text -> text -> Prop) : nat -> text -> text -> Prop :=
| steps_O (l : text) : steps R 0 l l
| steps_S (k : nat) (l1 l2 l3 : text) :
    R l1 l2 -> steps R k l2 l3 -> steps R (S k) l1 l3.

(** The edit of the function pass of a prefixing rule: [std::] is inserted
    between a boundary character and an owned name that an open parenthesis
    follows. *)
Definition func_edit (h : Header) (l l' : text) : Prop :=
  exists a b g c,
    is_func_boundary b = true /\ mem g (func_names h) = true /\
    lang (pat_grp (func_pattern h)) g /\
    l = a ++ b :: g ++ chr "(" :: c /\
    l' = a ++ b :: str "std::" ++ g ++ chr "(" :: c.

(** The edit of the type pass: after a boundary character, [regex_prefix]
    followed by a type name is replaced by [prefix] followed by the name,
    where the lookahead accepts what follows. *)
Definition type_edit (h : Header) (re : pattern) (l l' : text) : Prop :=
  exists a b g m2 c,
    is_type_boundary b = true /\ lang (pat_grp re) g /\
    lang (pat_post re) m2 /\
    l = a ++ b :: regex_prefix h ++ g ++ m2 ++ c /\
    l' = a ++ b :: prefix h ++ g ++ m2 ++ c.

(** The edit of the include step. *)
Definition include_edit (h : Header) (l l' : text) : Prop :=
  exists a c,
    l = a ++ include_before h ++ c /\ l' = a ++ include_after h ++ c.

Definition last_opt (l : text) : option char :=
  match l with
  | [] => None
  | _ :: _ => Some (last l 0%N)
  end.

(** The character before the position reached after [skip] characters. *)
Fixpoint prev_after (prev : option char) (skip : nat) (s : text)
  : option char :=
  match skip, s with
  | S k, c :: t => prev_after (Some c) k t
  | _, _ => prev
  end.

Definition replace_edit (old new l l' : text) : Prop :=
  exists a c, l = a ++ old ++ c /\ l' = a ++ new ++ c.

(** [nullable r]: the empty word may belong to the language of [r]. *)
Fixpoint nullable (r : regex) : bool :=
  match r with
  | Lit l => match l with [] => true | _ => false end
  | Cls _ => false
  | Cat r1 r2 => nullable r1 && nullable r2
  | Alt r1 r2 => nullable r1 || nullable r2
  | Opt _ => true
  | StarCls _ => true
  | PlusCls _ => false
  end.

(** The type expressions of a header never match the empty string. *)
Definition types_nonempty (h : Header) : bool :=
  match type_regex h with
  | Some re => negb (nullable (pat_grp re))
  | None => true
  end.

(** The edits of one rule. *)
Definition edit (h : Header) (l l' : text) : Prop :=
  include_edit h l l' \/
  (add_prefix h = true /\ func_edit h l l') \/
  (exists re, type_regex h = Some re /\ type_edit h re l l').

(** The edits of a list of rules. *)
Definition edit_of (hs : list Header) (l l' : text) : Prop :=
  exists h, In h hs /\ edit h l l'.

(** The passes of [run] in the order in which they are applied. *)
Definition passes_of (h : Header) : list (text * bool -> text * bool) :=
  [include_step h; func_step h; type_step h].

Definition passes : list (text * bool -> text * bool) :=
  flat_map passes_of headers.

Definition apply_passes (ps : list (text * bool -> text * bool))
    (st : text * bool) : text * bool :=
  fold_left (fun st f => f st) ps st.

(** [altered ps st]: some pass of [ps], applied in turn from [st], returns
    a text different from the one it received. *)
Fixpoint altered (ps : list (text * bool -> text * bool)) (st : text * bool)
  : bool :=
  match ps with
  | [] => false
  | f :: ps' => negb (text_eqb (fst st) (fst (f st))) || altered ps' (f st)
  end.

Definition flag_correct (f : text * bool -> text * bool) : Prop :=
  forall l c, snd (f (l, c)) = c || negb (text_eqb l (fst (f (l, c)))).

Fixpoint star_free (r : regex) : bool :=
  match r with
  | Lit _ => true
  | Cls _ | StarCls _ | PlusCls _ => false
  | Cat r1 r2 | Alt r1 r2 => star_free r1 && star_free r2
  | Opt r1 => star_free r1
  end.

Fixpoint words (r : regex) : list text :=
  match r with
  | Lit l => [l]
  | Cls _ | StarCls _ | PlusCls _ => []
  | Cat r1 r2 => flat_map (fun m1 => map (app m1) (words r2)) (words r1)
  | Alt r1 r2 => words r1 ++ words r2
  | Opt r1 => [] :: words r1
  end.

(** The type names of a header. *)
Definition type_words (h : Header) : list text :=
  match type_regex h with
  | Some re => words (pat_grp re)
  | None => []
  end.

Definition types_star_free (h : Header) : bool :=
  match type_regex h with
  | Some re => star_free (pat_grp re)
  | None => true
  end.

(** The tokens in front of which some rule inserts [std::]: the owned
    function names of the prefixing rules (followed by an open
    parenthesis), and their type names. The tokens in front of which some
    rule deletes [std::]: the type names of the other rules. *)
Definition inserted_names : list text :=
  flat_map func_names (filter add_prefix headers).

Definition inserted_types : list text :=
  flat_map type_words (filter add_prefix headers).

Definition deleted_types : list text :=
  flat_map type_words (filter (fun h => negb (add_prefix h)) headers).

(** The four kinds of edit, over the tokens of the table. *)
Definition insert_token (T : text) : Prop :=
  (exists g c, In g inserted_names /\ T = g ++ chr "(" :: c) \/
  (exists g c, In g inserted_types /\ T = g ++ c).

Definition insertion (l l' : text) : Prop :=
  exists a b T,
    is_type_boundary b = true /\ insert_token T /\
    l = a ++ b :: T /\ l' = a ++ b :: str "std::" ++ T.

Definition deletion (l l' : text) : Prop :=
  exists a b g c,
    is_type_boundary b = true /\ In g deleted_types /\
    l = a ++ b :: str "std::" ++ g ++ c /\ l' = a ++ b :: g ++ c.

Definition include_removal (l l' : text) : Prop :=
  exists a c h,
    In h headers /\ add_prefix h = false /\
    l = a ++ include_before h ++ c /\ l' = a ++ include_after h ++ c.

Definition include_addition (l l' : text) : Prop :=
  exists a c h,
    In h headers /\ add_prefix h = true /\
    l = a ++ include_before h ++ c /\ l' = a ++ include_after h ++ c.

(** [occ ps l]: the number of positions of [l] at which some pattern of
    [ps] begins. *)
Fixpoint occ (ps : list text) (l : text) : nat :=
  match l with
  | [] => 0
  | _ :: t => (if existsb (fun p => starts_with p l) ps then 1 else 0) + occ ps t
  end.

Definition count_char (c : char) (l : text) : nat :=
  length (filter (char_eqb c) l).

(** The beginnings of the occurrences that a deletion removes. *)
Definition deletable : list text :=
  map str ["std::sig_"; "std::size_"; "std::int"; "std::uint"]%string.

(** The directives that an include removal rewrites, from the bracket. *)
Definition removable : list text := map str ["<csignal>"; "<cstdint>"]%string.

Definition colon : char := chr ":".

(** [mismatch p g]: [p] and [g] differ at a position that both have, so
    [p] begins no extension of [g]. *)
Fixpoint mismatch (p g : text) : bool :=
  match p, g with
  | x :: p', y :: g' => if char_eqb x y then mismatch p' g' else true
  | _, _ => false
  end.

(** What [deletable] looks for behind [std::]. *)
Definition deletable_heads : list text :=
  map str ["sig_"; "size_"; "int"; "uint"]%string.

Definition deletable_head (T : text) : bool :=
  existsb (fun p => starts_with p T) deletable_heads.

Definition no_deletable_head (g : text) : bool :=
  forallb (fun p => mismatch p g) deletable_heads.

(** [settled ps v]: whether a pattern of [ps] begins [v ++ c] does not
    depend on [c]. *)
Definition settled (ps : list text) (v : text) : bool :=
  forallb (fun p => mismatch p v || starts_with p v) ps.

Fixpoint all_settled (ps : list text) (u : text) : bool :=
  match u with
  | [] => true
  | _ :: t => settled ps u && all_settled ps t
  end.

Definition hash : char := chr "#".

(** What the directives of one header do to the measures, checked on the
    texts behind the [#]. *)
Definition include_check (h : Header) : bool :=
  let u := tl (include_before h) in
  let v := tl (include_after h) in
  all_settled deletable u && all_settled deletable v &&
  all_settled removable u && all_settled removable v &&
  (occ deletable u =? occ deletable v) &&
  (count_char colon u =? count_char colon v) &&
  (if add_prefix h
   then occ removable u =? occ removable v
   else occ removable u =? S (occ removable v)).

(** The third filter as the specification words it: a file-not-found
    diagnostic is dropped together with the two lines that follow it. *)
Fixpoint spec_drop_not_found (lines : list text) : list text :=
  match lines with
  | [] => []
  | l :: rest =>
      if contains not_found_marker l then
        match rest with
        | _ :: _ :: rest' => spec_drop_not_found rest'
        | _ => []
        end
      else l :: spec_drop_not_found rest
  end.

Definition spec_filtered (output : text) : list text :=
  spec_drop_not_found (prefiltered output).

(** [occurrences w l] counts the positions of [l] at which [w] begins. *)
Fixpoint occurrences (w l : text) : nat :=
  (if starts_with w l then 1 else 0) +
  match l with
  | [] => 0
  | _ :: t => occurrences w t
  end.

Inductive pass_kind : Type := PInclude | PFunc | PType.

Definition pass : Type := (Header * pass_kind)%type.

Definition run_pass (p : pass) : text * bool -> text * bool :=
  match snd p with
  | PInclude => include_step (fst p)
  | PFunc => func_step (fst p)
  | PType => type_step (fst p)
  end.

Definition passes_of_header (h : Header) : list pass :=
  [(h, PInclude); (h, PFunc); (h, PType)].

Definition all_passes : list pass := flat_map passes_of_header headers.

(** The edits of one pass. *)
Definition pass_edit (p : pass) (l l' : text) : Prop :=
  match snd p with
  | PInclude => include_edit (fst p) l l'
  | PFunc => add_prefix (fst p) = true /\ func_edit (fst p) l l'
  | PType => exists re, type_regex (fst p) = Some re /\ type_edit (fst p) re l l'
  end.

(** The ways of cutting a word into two non-empty parts. *)
Fixpoint splits (w : text) : list (text * text) :=
  match w with
  | [] => []
  | x :: w' =>
      match w' with
      | [] => []
      | _ :: _ => ([x], w') :: map (fun tw => (x :: fst tw, snd tw)) (splits w')
      end
  end.

(** [check_left ok pats w]: no proper tail of [w] that follows a part
    accepted by [ok] begins like a pattern of [pats]. *)
Definition check_left (ok : text -> bool) (pats : list text) (w : text)
  : bool :=
  forallb (fun tw => negb (ok (fst tw)) ||
                     forallb (fun P => mismatch (snd tw) P) pats) (splits w).

(** [check_in n pats w]: [w] begins at none of the first [n] positions of
    a pattern of [pats]. *)
Definition check_in (n : nat) (pats : list text) (w : text) : bool :=
  forallb (fun P => forallb (fun j => mismatch w (skipn j P)) (seq 0 n)) pats.

Definition after_boundary (t : text) : bool := is_type_boundary (last t 0%N).

Definition pass_robust (p : pass) (w : text) : bool :=
  let h := fst p in
  match snd p with
  | PInclude =>
      check_left (fun _ => true) [include_before h] w &&
      check_in (length (include_before h)) [include_before h] w
  | PFunc =>
      negb (add_prefix h) ||
      check_left after_boundary
        (map (fun g => g ++ [chr "("]) (func_names h)) w
  | PType =>
      if add_prefix h
      then check_left after_boundary (type_words h) w
      else check_left after_boundary (map (app (str "std::")) (type_words h)) w
           && check_in 5 (map (app (str "std::")) (type_words h)) w
  end.

Definition passes_robust (ps : list pass) (w : text) : bool :=
  forallb (fun p => pass_robust p w) ps.

Definition run_passes (ps : list pass) (st : text * bool) : text * bool :=
  fold_left (fun st p => run_pass p st) ps st.

(** [survives p w]: no edit of the pass [p] loses an occurrence of [w]. *)
Definition survives (p : pass) (w : text) : Prop :=
  forall l l', pass_edit p l l' -> occurrences w l <= occurrences w l'.

(** [sep_ok h b]: the character [b] occurs in no match of the type
    expression of [h]. *)
Definition sep_ok (h : Header) (b : char) : bool :=
  forallb (fun g => negb (existsb (char_eqb b) (regex_prefix h ++ g)))
          (type_words h).

(** The rule of the table for the header [n]. *)
Definition rule (n : string) : Header :=
  match find (fun h => text_eqb (name h) (str n)) headers with
  | Some h => h
  | None => Header_ n [] [] true
  end.

Arguments rule n%_string.

Definition is_identifier (ident : text) : bool :=
  match ident with
  | c :: m => is_lower c && forallb is_lower_digit m
  | [] => false
  end.

(** [ident] is in the [func_names] of no header. *)
Definition unowned (ident : text) : bool :=
  forallb (fun h => negb (mem ident (func_names h))) headers.

Definition call_site (b : char) (ident : text) : text :=
  b :: ident ++ [chr "("].

(** [not_call_word P]: [P] does not begin with an identifier followed by
    an open parenthesis. *)
Fixpoint not_call_word (P : text) : bool :=
  match P with
  | [] => false
  | y :: P' => if is_lower_digit y then not_call_word P'
               else negb (is_char "(" y)
  end.

(** No directive of the table holds a boundary character followed by a
    lowercase letter. *)
Definition include_call_ok (h : Header) : bool :=
  forallb (fun j =>
             match skipn j (include_before h) with
             | x :: y :: _ => negb (is_func_boundary x && is_lower y)
             | [x] => negb (is_func_boundary x)
             | [] => true
             end) (seq 0 (length (include_before h))).

Definition types_not_call (h : Header) : bool :=
  forallb not_call_word (type_words h).

(** The directives of the table behind which the check is made: the old
    one before the include pass of its rule, the new one after it. *)
Definition include_robust (i : nat) : bool :=
  match nth_error headers i with
  | Some h =>
      passes_robust (firstn (3 * i) all_passes) (include_before h) &&
      passes_robust (skipn (S (3 * i)) all_passes) (include_after h)
  | None => true
  end.

Definition include_free_ok (h : Header) : bool :=
  negb (existsb (char_eqb hash) (tl (include_before h))) &&
  negb (existsb (char_eqb hash) (tl (include_after h))) &&
  mismatch (include_before h) (include_after h).

Definition dquote : char := 34%N.

(** The quoted form of the directive that a rule rewrites. *)
Definition quoted_before (h : Header) : text :=
  str "#include " ++ dquote ::
  (if add_prefix h then name h ++ str ".h" else str "c" ++ name h) ++ [dquote].

(** The arguments that select the compilation database, and the arguments
    that carry the extra arguments. *)
Definition dir_flags (compile_commands : option text) : list text :=
  match compile_commands with
  | Some (c :: s) => [str "-p"; c :: s]
  | _ => []
  end.

Definition extra_flags (extra_args : list text) : list text :=
  flat_map (fun arg => [str "-extra-arg"; str "-" ++ arg]) extra_args.

Definition newline : char := chr "010".

(** The lines of the raw output, before any filter. *)
Definition raw_lines (output : text) : list text :=
  split newline (rstrip output).

(** What holds of every line that [run_standalone] reports. *)
Definition reported_line (output l : text) : Prop :=
  In l (raw_lines output) /\ l <> [] /\ ~ In newline l /\
  contains generated_marker l = false /\
  contains processing_marker l = false /\
  contains not_found_marker l = false.

Definition no_not_found (ls : list text) : bool :=
  forallb (fun l => negb (contains not_found_marker l)) ls.

(** The entries of [func_names] that the call-site expression
    [[a-z][a-z0-9]*] can capture, and the rule restricted to them. *)
Definition live_names (h : Header) : list text :=
  filter is_identifier (func_names h).

Definition prune (h : Header) : Header :=
  mkHeader (name h) (live_names h) (type_regexes h) (add_prefix h).

(** The entries of the table that the expression cannot capture. *)
Definition dead_names : list text :=
  filter (fun g => negb (is_identifier g)) (flat_map func_names headers).

(** The [while] loop of [func_substitute] with its ways out told apart:
    [Some] is the state with which the loop is left, through the test
    [pos < len(lines)] or through [break]; [None] says that the loop is
    still running after [fuel] iterations. *)
Fixpoint func_run (fuel : nat) (h : Header) (re : pattern) (lines : text)
    (pos : nat) (lines_changed : bool) : option (text * bool) :=
  match fuel with
  | 0 => None
  | S fuel' =>
      if pos <? length lines then
        let old_length := length lines in
        match search re lines pos with
        | None => Some (lines, lines_changed)
        | Some (start1, end1) =>
            let group1 := slice lines start1 end1 in
            let pos' := start1 + length (prefix h) + length group1 in
            if mem group1 (func_names h) then
              let lines' :=
                firstn start1 lines ++ prefix h ++ group1 ++ skipn end1 lines in
              let lines_changed' :=
                if negb lines_changed && negb (old_length =? length lines')
                then true else lines_changed in
              func_run fuel' h re lines' pos' lines_changed'
            else func_run fuel' h re lines pos' lines_changed
        end
      else Some (lines, lines_changed)
  end.

(** One iteration of the loop: [None] when the loop is left, the next
    text, position and flag when it goes on. *)
Definition func_body (h : Header) (re : pattern) (lines : text) (pos : nat)
    (lines_changed : bool) : option (text * nat * bool) :=
  if pos <? length lines then
    let old_length := length lines in
    match search re lines pos with
    | None => None
    | Some (start1, end1) =>
        let group1 := slice lines start1 end1 in
        let pos' := start1 + length (prefix h) + length group1 in
        if mem group1 (func_names h) then
          let lines' :=
            firstn start1 lines ++ prefix h ++ group1 ++ skipn end1 lines in
          let lines_changed' :=
            if negb lines_changed && negb (old_length =? length lines')
            then true else lines_changed in
          Some (lines', pos', lines_changed')
        else Some (lines, pos', lines_changed)
    end
  else None.

Definition no_func_boundary (s : text) : bool :=
  forallb (fun c => negb (is_func_boundary c)) s.

(** The characters that the edits of the engine insert or delete: those of
    [std::] and of the spines [name.h] and [cname]. *)
Definition std_chars : text := str "std:.hc".

(** The directives without their closing bracket. *)
Definition include_open_before (h : Header) : text :=
  removelast (include_before h).

Definition include_open_after (h : Header) : text :=
  removelast (include_after h).

(** No position of a directive of the table begins with a character
    followed by an identifier and an open parenthesis. *)
Definition include_body_ok (h : Header) : bool :=
  forallb (fun j => not_call_word
                      (tl (skipn j (include_open_before h)) ++ [chr ">"]))
          (seq 0 (length (include_open_before h))).

(** The type names as the rules look for them: bare for a prefixing rule,
    with [std::] for the other rules. *)
Definition sought_types : list text :=
  inserted_types ++ map (app (str "std::")) deleted_types.

(** [resub_ok h]: what the type pass of [h] writes holds no boundary
    character and begins no new match, and no match holds a boundary
    character. *)
Definition resub_ok (h : Header) : bool :=
  forallb (fun g =>
             forallb (fun g' => mismatch (regex_prefix h ++ g') (prefix h ++ g))
                     (type_words h) &&
             negb (existsb is_type_boundary (regex_prefix h ++ g)) &&
             negb (existsb is_type_boundary (prefix h ++ g)))
          (type_words h).

(** The characters of the lookbehind and of the lookahead of a type
    expression. *)
Definition boundary_chars : list char := [chr "<"; chr " "; chr ","; chr "("].

Definition lookahead_chars : list char :=
  [chr ")"; chr ","; chr ";"; chr " "; chr "*"].

(** The type names of a rule hold none of these characters. *)
Definition types_plain (h : Header) : bool :=
  forallb (sep_ok h) boundary_chars &&
  forallb (fun g =>
             forallb (fun c => negb (existsb (char_eqb c) g)) lookahead_chars)
          (type_words h).

(** A type name of the [i]-th rule between a boundary character and a
    lookahead character: no pass before the type pass of the rule touches
    it, and no later pass touches what the type pass makes of it. *)
Definition type_rewrite_robust (i : nat) : bool :=
  match nth_error headers i with
  | Some h =>
      forallb (fun g =>
        forallb (fun b =>
          forallb (fun la =>
            passes_robust (firstn (3 * i + 2) all_passes)
                          (b :: regex_prefix h ++ g ++ [la]) &&
            passes_robust (skipn (S (3 * i + 2)) all_passes)
                          (b :: prefix h ++ g ++ [la]))
            lookahead_chars) boundary_chars) (type_words h)
  | None => true
  end.

(** The first line of a report. *)
Definition banner_line (name : text) : text :=
  str "== clang-tidy " ++ name ++ str " ==".

(** * Properties *)

(** ** Text *)

Lemma char_eqb_eq (a b : char) : char_eqb a b = true <-> a = b.
Proof. apply N.eqb_eq. Qed.

Lemma char_eqb_refl (a : char) : char_eqb a a = true.
Proof. apply N.eqb_refl. Qed.

Lemma text_eqb_eq (a b : text) : text_eqb a b = true <-> a = b.
Proof.
  revert b; induction a as [|x a IH]; intros [|y b]; simpl;
    try (split; [discriminate | discriminate]); try tauto.
  rewrite andb_true_iff, char_eqb_eq, IH.
  split; [intros [-> ->]; reflexivity | intros H; inversion H; auto].
Qed.

Lemma drop_prefix_app (p s s' : text) :
  drop_prefix p s = Some s' <-> s = p ++ s'.
Proof.
  revert s; induction p as [|x p IH]; intros s; simpl.
  - split; [intros H; inversion H; reflexivity | intros ->; reflexivity].
  - destruct s as [|y s]; [split; discriminate|].
    destruct (char_eqb x y) eqn:E.
    + apply char_eqb_eq in E; subst y. rewrite IH.
      split; [intros ->; reflexivity | intros H; inversion H; reflexivity].
    + split; [discriminate|]. intros H; inversion H; subst.
      rewrite char_eqb_refl in E; discriminate.
Qed.

Lemma starts_with_app (p s : text) :
  starts_with p s = true <-> exists s', s = p ++ s'.
Proof.
  revert s; induction p as [|x p IH]; intros s; simpl.
  - split; [exists s; reflexivity | reflexivity].
  - destruct s as [|y s].
    + split; [discriminate | intros [s' H]; discriminate].
    + rewrite andb_true_iff, char_eqb_eq, IH. split.
      * intros [-> [s' ->]]. exists s'; reflexivity.
      * intros [s' H]; inversion H; subst. split; [reflexivity | exists s'; reflexivity].
Qed.

Lemma contains_app (p s : text) :
  contains p s = true <-> exists a c, s = a ++ p ++ c.
Proof.
  induction s as [|y s IH]; simpl.
  - rewrite orb_false_r, starts_with_app. split.
    + intros [s' H]. exists [], s'. exact H.
    + intros [a [c H]]. destruct a; simpl in H; [exists c; exact H | discriminate].
  - rewrite orb_true_iff, starts_with_app, IH. split.
    + intros [[s' H] | [a [c H]]].
      * exists [], s'. exact H.
      * exists (y :: a), c. simpl. rewrite H. reflexivity.
    + intros [a [c H]]. destruct a as [|x a]; simpl in H.
      * left. exists c. exact H.
      * right. inversion H; subst. exists a, c. reflexivity.
Qed.

Lemma slice_app (a m c : text) :
  slice (a ++ m ++ c) (length a) (length a + length m) = m.
Proof.
  unfold slice. rewrite skipn_app, skipn_all, Nat.sub_diag. simpl.
  replace (length a + length m - length a) with (length m + 0) by lia.
  rewrite firstn_app_2. simpl. apply app_nil_r.
Qed.

Lemma slice_split (s : text) (a b : nat) :
  a <= b -> firstn a s ++ slice s a b ++ skipn b s = s.
Proof.
  intros H. unfold slice.
  replace b with ((b - a) + a) at 2 by lia.
  rewrite <- (skipn_skipn (b - a) a s), firstn_skipn, firstn_skipn.
  reflexivity.
Qed.

(** ** The matcher *)

Section MatcherFacts.
Variable A : Type.

Lemma star_cls_sound (p : char -> bool) (s : text) (k : text -> option A) x :
  star_cls p s k = Some x ->
  exists m s', s = m ++ s' /\ Forall (fun c => p c = true) m /\ k s' = Some x.
Proof.
  induction s as [|c s IH]; simpl; intros H.
  - exists [], []. auto.
  - destruct (p c) eqn:Pc.
    + destruct (star_cls p s k) eqn:E.
      * inversion H; subst. destruct (IH eq_refl) as (m & s' & -> & Fm & K).
        exists (c :: m), s'. auto.
      * exists [], (c :: s). auto.
    + exists [], (c :: s). auto.
Qed.

(** Whatever the matcher accepts is a word of the language followed by a
    rest that the continuation accepts. *)
Lemma rmatch_sound (r : regex) :
  forall (s : text) (k : text -> option A) x,
    rmatch r s k = Some x ->
    exists m s', s = m ++ s' /\ lang r m /\ k s' = Some x.
Proof.
  induction r as [l|p|r1 IH1 r2 IH2|r1 IH1 r2 IH2|r1 IH1|p|p];
    intros s k x H; simpl in H.
  - destruct (drop_prefix l s) as [s'|] eqn:E; [|discriminate].
    apply drop_prefix_app in E. exists l, s'. simpl. auto.
  - destruct s as [|c s]; [discriminate|].
    destruct (p c) eqn:Pc; [|discriminate].
    exists [c], s. simpl. eauto.
  - apply IH1 in H. destruct H as (m1 & s1 & -> & L1 & H).
    apply IH2 in H. destruct H as (m2 & s2 & -> & L2 & H).
    exists (m1 ++ m2), s2. rewrite app_assoc. simpl. eauto 7.
  - destruct (rmatch r1 s k) eqn:E.
    + inversion H; subst. apply IH1 in E.
      destruct E as (m & s' & -> & L & K). exists m, s'. simpl. auto.
    + apply IH2 in H. destruct H as (m & s' & -> & L & K).
      exists m, s'. simpl. auto.
  - destruct (rmatch r1 s k) eqn:E.
    + inversion H; subst. apply IH1 in E.
      destruct E as (m & s' & -> & L & K). exists m, s'. simpl. auto.
    + exists [], s. simpl. auto.
  - apply star_cls_sound in H. exact H.
  - destruct s as [|c s]; [discriminate|].
    destruct (p c) eqn:Pc; [|discriminate].
    apply star_cls_sound in H. destruct H as (m & s' & -> & Fm & K).
    exists (c :: m), s'. simpl. repeat split; auto. discriminate.
Qed.
End MatcherFacts.

Lemma star_cls_const (A : Type) (p : char -> bool) (s : text) (x : A) :
  star_cls p s (fun _ => Some x) = Some x.
Proof.
  induction s as [|c s IH]; simpl; [reflexivity|].
  destruct (p c); [rewrite IH|]; reflexivity.
Qed.

(** A match of [pre (grp) post] at the beginning of [s] splits [s] into the
    three matched words and a rest; the reported offsets are those of the
    group. *)
Lemma match_here_sound (p : pattern) (s : text) (a b : nat) :
  match_here p s = Some (a, b) ->
  exists m0 m1 m2 s',
    s = m0 ++ m1 ++ m2 ++ s' /\
    lang (pat_pre p) m0 /\ lang (pat_grp p) m1 /\ lang (pat_post p) m2 /\
    a = length m0 /\ b = length m0 + length m1.
Proof.
  unfold match_here.
  destruct (match_suffixes p s) as [[t1 t2]|] eqn:H; [|discriminate].
  intros Hab. unfold match_suffixes in H.
  apply rmatch_sound in H. destruct H as (m0 & s1 & E0 & L0 & H).
  apply rmatch_sound in H. destruct H as (m1 & s2 & E1 & L1 & H).
  apply rmatch_sound in H. destruct H as (m2 & s3 & E2 & L2 & H).
  exists m0, m1, m2, s3. subst s2 s1. split; [exact E0|].
  repeat split; auto; inversion H; subst; inversion Hab;
    rewrite !length_app; lia.
Qed.

Lemma search_suffix_sound (p : pattern) (s : text) :
  forall (i s1 e1 : nat),
    search_suffix p s i = Some (s1, e1) ->
    exists skipped m0 m1 m2 rest,
      s = skipped ++ m0 ++ m1 ++ m2 ++ rest /\
      lang (pat_pre p) m0 /\ lang (pat_grp p) m1 /\ lang (pat_post p) m2 /\
      s1 = i + length skipped + length m0 /\ e1 = s1 + length m1.
Proof.
  induction s as [|c s IH]; intros i s1 e1 H; simpl in H.
  - destruct (match_here p []) as [[a b]|] eqn:E; [|discriminate].
    inversion H; subst. apply match_here_sound in E.
    destruct E as (m0 & m1 & m2 & s' & E & L0 & L1 & L2 & -> & ->).
    exists [], m0, m1, m2, s'. simpl. repeat split; auto; lia.
  - destruct (match_here p (c :: s)) as [[a b]|] eqn:E.
    + inversion H; subst. apply match_here_sound in E.
      destruct E as (m0 & m1 & m2 & s' & E & L0 & L1 & L2 & -> & ->).
      exists [], m0, m1, m2, s'. simpl. repeat split; auto; lia.
    + apply IH in H.
      destruct H as (sk & m0 & m1 & m2 & rest & -> & L0 & L1 & L2 & -> & ->).
      exists (c :: sk), m0, m1, m2, rest. simpl. repeat split; auto; lia.
Qed.

(** What [regex.search(lines, pos)] reports: the subject splits at the
    match, which begins at or after [pos]. *)
Lemma search_sound (p : pattern) (lines : text) (pos s1 e1 : nat) :
  pos <= length lines ->
  search p lines pos = Some (s1, e1) ->
  exists before m0 m1 m2 rest,
    lines = before ++ m0 ++ m1 ++ m2 ++ rest /\
    pos <= length before /\
    lang (pat_pre p) m0 /\ lang (pat_grp p) m1 /\ lang (pat_post p) m2 /\
    s1 = length before + length m0 /\ e1 = s1 + length m1.
Proof.
  unfold search. intros Hpos H. apply search_suffix_sound in H.
  destruct H as (sk & m0 & m1 & m2 & rest & E & L0 & L1 & L2 & -> & ->).
  exists (firstn pos lines ++ sk), m0, m1, m2, rest.
  rewrite <- app_assoc, <- E, firstn_skipn, length_app, length_firstn.
  repeat split; auto; lia.
Qed.

Lemma lang_func_pre (h : Header) (m : text) :
  lang (pat_pre (func_pattern h)) m ->
  exists b, is_func_boundary b = true /\ m = b :: regex_prefix h.
Proof.
  simpl. intros (m1 & m2 & -> & [E | [E | E]] & ->); subst m1;
    eexists; (split; [|reflexivity]); reflexivity.
Qed.

Lemma lang_func_grp (h : Header) (m : text) :
  lang (pat_grp (func_pattern h)) m ->
  exists c m', m = c :: m' /\ is_lower c = true /\
               Forall (fun c => is_lower_digit c = true) m'.
Proof.
  simpl. intros (m1 & m2 & -> & (c & -> & Hc) & F). exists c, m2. auto.
Qed.

(** The identifier that [search] captured is the slice between the reported
    offsets. *)
Lemma func_search_sound (h : Header) (lines : text) (pos s1 e1 : nat) :
  pos <= length lines ->
  search (func_pattern h) lines pos = Some (s1, e1) ->
  exists before b g rest,
    lines = before ++ b :: regex_prefix h ++ g ++ chr "(" :: rest /\
    pos <= length before /\ is_func_boundary b = true /\
    lang (pat_grp (func_pattern h)) g /\
    s1 = length before + 1 + length (regex_prefix h) /\
    e1 = s1 + length g /\
    slice lines s1 e1 = g /\
    firstn s1 lines = before ++ b :: regex_prefix h /\
    skipn e1 lines = chr "(" :: rest.
Proof.
  intros Hpos H. apply search_sound in H; [|exact Hpos].
  destruct H as (before & m0 & m1 & m2 & rest & E & Hb & L0 & L1 & L2 & -> & ->).
  apply lang_func_pre in L0. destruct L0 as (b & Bb & ->).
  simpl in L2. subst m2.
  exists before, b, m1, rest.
  assert (E' : lines = (before ++ b :: regex_prefix h) ++ m1 ++ chr "(" :: rest).
  { rewrite E, <- app_assoc. reflexivity. }
  assert (Len : length before + length (b :: regex_prefix h)
                = length (before ++ b :: regex_prefix h)).
  { rewrite length_app. reflexivity. }
  repeat split; auto.
  - simpl; lia.
  - rewrite Len. rewrite E' at 1. apply slice_app.
  - rewrite Len. rewrite E' at 1.
    rewrite firstn_app, Nat.sub_diag, firstn_all. simpl. apply app_nil_r.
  - rewrite Len, <- length_app. rewrite E' at 1.
    rewrite app_assoc, skipn_app, skipn_all, Nat.sub_diag. reflexivity.
Qed.

(** ** The loop of [func_substitute] *)

Lemma lang_func_grp_length (h : Header) (g : text) :
  lang (pat_grp (func_pattern h)) g -> 1 <= length g.
Proof.
  intros L. apply lang_func_grp in L. destruct L as (c & m' & -> & _).
  simpl; lia.
Qed.

(** Each iteration moves [pos] closer to the end of the text, so the loop
    stops before its fuel is used up: with more fuel than
    [len(lines) - pos] the result does not depend on the fuel. *)
Lemma func_loop_fuel (h : Header) :
  forall (f1 f2 : nat) (lines : text) (pos : nat) (ch : bool),
    length lines - pos < f1 -> length lines - pos < f2 ->
    func_loop f1 h (func_pattern h) lines pos ch =
    func_loop f2 h (func_pattern h) lines pos ch.
Proof.
  induction f1 as [|f1 IH]; intros f2 lines pos ch H1 H2; [lia|].
  destruct f2 as [|f2]; [lia|]. simpl.
  destruct (pos <? length lines) eqn:Hlt; [|reflexivity].
  apply Nat.ltb_lt in Hlt.
  destruct (search (func_pattern h) lines pos) as [[s1 e1]|] eqn:Hs;
    [|reflexivity].
  destruct (func_search_sound h lines pos s1 e1 (Nat.lt_le_incl _ _ Hlt) Hs)
    as (before & b & g & rest & E & Hb & Bb & Lg & Es1 & Ee1 & Sl & Fn & Sk).
  pose proof (lang_func_grp_length h g Lg) as Hg.
  assert (Hlen : length lines =
                 length before + 1 + length (regex_prefix h) + length g + 1
                 + length rest).
  { rewrite E. rewrite length_app. simpl. rewrite !length_app. simpl. lia. }
  rewrite Sl, Fn, Sk.
  destruct (mem g (func_names h)).
  - apply IH; repeat (rewrite ?length_app; simpl length); lia.
  - apply IH; lia.
Qed.

(** What one iteration does with a candidate that the header does not
    own: the text is kept, and the loop resumes [len(prefix)] characters
    behind the end of the identifier. *)
Lemma func_loop_unowned (h : Header) (fuel : nat) (lines : text)
    (pos s1 e1 : nat) (ch : bool) :
  pos < length lines ->
  search (func_pattern h) lines pos = Some (s1, e1) ->
  mem (slice lines s1 e1) (func_names h) = false ->
  func_loop (S fuel) h (func_pattern h) lines pos ch =
  func_loop fuel h (func_pattern h) lines (e1 + length (prefix h)) ch.
Proof.
  intros Hlt Hs Hm. simpl.
  apply Nat.ltb_lt in Hlt. rewrite Hlt, Hs, Hm.
  apply Nat.ltb_lt in Hlt.
  destruct (func_search_sound h lines pos s1 e1 (Nat.lt_le_incl _ _ Hlt) Hs)
    as (before & b & g & rest & _ & _ & _ & _ & _ & Ee1 & Sl & _).
  rewrite Sl. f_equal. lia.
Qed.

(** [func_substitute] runs its loop to the end. *)
Lemma func_substitute_fuel (h : Header) (lines : text) (fuel : nat) :
  length lines < fuel ->
  func_loop fuel h (func_pattern h) lines 0 false =
  func_substitute h (func_pattern h) lines.
Proof.
  intros H. unfold func_substitute. apply func_loop_fuel; lia.
Qed.

(** A rule that removes the prefix never rewrites a call site: the slice up
    to the captured identifier still holds the matched [std::], and the
    replacement prefix is empty. *)
Lemma func_loop_remove_identity (h : Header) :
  add_prefix h = false ->
  forall (fuel : nat) (lines : text) (pos : nat),
    func_loop fuel h (func_pattern h) lines pos false = (lines, false).
Proof.
  intros Hap. induction fuel as [|fuel IH]; intros lines pos; [reflexivity|].
  simpl. destruct (pos <? length lines) eqn:Hlt; [|reflexivity].
  apply Nat.ltb_lt in Hlt.
  destruct (search (func_pattern h) lines pos) as [[s1 e1]|] eqn:Hs;
    [|reflexivity].
  destruct (func_search_sound h lines pos s1 e1 (Nat.lt_le_incl _ _ Hlt) Hs)
    as (before & b & g & rest & E & Hb & Bb & Lg & Es1 & Ee1 & Sl & Fn & Sk).
  assert (Hp : prefix h = []) by (unfold prefix; rewrite Hap; reflexivity).
  rewrite Hp. simpl.
  assert (Hid : firstn s1 lines ++ slice lines s1 e1 ++ skipn e1 lines = lines)
    by (apply slice_split; lia).
  rewrite Hid, Nat.eqb_refl. simpl.
  destruct (mem (slice lines s1 e1) (func_names h)); apply IH.
Qed.

(** ** Passes as sequences of local edits

    Every pass of [run] rewrites the text by a number of local edits of one
    of three kinds; the properties of the engine are proved edit by
    edit. *)

Section Steps.
Variable R : text -> text -> Prop.

Lemma steps_app (j k : nat) (l1 l2 l3 : text) :
  steps R j l1 l2 -> steps R k l2 l3 -> steps R (j + k) l1 l3.
Proof.
  induction 1 as [l|j l1 l2 l2' HR _ IH]; intros H; simpl; [exact H|].
  eapply steps_S; [exact HR | apply IH, H].
Qed.

Lemma steps_one (l1 l2 : text) : R l1 l2 -> steps R 1 l1 l2.
Proof. intros H. eapply steps_S; [exact H | apply steps_O]. Qed.
End Steps.

Lemma steps_impl (R R' : text -> text -> Prop) :
  (forall l l', R l l' -> R' l l') ->
  forall k l l', steps R k l l' -> steps R' k l l'.
Proof.
  intros HR k l l' H. induction H as [l|k l1 l2 l3 H1 _ IH].
  - apply steps_O.
  - eapply steps_S; [apply HR, H1 | exact IH].
Qed.

(** *** The function pass *)

Lemma func_loop_steps (h : Header) :
  add_prefix h = true ->
  forall (fuel : nat) (lines : text) (pos : nat) (ch : bool),
  exists k,
    steps (func_edit h) k lines
          (fst (func_loop fuel h (func_pattern h) lines pos ch)) /\
    snd (func_loop fuel h (func_pattern h) lines pos ch) = ch || (0 <? k).
Proof.
  intros Hap.
  assert (Hp : prefix h = str "std::") by (unfold prefix; rewrite Hap; reflexivity).
  assert (Hrp : regex_prefix h = []) by (unfold regex_prefix; rewrite Hap; reflexivity).
  induction fuel as [|fuel IH]; intros lines pos ch; simpl.
  - exists 0. split; [apply steps_O | rewrite orb_false_r; reflexivity].
  - destruct (pos <? length lines) eqn:Hlt;
      [|exists 0; split; [apply steps_O | rewrite orb_false_r; reflexivity]].
    apply Nat.ltb_lt in Hlt.
    destruct (search (func_pattern h) lines pos) as [[s1 e1]|] eqn:Hs;
      [|exists 0; split; [apply steps_O | rewrite orb_false_r; reflexivity]].
    destruct (func_search_sound h lines pos s1 e1 (Nat.lt_le_incl _ _ Hlt) Hs)
      as (before & b & g & rest & E & Hb & Bb & Lg & Es1 & Ee1 & Sl & Fn & Sk).
    rewrite Sl, Fn, Sk, Hrp, Hp. rewrite Hrp in E. simpl in E.
    destruct (mem g (func_names h)) eqn:Hm; [|apply IH].
    set (lines' := (before ++ [b]) ++ str "std::" ++ g ++ chr "(" :: rest).
    assert (Hlen : length lines' = length lines + 5).
    { unfold lines'. rewrite E. repeat (rewrite ?length_app; simpl length). lia. }
    assert (Hch : (if negb ch && negb (length lines =? length lines')
                   then true else ch) = true).
    { replace (length lines =? length lines') with false
        by (symmetry; apply Nat.eqb_neq; lia).
      destruct ch; reflexivity. }
    rewrite Hch.
    destruct (IH lines' (s1 + length (str "std::") + length g) true)
      as (k & Hk & Hc).
    exists (S k). split.
    + eapply steps_S; [|exact Hk].
      exists before, b, g, rest. repeat split; auto.
      unfold lines'. rewrite <- app_assoc. reflexivity.
    + rewrite Hc. simpl. rewrite orb_true_r. reflexivity.
Qed.

(** The function pass of a prefixing rule performs [k] insertions and
    reports a change exactly when [k] is not zero. *)
Lemma func_substitute_steps (h : Header) (lines : text) :
  add_prefix h = true ->
  exists k,
    steps (func_edit h) k lines
          (fst (func_substitute h (func_pattern h) lines)) /\
    snd (func_substitute h (func_pattern h) lines) = (0 <? k).
Proof.
  intros Hap. unfold func_substitute.
  destruct (func_loop_steps h Hap (S (length lines)) lines 0 false)
    as (k & Hk & Hc).
  exists k. split; [exact Hk | exact Hc].
Qed.

(** *** The type pass *)

Lemma last_app_ne (l m : text) (d : char) :
  m <> [] -> last (l ++ m) d = last m d.
Proof.
  intros Hm. induction l as [|x l IH]; [reflexivity|].
  simpl. destruct (l ++ m) eqn:E; [|exact IH].
  destruct l; destruct m; try discriminate; congruence.
Qed.

Lemma last_opt_app (l m : text) :
  m <> [] -> last_opt (l ++ m) = last_opt m.
Proof.
  intros Hm. destruct m as [|x m]; [congruence|].
  unfold last_opt. destruct (l ++ x :: m) eqn:E.
  - destruct l; discriminate.
  - rewrite <- E. rewrite last_app_ne; [reflexivity | discriminate].
Qed.

Lemma last_opt_inv (l : text) (c : char) :
  last_opt l = Some c -> exists l', l = l' ++ [c].
Proof.
  destruct l as [|x l]; [discriminate|]. unfold last_opt. intros H.
  assert (E : last (x :: l) 0%N = c) by congruence.
  exists (removelast (x :: l)). rewrite <- E.
  apply app_removelast_last. discriminate.
Qed.

Lemma prev_after_app (m : text) :
  forall (prev : option char) (rest : text),
    m <> [] -> prev_after prev (length m) (m ++ rest) = last_opt m.
Proof.
  induction m as [|x m IH]; intros prev rest Hm; [congruence|].
  simpl. destruct m as [|y m]; [reflexivity|].
  rewrite IH by discriminate. reflexivity.
Qed.

Section SubSteps.
Variable h : Header.
Variable re : pattern.
Hypothesis Hpre : pat_pre re = Lit (regex_prefix h).
Hypothesis Hne : forall g, lang (pat_grp re) g -> g <> [].

Let sub := sub_go type_lookbehind re (type_sub h).

Lemma type_match_sound (prev : option char) (s : text) (a b : nat) :
  match_at type_lookbehind re prev s = Some (a, b) ->
  exists bc g m2 s',
    prev = Some bc /\ is_type_boundary bc = true /\
    s = (regex_prefix h ++ g) ++ m2 ++ s' /\
    lang (pat_grp re) g /\ lang (pat_post re) m2 /\ g <> [] /\
    b = length (regex_prefix h ++ g) /\ slice s a b = g.
Proof.
  unfold match_at. destruct prev as [bc|]; simpl; [|discriminate].
  destruct (is_type_boundary bc) eqn:Bb; [|discriminate].
  intros H. apply match_here_sound in H.
  destruct H as (m0 & m1 & m2 & s' & E & L0 & L1 & L2 & -> & ->).
  rewrite Hpre in L0. simpl in L0. subst m0.
  exists bc, m1, m2, s'. rewrite <- app_assoc, length_app.
  repeat split; auto. rewrite E. apply slice_app.
Qed.

Lemma sub_go_nil (prev : option char) (skip : nat) : sub prev skip [] = [].
Proof.
  unfold sub. simpl. destruct skip; [|reflexivity].
  destruct (match_at type_lookbehind re prev []) as [[a b]|] eqn:E;
    [|reflexivity].
  apply type_match_sound in E.
  destruct E as (bc & g & m2 & s' & _ & _ & E & _ & _ & Hg & _).
  destruct (regex_prefix h); destruct g; try discriminate; congruence.
Qed.

Lemma sub_go_skip (s : text) :
  forall (prev : option char) (skip : nat),
    sub prev skip s = sub (prev_after prev skip s) 0 (skipn skip s).
Proof.
  induction s as [|c t IH]; intros prev skip.
  - rewrite skipn_nil, !sub_go_nil. reflexivity.
  - destruct skip as [|k]; [reflexivity|]. simpl. apply IH.
Qed.

Lemma sub_go_cons (prev : option char) (c : char) (t : text) :
  sub prev 0 (c :: t) =
  match match_at type_lookbehind re prev (c :: t) with
  | Some (a, b) =>
      type_sub h (slice (c :: t) a b) ++
      match b with
      | 0 => c :: sub (Some c) 0 t
      | S k => sub prev (S k) (c :: t)
      end
  | None => c :: sub (Some c) 0 t
  end.
Proof. reflexivity. Qed.

(** The type pass is a sequence of type edits. *)
Lemma sub_go_steps (n : nat) :
  forall (s done : text),
    length s <= n ->
    exists k,
      steps (type_edit h re) k (done ++ s)
            (done ++ sub (last_opt done) 0 s) /\
      (k = 0 -> sub (last_opt done) 0 s = s).
Proof.
  induction n as [|n IH]; intros s done Hlen.
  - destruct s; [|simpl in Hlen; lia]. rewrite sub_go_nil.
    exists 0. split; [apply steps_O | reflexivity].
  - destruct s as [|c t].
    { rewrite sub_go_nil. exists 0. split; [apply steps_O | reflexivity]. }
    simpl in Hlen.
    assert (Hstep : forall d, d = done ++ [c] ->
              exists k, steps (type_edit h re) k (done ++ c :: t)
                              (done ++ c :: sub (Some c) 0 t) /\
                        (k = 0 -> c :: sub (Some c) 0 t = c :: t)).
    { intros d Hd. destruct (IH t d ltac:(lia)) as (k & Hk & Hz).
      subst d. rewrite last_opt_app in Hk, Hz by discriminate.
      simpl in Hk, Hz. rewrite <- !app_assoc in Hk. simpl in Hk.
      exists k. split; [exact Hk|]. intros Hk0. rewrite Hz; auto. }
    rewrite sub_go_cons.
    destruct (match_at type_lookbehind re (last_opt done) (c :: t))
      as [[a b]|] eqn:E; [|apply (Hstep _ eq_refl)].
    apply type_match_sound in E.
    destruct E as (bc & g & m2 & s' & Hprev & Bb & E & Lg & L2 & Hg & -> & Sl).
    rewrite Sl.
    assert (Hmne : regex_prefix h ++ g <> []).
    { destruct (regex_prefix h); destruct g; try discriminate; congruence. }
    destruct (length (regex_prefix h ++ g)) as [|k] eqn:Hb.
    { destruct (regex_prefix h ++ g); [congruence | discriminate]. }
    rewrite sub_go_skip, <- Hb, E, prev_after_app by exact Hmne.
    rewrite skipn_app, skipn_all, Nat.sub_diag. simpl skipn. simpl app at 3.
    rewrite last_opt_app by exact Hg.
    apply last_opt_inv in Hprev. destruct Hprev as (a' & ->).
    destruct (IH (m2 ++ s') ((a' ++ [bc]) ++ type_sub h g)) as (j & Hj & _).
    { assert (length (c :: t) = S k + length (m2 ++ s')).
      { rewrite E, length_app, Hb. reflexivity. }
      simpl in H. lia. }
    unfold type_sub in *. rewrite (app_assoc _ (prefix h) g) in Hj.
    rewrite last_opt_app in Hj by exact Hg.
    exists (S j). split; [|discriminate].
    rewrite <- !app_assoc in *. simpl in *.
    eapply steps_S; [|exact Hj].
    exists a', bc, g, m2, s'.
    repeat split; auto.
Qed.

Lemma app_sep_split (b : char) (mw : text) :
  ~ In b mw ->
  forall pre X rest,
    mw ++ X = pre ++ b :: rest ->
    exists pre', pre = mw ++ pre' /\ X = pre' ++ b :: rest.
Proof.
  induction mw as [|x mw IH]; intros Hb pre X rest E.
  - exists pre. auto.
  - destruct pre as [|y pre]; simpl in E; inversion E; subst.
    + exfalso. apply Hb. left. reflexivity.
    + destruct (IH (fun H => Hb (or_intror H)) pre X rest H1)
        as (pre' & -> & ->).
      exists pre'. auto.
Qed.

(** A character that occurs in no match separates the substitution: the
    pass rewrites what precedes the character, copies it, and goes on
    behind it. *)
Lemma sub_go_sep (b : char) :
  (forall g, lang (pat_grp re) g -> ~ In b (regex_prefix h ++ g)) ->
  forall (n : nat) (pre : text),
    length pre <= n ->
    forall (prev : option char) (rest : text),
    exists out,
      sub prev 0 (pre ++ b :: rest) = out ++ b :: sub (Some b) 0 rest.
Proof.
  intros Hsep. induction n as [|n IH]; intros pre Hlen prev rest.
  - destruct pre; [|simpl in Hlen; lia]. simpl app.
    rewrite sub_go_cons.
    destruct (match_at type_lookbehind re prev (b :: rest))
      as [[a e]|] eqn:E; [|exists []; reflexivity].
    apply type_match_sound in E.
    destruct E as (bc & g & m2 & s' & _ & _ & E & Lg & _ & Hg & _).
    exfalso. apply (Hsep g Lg).
    destruct (regex_prefix h ++ g) as [|x mw] eqn:Em.
    + destruct (regex_prefix h); destruct g; try discriminate; congruence.
    + simpl in E. inversion E. left. reflexivity.
  - destruct pre as [|c t]; [apply (IH [] (Nat.le_0_l _))|].
    simpl in Hlen. simpl app. rewrite sub_go_cons.
    destruct (match_at type_lookbehind re prev (c :: t ++ b :: rest))
      as [[a e]|] eqn:E.
    + apply type_match_sound in E.
      destruct E as (bc & g & m2 & s' & _ & _ & E & Lg & _ & Hg & -> & Sl).
      rewrite Sl.
      assert (Hmne : regex_prefix h ++ g <> []).
      { destruct (regex_prefix h); destruct g; try discriminate; congruence. }
      destruct (length (regex_prefix h ++ g)) as [|k] eqn:Hb.
      { destruct (regex_prefix h ++ g); [congruence | discriminate]. }
      rewrite sub_go_skip, <- Hb.
      change (c :: t ++ b :: rest) with ((c :: t) ++ b :: rest) in E.
      destruct (app_sep_split b (regex_prefix h ++ g) (Hsep g Lg)
                  (c :: t) (m2 ++ s') rest (eq_sym E)) as (pre' & Ep & Ex).
      change (c :: t ++ b :: rest) with ((c :: t) ++ b :: rest).
      rewrite Ep, <- app_assoc.
      rewrite prev_after_app by exact Hmne.
      rewrite skipn_app, skipn_all, Nat.sub_diag. simpl skipn. simpl app at 2.
      destruct (IH pre') with (prev := last_opt (regex_prefix h ++ g))
                              (rest := rest) as (out & Hout).
      { assert (length (c :: t) = S k + length pre').
        { rewrite Ep, length_app, Hb. reflexivity. }
        simpl in H. lia. }
      change ([] ++ pre' ++ b :: rest) with (pre' ++ b :: rest).
      rewrite Hout. exists (type_sub h g ++ out).
      rewrite <- app_assoc. reflexivity.
    + destruct (IH t ltac:(lia) (Some c) rest) as (out & Hout).
      rewrite Hout. exists (c :: out). reflexivity.
Qed.

(** A match at the current position is replaced, and the pass goes on
    behind it. *)
Lemma sub_go_hit (prev : option char) (g rest : text) :
  type_lookbehind prev = true -> g <> [] ->
  match_suffixes re ((regex_prefix h ++ g) ++ rest) = Some (g ++ rest, rest) ->
  sub prev 0 ((regex_prefix h ++ g) ++ rest) =
  type_sub h g ++ sub (last_opt g) 0 rest.
Proof.
  intros Hlb Hg Hm.
  assert (Hmne : regex_prefix h ++ g <> []).
  { destruct (regex_prefix h); destruct g; try discriminate; congruence. }
  assert (Hat : match_at type_lookbehind re prev
                  ((regex_prefix h ++ g) ++ rest) =
                Some (length (regex_prefix h),
                      length (regex_prefix h ++ g))).
  { unfold match_at, match_here. rewrite Hlb, Hm.
    f_equal. f_equal; rewrite !length_app; lia. }
  destruct ((regex_prefix h ++ g) ++ rest) as [|c t] eqn:Es.
  { destruct (regex_prefix h ++ g); [congruence | discriminate]. }
  rewrite sub_go_cons, Hat, <- Es.
  replace (slice ((regex_prefix h ++ g) ++ rest) (length (regex_prefix h))
             (length (regex_prefix h ++ g))) with g.
  2:{ rewrite <- app_assoc, length_app. symmetry. apply slice_app. }
  f_equal.
  destruct (length (regex_prefix h ++ g)) as [|k] eqn:Hb.
  { destruct (regex_prefix h ++ g); [congruence | discriminate]. }
  rewrite sub_go_skip, <- Hb, prev_after_app by exact Hmne.
  rewrite skipn_app, skipn_all, Nat.sub_diag. simpl skipn. simpl app.
  rewrite last_opt_app by exact Hg. reflexivity.
Qed.

Lemma re_sub_steps (s : text) :
  exists k,
    steps (type_edit h re) k s (re_sub type_lookbehind re (type_sub h) s) /\
    (k = 0 -> re_sub type_lookbehind re (type_sub h) s = s).
Proof.
  destruct (sub_go_steps (length s) s [] (le_n _)) as (k & Hk & Hz).
  exists k. split; [exact Hk | exact Hz].
Qed.
End SubSteps.

(** *** The include step *)

Section ReplaceSteps.
Variables (x : char) (old' new : text).
Let old := x :: old'.

Lemma replace_go_skip (s : text) :
  forall skip,
    replace_go old new skip s = replace_go old new 0 (skipn skip s).
Proof.
  induction s as [|c t IH]; intros skip.
  - rewrite skipn_nil. reflexivity.
  - destruct skip as [|k]; [reflexivity|]. simpl. apply IH.
Qed.

Lemma replace_steps_aux (n : nat) :
  forall (s done : text),
    length s <= n ->
    exists k,
      steps (replace_edit old new) k (done ++ s)
            (done ++ replace old new s) /\
      (k = 0 -> replace old new s = s) /\
      (contains old s = true -> 0 < k).
Proof.
  unfold replace.
  induction n as [|n IH]; intros s done Hlen.
  - destruct s; [|simpl in Hlen; lia].
    exists 0. split; [apply steps_O|]. split; [reflexivity | discriminate].
  - destruct s as [|c t].
    { exists 0. split; [apply steps_O|]. split; [reflexivity | discriminate]. }
    simpl in Hlen.
    change (replace_go old new 0 (c :: t)) with
      (if starts_with old (c :: t)
       then new ++ replace_go old new (length old') t
       else c :: replace_go old new 0 t).
    change (contains old (c :: t)) with
      (starts_with old (c :: t) || contains old t).
    destruct (starts_with old (c :: t)) eqn:E.
    + apply starts_with_app in E. destruct E as (s' & E).
      assert (Hs' : t = old' ++ s') by (unfold old in E; simpl in E; congruence).
      rewrite replace_go_skip, Hs', skipn_app, skipn_all, Nat.sub_diag.
      simpl skipn. simpl app at 3.
      destruct (IH s' (done ++ new)) as (k & Hk & _).
      { rewrite Hs', length_app in Hlen. lia. }
      exists (S k). split; [|split; [discriminate | lia]].
      rewrite <- !app_assoc in Hk.
      eapply steps_S; [|exact Hk].
      exists done, s'. split; [rewrite <- Hs', E; reflexivity | reflexivity].
    + destruct (IH t (done ++ [c]) ltac:(lia)) as (k & Hk & Hz & Hc).
      rewrite <- !app_assoc in Hk. simpl in Hk.
      exists k. split; [exact Hk|]. split.
      * intros Hk0. rewrite Hz; auto.
      * simpl. exact Hc.
Qed.

(** [s.replace(old, new)] is a sequence of replacements, at least one when
    [old] occurs in [s]. *)
Lemma replace_steps (s : text) :
  exists k,
    steps (replace_edit old new) k s (replace old new s) /\
    (k = 0 -> replace old new s = s) /\
    (contains old s = true -> 0 < k).
Proof. apply (replace_steps_aux (length s) s [] (le_n _)). Qed.
End ReplaceSteps.

Lemma include_before_cons (h : Header) :
  include_before h = chr "#" :: tl (include_before h).
Proof. reflexivity. Qed.

Lemma include_step_steps (h : Header) (lines : text) (c : bool) :
  exists k,
    steps (include_edit h) k lines (fst (include_step h (lines, c))) /\
    snd (include_step h (lines, c)) = c || (0 <? k).
Proof.
  unfold include_step.
  destruct (contains (include_before h) lines) eqn:E.
  - rewrite include_before_cons in E |- *.
    destruct (replace_steps (chr "#") (tl (include_before h))
                (include_after h) lines) as (k & Hk & _ & Hc).
    exists k. simpl fst. simpl snd. split.
    + rewrite <- include_before_cons in Hk. exact Hk.
    + specialize (Hc E). destruct k; [lia|]. simpl. symmetry. apply orb_true_r.
  - exists 0. split; [apply steps_O | simpl; rewrite orb_false_r; reflexivity].
Qed.

(** *** One rule, and the whole table *)

Lemma nullable_complete (r : regex) : lang r [] -> nullable r = true.
Proof.
  induction r as [l|p|r1 IH1 r2 IH2|r1 IH1 r2 IH2|r1 IH1|p|p]; simpl.
  - intros <-. reflexivity.
  - intros (c & H & _). discriminate.
  - intros (m1 & m2 & E & L1 & L2). symmetry in E.
    apply app_eq_nil in E. destruct E as [-> ->].
    rewrite IH1, IH2 by assumption. reflexivity.
  - intros [L | L]; [rewrite IH1 by exact L | rewrite IH2 by exact L];
      [reflexivity | apply orb_true_r].
  - reflexivity.
  - reflexivity.
  - intros [H _]. congruence.
Qed.

Lemma headers_types_nonempty : forallb types_nonempty headers = true.
Proof. reflexivity. Qed.

Lemma type_regex_pre (h : Header) (re : pattern) :
  type_regex h = Some re -> pat_pre re = Lit (regex_prefix h).
Proof.
  unfold type_regex. destruct (type_regexes h); [discriminate|].
  intros H; inversion H; reflexivity.
Qed.

Lemma types_nonempty_lang (h : Header) (re : pattern) :
  types_nonempty h = true -> type_regex h = Some re ->
  forall g, lang (pat_grp re) g -> g <> [].
Proof.
  unfold types_nonempty. intros Hn E g L ->. rewrite E in Hn.
  apply nullable_complete in L. rewrite L in Hn. discriminate.
Qed.

Lemma type_edit_length (h : Header) (re : pattern) (l l' : text) :
  type_edit h re l l' ->
  length l' + length (regex_prefix h) = length l + length (prefix h).
Proof.
  intros (a & b & g & m2 & c & _ & _ & _ & -> & ->).
  repeat (rewrite ?length_app; simpl length). lia.
Qed.

Lemma type_steps_length (h : Header) (re : pattern) (k : nat) (l l' : text) :
  steps (type_edit h re) k l l' ->
  length l' + k * length (regex_prefix h) = length l + k * length (prefix h).
Proof.
  induction 1 as [l|k l1 l2 l3 H1 _ IH]; [lia|].
  apply type_edit_length in H1. lia.
Qed.

Lemma prefix_lengths (h : Header) :
  length (regex_prefix h) + length (prefix h) = 5 /\
  (length (regex_prefix h) = 0 \/ length (prefix h) = 0).
Proof. unfold regex_prefix, prefix. destruct (add_prefix h); simpl; lia. Qed.

Lemma type_step_steps (h : Header) (lines : text) (c : bool) :
  types_nonempty h = true ->
  exists k,
    steps (edit h) k lines (fst (type_step h (lines, c))) /\
    snd (type_step h (lines, c)) = c || (0 <? k).
Proof.
  intros Hn. unfold type_step.
  destruct (type_regex h) as [re|] eqn:E;
    [|exists 0; split; [apply steps_O | simpl; rewrite orb_false_r; reflexivity]].
  destruct (re_sub_steps h re (type_regex_pre h re E)
              (types_nonempty_lang h re Hn E) lines) as (k & Hk & Hz).
  exists k. simpl fst. simpl snd. split.
  - eapply steps_impl; [|exact Hk]. intros l l' H. right; right.
    exists re. auto.
  - apply type_steps_length in Hk.
    destruct (prefix_lengths h) as [H5 H0].
    destruct k as [|k].
    + rewrite Hz by reflexivity. rewrite Nat.eqb_refl, andb_false_r.
      simpl. rewrite orb_false_r. reflexivity.
    + replace (length lines =?
               length (re_sub type_lookbehind re (type_sub h) lines))
        with false by (symmetry; apply Nat.eqb_neq; nia).
      destruct c; reflexivity.
Qed.

Lemma func_step_steps (h : Header) (lines : text) (c : bool) :
  exists k,
    steps (edit h) k lines (fst (func_step h (lines, c))) /\
    snd (func_step h (lines, c)) = c || (0 <? k).
Proof.
  unfold func_step, func_regex.
  destruct (add_prefix h) eqn:Hap.
  - destruct (func_substitute_steps h lines Hap) as (k & Hk & Hc).
    destruct (func_substitute h (func_pattern h) lines) as [l' ch].
    simpl in *. exists k. split; [|rewrite Hc; reflexivity].
    eapply steps_impl; [|exact Hk]. intros l l2 H. right; left. auto.
  - unfold func_substitute. rewrite func_loop_remove_identity by exact Hap.
    exists 0. split; [apply steps_O | simpl; reflexivity].
Qed.

Lemma run_header_steps (h : Header) (lines : text) (c : bool) :
  types_nonempty h = true ->
  exists k,
    steps (edit h) k lines (fst (run_header (lines, c) h)) /\
    snd (run_header (lines, c) h) = c || (0 <? k).
Proof.
  intros Hn. unfold run_header.
  destruct (include_step_steps h lines c) as (k1 & H1 & C1).
  destruct (include_step h (lines, c)) as [l1 c1]. simpl in H1, C1.
  destruct (func_step_steps h l1 c1) as (k2 & H2 & C2).
  destruct (func_step h (l1, c1)) as [l2 c2]. simpl in H2, C2.
  destruct (type_step_steps h l2 c2 Hn) as (k3 & H3 & C3).
  exists (k1 + (k2 + k3)). split.
  - eapply steps_app; [|eapply steps_app; [exact H2 | exact H3]].
    eapply steps_impl; [|exact H1]. intros l l' H. left. exact H.
  - rewrite C3, C2, C1.
    destruct k1, k2, k3, c; reflexivity.
Qed.

Lemma run_with_steps (hs : list Header) :
  forallb types_nonempty hs = true ->
  forall (lines : text) (c : bool),
  exists k,
    steps (edit_of hs) k lines (fst (fold_left run_header hs (lines, c))) /\
    snd (fold_left run_header hs (lines, c)) = c || (0 <? k).
Proof.
  induction hs as [|h hs IH]; intros Hn lines c; simpl.
  - exists 0. split; [apply steps_O | rewrite orb_false_r; reflexivity].
  - simpl in Hn. apply andb_true_iff in Hn. destruct Hn as [Hh Hhs].
    destruct (run_header_steps h lines c Hh) as (k1 & H1 & C1).
    destruct (run_header (lines, c) h) as [l1 c1]. simpl in H1, C1.
    destruct (IH Hhs l1 c1) as (k2 & H2 & C2).
    exists (k1 + k2). split.
    + eapply steps_app.
      * eapply steps_impl; [|exact H1]. intros l l' H. exists h. simpl. auto.
      * eapply steps_impl; [|exact H2]. intros l l' (h' & Hin & H).
        exists h'. simpl. auto.
    + rewrite C2, C1. destruct k1, k2, c; reflexivity.
Qed.

(** [migrate] performs a number [k] of edits of the table and reports a
    change exactly when [k] is not zero. *)
Lemma migrate_steps (lines : text) :
  exists k,
    steps (edit_of headers) k lines (fst (migrate lines)) /\
    snd (migrate lines) = (0 <? k).
Proof.
  destruct (run_with_steps headers headers_types_nonempty lines false)
    as (k & Hk & Hc).
  exists k. split; [exact Hk | exact Hc].
Qed.

(** ** The [changed] flag, pass by pass *)

Lemma steps_zero (R : text -> text -> Prop) (l l' : text) :
  steps R 0 l l' -> l = l'.
Proof. intros H. inversion H. reflexivity. Qed.

Lemma text_eqb_refl (l : text) : text_eqb l l = true.
Proof. apply text_eqb_eq. reflexivity. Qed.

Lemma text_eqb_length (l l' : text) :
  length l <> length l' -> text_eqb l l' = false.
Proof.
  intros H. destruct (text_eqb l l') eqn:E; [|reflexivity].
  apply text_eqb_eq in E. subst. congruence.
Qed.

Lemma flag_of_steps (R : text -> text -> Prop) (k : nat) (l l' : text)
    (c flag : bool) :
  steps R k l l' -> flag = c || (0 <? k) ->
  (0 < k -> length l <> length l') ->
  flag = c || negb (text_eqb l l').
Proof.
  intros Hs -> Hlen. destruct k as [|k].
  - apply steps_zero in Hs. subst. rewrite text_eqb_refl. reflexivity.
  - rewrite text_eqb_length by (apply Hlen; lia). reflexivity.
Qed.

Lemma include_lengths (h : Header) :
  length (include_before h) = S (length (include_after h)) \/
  length (include_after h) = S (length (include_before h)).
Proof.
  unfold include_before, include_after.
  destruct (add_prefix h); repeat (rewrite ?length_app; simpl length); lia.
Qed.

Lemma include_steps_length (h : Header) (k : nat) (l l' : text) :
  steps (include_edit h) k l l' ->
  length l' + k * length (include_before h) =
  length l + k * length (include_after h).
Proof.
  induction 1 as [l|k l1 l2 l3 H1 _ IH]; [lia|].
  destruct H1 as (a & c & -> & ->).
  rewrite !length_app in *. lia.
Qed.

Lemma func_steps_length (h : Header) (k : nat) (l l' : text) :
  steps (func_edit h) k l l' -> length l' = length l + 5 * k.
Proof.
  induction 1 as [l|k l1 l2 l3 H1 _ IH]; [lia|].
  destruct H1 as (a & b & g & c & _ & _ & _ & -> & ->).
  rewrite IH. repeat (rewrite ?length_app; simpl length). lia.
Qed.

(** Each step of the loop body sets the flag exactly when it alters the
    text (and leaves a flag that is already set). *)
Lemma include_step_flag (h : Header) (l : text) (c : bool) :
  snd (include_step h (l, c)) =
  c || negb (text_eqb l (fst (include_step h (l, c)))).
Proof.
  destruct (include_step_steps h l c) as (k & Hk & Hc).
  eapply flag_of_steps; [exact Hk | exact Hc |].
  intros Hpos. apply include_steps_length in Hk.
  destruct (include_lengths h); nia.
Qed.

Lemma func_step_flag (h : Header) (l : text) (c : bool) :
  snd (func_step h (l, c)) =
  c || negb (text_eqb l (fst (func_step h (l, c)))).
Proof.
  unfold func_step, func_regex. destruct (add_prefix h) eqn:Hap.
  - destruct (func_substitute_steps h l Hap) as (k & Hk & Hc).
    destruct (func_substitute h (func_pattern h) l) as [l' ch].
    simpl in *.
    eapply flag_of_steps; [exact Hk | rewrite Hc; reflexivity |].
    intros Hpos. apply func_steps_length in Hk. lia.
  - unfold func_substitute. rewrite func_loop_remove_identity by exact Hap.
    simpl. rewrite text_eqb_refl. reflexivity.
Qed.

Lemma type_step_flag (h : Header) (l : text) (c : bool) :
  types_nonempty h = true ->
  snd (type_step h (l, c)) =
  c || negb (text_eqb l (fst (type_step h (l, c)))).
Proof.
  intros Hn. unfold type_step.
  destruct (type_regex h) as [re|] eqn:E;
    [|simpl; rewrite text_eqb_refl, orb_false_r; reflexivity].
  destruct (re_sub_steps h re (type_regex_pre h re E)
              (types_nonempty_lang h re Hn E) l) as (k & Hk & Hz).
  simpl fst. simpl snd.
  pose proof (type_steps_length h re k l _ Hk) as Hlen.
  destruct (prefix_lengths h) as [H5 H0].
  destruct k as [|k].
  - rewrite Hz by reflexivity.
    rewrite Nat.eqb_refl, andb_false_r, text_eqb_refl, orb_false_r.
    reflexivity.
  - assert (Hne : length l <>
                  length (re_sub type_lookbehind re (type_sub h) l)) by nia.
    rewrite text_eqb_length by exact Hne.
    apply Nat.eqb_neq in Hne. rewrite Hne. destruct c; reflexivity.
Qed.

Lemma run_with_passes (hs : list Header) (st : text * bool) :
  fold_left run_header hs st = apply_passes (flat_map passes_of hs) st.
Proof.
  revert st. induction hs as [|h hs IH]; intros st; [reflexivity|].
  simpl. rewrite IH. reflexivity.
Qed.

Lemma apply_passes_flag (ps : list (text * bool -> text * bool)) :
  Forall flag_correct ps ->
  forall l c, snd (apply_passes ps (l, c)) = c || altered ps (l, c).
Proof.
  induction 1 as [|f ps Hf _ IH]; intros l c; simpl.
  - rewrite orb_false_r. reflexivity.
  - specialize (Hf l c). destruct (f (l, c)) as [l1 c1] eqn:E.
    simpl in Hf. unfold apply_passes in IH. rewrite IH, Hf. simpl.
    rewrite orb_assoc. reflexivity.
Qed.

Lemma altered_false (ps : list (text * bool -> text * bool)) :
  forall st, altered ps st = false ->
             fst (apply_passes ps st) = fst st.
Proof.
  induction ps as [|f ps IH]; intros st H; [reflexivity|].
  simpl in H. apply orb_false_iff in H. destruct H as [H1 H2].
  apply negb_false_iff, text_eqb_eq in H1.
  simpl. unfold apply_passes in IH. rewrite IH by exact H2. congruence.
Qed.

Lemma passes_flag_correct : Forall flag_correct passes.
Proof.
  unfold passes.
  assert (H : forall hs, forallb types_nonempty hs = true ->
                         Forall flag_correct (flat_map passes_of hs)).
  { induction hs as [|h hs IH]; intros Hn; [constructor|].
    simpl in Hn. apply andb_true_iff in Hn. destruct Hn as [Hh Hhs].
    simpl. repeat constructor; try (apply IH, Hhs); intros l c.
    - apply include_step_flag.
    - apply func_step_flag.
    - apply type_step_flag, Hh. }
  apply H, headers_types_nonempty.
Qed.

(** [changed] is set exactly when some pass altered the text. *)
Lemma migrate_flag (lines : text) :
  snd (migrate lines) = altered passes (lines, false).
Proof.
  unfold migrate, run, run_with. rewrite run_with_passes.
  apply (apply_passes_flag passes passes_flag_correct lines false).
Qed.

Lemma migrate_unchanged (lines : text) :
  snd (migrate lines) = false -> fst (migrate lines) = lines.
Proof.
  rewrite migrate_flag. intros H.
  unfold migrate, run, run_with. rewrite run_with_passes.
  apply (altered_false passes (lines, false) H).
Qed.

(** ** The words of the table

    The type expressions of the table use no repetition, so each has a
    finite language that can be listed. *)

Lemma words_complete (r : regex) :
  star_free r = true -> forall m, lang r m -> In m (words r).
Proof.
  induction r as [l|p|r1 IH1 r2 IH2|r1 IH1 r2 IH2|r1 IH1|p|p]; simpl;
    intros Hs m L; try discriminate.
  - left. auto.
  - apply andb_true_iff in Hs. destruct Hs as [H1 H2].
    destruct L as (m1 & m2 & -> & L1 & L2).
    apply in_flat_map. exists m1. split; [apply IH1; auto|].
    apply in_map. apply IH2; auto.
  - apply andb_true_iff in Hs. destruct Hs as [H1 H2].
    apply in_or_app. destruct L; [left; apply IH1 | right; apply IH2]; auto.
  - destruct L as [-> | L]; [left; reflexivity | right; apply IH1; auto].
Qed.

Lemma headers_types_star_free : forallb types_star_free headers = true.
Proof. reflexivity. Qed.

Lemma type_words_complete (h : Header) (re : pattern) (g : text) :
  In h headers -> type_regex h = Some re -> lang (pat_grp re) g ->
  In g (type_words h).
Proof.
  intros Hin E L. unfold type_words. rewrite E.
  apply words_complete; [|exact L].
  pose proof headers_types_star_free as H.
  rewrite forallb_forall in H. specialize (H h Hin).
  unfold types_star_free in H. rewrite E in H. exact H.
Qed.

Lemma mem_In (g : text) (names : list text) :
  mem g names = true -> In g names.
Proof.
  unfold mem. intros H. apply existsb_exists in H.
  destruct H as (x & Hin & E). apply text_eqb_eq in E. subst. exact Hin.
Qed.

Lemma func_boundary_type_boundary (b : char) :
  is_func_boundary b = true -> is_type_boundary b = true.
Proof.
  unfold is_func_boundary, is_type_boundary.
  destruct (is_char "<" b), (is_char " " b), (is_char "," b), (is_char "(" b);
    simpl; congruence.
Qed.

Lemma in_flat_map_filter (A B : Type) (f : A -> list B) (p : A -> bool)
    (l : list A) (x : A) (y : B) :
  In x l -> p x = true -> In y (f x) -> In y (flat_map f (filter p l)).
Proof.
  intros Hx Hp Hy. apply in_flat_map. exists x. split; [|exact Hy].
  apply filter_In. auto.
Qed.

(** Every edit of the table is of one of the four kinds. *)
Lemma edit_of_kinds (l l' : text) :
  edit_of headers l l' ->
  deletion l l' \/ insertion l l' \/ include_removal l l' \/
  include_addition l l'.
Proof.
  intros (h & Hin & [H | [[Hap H] | (re & E & H)]]).
  - destruct H as (a & c & -> & ->).
    destruct (add_prefix h) eqn:Hap.
    + right; right; right. exists a, c, h. auto.
    + right; right; left. exists a, c, h. auto.
  - destruct H as (a & b & g & c & Bb & Hm & _ & -> & ->).
    right; left. exists a, b, (g ++ chr "(" :: c).
    split; [apply func_boundary_type_boundary, Bb|].
    split; [|split; reflexivity].
    left. exists g, c. split; [|reflexivity].
    apply (in_flat_map_filter _ _ func_names add_prefix headers h g Hin Hap).
    apply mem_In, Hm.
  - destruct H as (a & b & g & m2 & c & Bb & Lg & _ & -> & ->).
    pose proof (type_words_complete h re g Hin E Lg) as Hg.
    unfold prefix, regex_prefix. destruct (add_prefix h) eqn:Hap.
    + right; left. exists a, b, (g ++ m2 ++ c). simpl.
      split; [exact Bb|]. split; [|split; reflexivity].
      right. exists g, (m2 ++ c). split; [|reflexivity].
      apply (in_flat_map_filter _ _ type_words add_prefix headers h g Hin Hap Hg).
    + left. exists a, b, g, (m2 ++ c). simpl.
      split; [exact Bb|]. split; [|split; reflexivity].
      apply (in_flat_map_filter _ _ type_words (fun h => negb (add_prefix h))
               headers h g Hin); [rewrite Hap; reflexivity | exact Hg].
Qed.

(** ** Measures on texts

    Four quantities tell the four kinds of edit apart; each kind moves its
    own quantity in one direction and leaves the earlier ones alone. *)

Lemma count_char_app (c : char) (l m : text) :
  count_char c (l ++ m) = count_char c l + count_char c m.
Proof. unfold count_char. rewrite filter_app, length_app. reflexivity. Qed.

Lemma starts_with_sep (b : char) (p : text) :
  ~ In b p ->
  forall a r, starts_with p (a ++ b :: r) = starts_with p (a ++ [b]).
Proof.
  induction p as [|x p IH]; intros Hb a r; [reflexivity|].
  destruct a as [|y a]; simpl.
  - destruct (char_eqb x b) eqn:E; [|reflexivity].
    apply char_eqb_eq in E. subst. exfalso. apply Hb. left. reflexivity.
  - rewrite IH; [reflexivity|]. intros H. apply Hb. right. exact H.
Qed.

(** A character that occurs in no pattern separates the count. *)
Lemma occ_sep (b : char) (ps : list text) :
  Forall (fun p => ~ In b p /\ p <> []) ps ->
  forall a r, occ ps (a ++ b :: r) = occ ps (a ++ [b]) + occ ps r.
Proof.
  intros Hps.
  assert (Hex : forall a r,
             existsb (fun p => starts_with p (a ++ b :: r)) ps =
             existsb (fun p => starts_with p (a ++ [b])) ps).
  { intros a r. induction Hps as [|p ps [Hp _] _ IH]; [reflexivity|].
    simpl. rewrite IH, (starts_with_sep b p Hp a r). reflexivity. }
  assert (Hb : existsb (fun p => starts_with p [b]) ps = false).
  { clear Hex. induction Hps as [|p ps [Hp Hne] _ IH]; [reflexivity|].
    simpl. rewrite IH, orb_false_r.
    destruct p as [|x p]; [congruence|]. simpl.
    destruct (char_eqb x b) eqn:E; [|reflexivity].
    apply char_eqb_eq in E. subst. exfalso. apply Hp. left. reflexivity. }
  induction a as [|y a IH]; intros r.
  - pose proof (Hex [] r) as H0. simpl in H0. simpl. rewrite H0, Hb.
    reflexivity.
  - change (occ ps ((y :: a) ++ b :: r)) with
      ((if existsb (fun p => starts_with p ((y :: a) ++ b :: r)) ps
        then 1 else 0) + occ ps (a ++ b :: r)).
    change (occ ps ((y :: a) ++ [b])) with
      ((if existsb (fun p => starts_with p ((y :: a) ++ [b])) ps
        then 1 else 0) + occ ps (a ++ [b])).
    rewrite Hex, IH. lia.
Qed.

Lemma type_boundary_cases (b : char) :
  is_type_boundary b = true ->
  b = chr "<" \/ b = chr " " \/ b = chr "," \/ b = chr "(".
Proof.
  unfold is_type_boundary, is_char. intros H.
  repeat (apply orb_true_iff in H; destruct H as [H | H]);
    apply char_eqb_eq in H; auto.
Qed.

Lemma deletable_sep (b : char) :
  is_type_boundary b = true ->
  Forall (fun p => ~ In b p /\ p <> []) deletable.
Proof.
  intros H. apply type_boundary_cases in H.
  destruct H as [-> | [-> | [-> | ->]]];
    repeat constructor; try discriminate;
    simpl; intros H; repeat (destruct H as [H | H]; [discriminate|]); exact H.
Qed.

Lemma mismatch_starts_with (p g : text) :
  mismatch p g = true -> forall c, starts_with p (g ++ c) = false.
Proof.
  revert g. induction p as [|x p IH]; intros [|y g] H c; try discriminate.
  simpl in *. destruct (char_eqb x y); [apply IH, H | reflexivity].
Qed.

Lemma starts_with_extend (p g : text) :
  starts_with p g = true -> forall c, starts_with p (g ++ c) = true.
Proof.
  revert g. induction p as [|x p IH]; intros g H c; [reflexivity|].
  destruct g as [|y g]; [discriminate|]. simpl in *.
  apply andb_true_iff in H. destruct H as [-> H]. apply IH, H.
Qed.

Lemma occ_deletable_std (T : text) :
  occ deletable (str "std::" ++ T) =
  (if deletable_head T then 1 else 0) + occ deletable T.
Proof. vm_compute. reflexivity. Qed.

(** *** Deletions *)

Lemma deleted_types_heads :
  forallb deletable_head deleted_types = true.
Proof. vm_compute. reflexivity. Qed.

Lemma deletable_head_extend (g c : text) :
  deletable_head g = true -> deletable_head (g ++ c) = true.
Proof.
  unfold deletable_head. intros H. apply existsb_exists in H.
  destruct H as (p & Hp & H). apply existsb_exists. exists p.
  split; [exact Hp | apply starts_with_extend, H].
Qed.

Lemma deletion_occ (l l' : text) :
  deletion l l' -> occ deletable l = S (occ deletable l').
Proof.
  intros (a & b & g & c & Bb & Hg & -> & ->).
  rewrite (occ_sep b deletable (deletable_sep b Bb) a (str "std::" ++ g ++ c)).
  rewrite (occ_sep b deletable (deletable_sep b Bb) a (g ++ c)).
  rewrite occ_deletable_std, deletable_head_extend; [lia|].
  pose proof deleted_types_heads as H. rewrite forallb_forall in H.
  apply H, Hg.
Qed.

(** *** Insertions *)

Lemma no_deletable_head_extend (g c : text) :
  no_deletable_head g = true -> deletable_head (g ++ c) = false.
Proof.
  unfold no_deletable_head, deletable_head. intros H.
  rewrite forallb_forall in H.
  destruct (existsb _ deletable_heads) eqn:E; [|reflexivity].
  apply existsb_exists in E. destruct E as (p & Hp & E).
  rewrite (mismatch_starts_with p g (H p Hp) c) in E. discriminate.
Qed.

Lemma inserted_names_heads :
  forallb (fun g => no_deletable_head (g ++ [chr "("])) inserted_names = true.
Proof. vm_compute. reflexivity. Qed.

Lemma inserted_types_heads :
  forallb no_deletable_head inserted_types = true.
Proof. vm_compute. reflexivity. Qed.

Lemma insert_token_head (T : text) :
  insert_token T -> deletable_head T = false.
Proof.
  intros [(g & c & Hg & ->) | (g & c & Hg & ->)].
  - change (g ++ chr "(" :: c) with (g ++ [chr "("] ++ c).
    rewrite app_assoc. apply no_deletable_head_extend.
    pose proof inserted_names_heads as H. rewrite forallb_forall in H.
    apply H, Hg.
  - apply no_deletable_head_extend.
    pose proof inserted_types_heads as H. rewrite forallb_forall in H.
    apply H, Hg.
Qed.

Lemma insertion_occ (l l' : text) :
  insertion l l' -> occ deletable l' = occ deletable l.
Proof.
  intros (a & b & T & Bb & HT & -> & ->).
  rewrite (occ_sep b deletable (deletable_sep b Bb) a (str "std::" ++ T)).
  rewrite (occ_sep b deletable (deletable_sep b Bb) a T).
  rewrite occ_deletable_std, (insert_token_head T HT). reflexivity.
Qed.

Lemma insertion_colons (l l' : text) :
  insertion l l' -> count_char colon l' = count_char colon l + 2.
Proof.
  intros (a & b & T & _ & _ & -> & ->).
  change (b :: str "std::" ++ T) with ([b] ++ str "std::" ++ T).
  change (b :: T) with ([b] ++ T).
  rewrite !count_char_app.
  change (count_char colon (str "std::")) with 2.
  lia.
Qed.

(** *** Include edits *)

Lemma settled_existsb (ps : list text) (v c : text) :
  settled ps v = true ->
  existsb (fun p => starts_with p (v ++ c)) ps =
  existsb (fun p => starts_with p v) ps.
Proof.
  unfold settled. induction ps as [|p ps IH]; intros H; [reflexivity|].
  simpl in *. apply andb_true_iff in H. destruct H as [Hp Hps].
  rewrite (IH Hps). f_equal.
  apply orb_true_iff in Hp. destruct Hp as [Hp | Hp].
  - rewrite (mismatch_starts_with p v Hp c).
    pose proof (mismatch_starts_with p v Hp []) as H0.
    rewrite app_nil_r in H0. rewrite H0. reflexivity.
  - rewrite Hp. apply starts_with_extend, Hp.
Qed.

Lemma occ_app_settled (ps : list text) (u : text) :
  all_settled ps u = true ->
  forall c, occ ps (u ++ c) = occ ps u + occ ps c.
Proof.
  induction u as [|x u IH]; intros H c; [reflexivity|].
  simpl in H. apply andb_true_iff in H. destruct H as [Hx Hu].
  change (occ ps ((x :: u) ++ c)) with
    ((if existsb (fun p => starts_with p ((x :: u) ++ c)) ps then 1 else 0)
     + occ ps (u ++ c)).
  change (occ ps (x :: u)) with
    ((if existsb (fun p => starts_with p (x :: u)) ps then 1 else 0)
     + occ ps u).
  rewrite (settled_existsb ps (x :: u) c Hx), (IH Hu c). lia.
Qed.

Lemma hash_sep_deletable : Forall (fun p => ~ In hash p /\ p <> []) deletable.
Proof.
  repeat constructor; try discriminate;
    simpl; intros H; repeat (destruct H as [H | H]; [discriminate|]); exact H.
Qed.

Lemma hash_sep_removable : Forall (fun p => ~ In hash p /\ p <> []) removable.
Proof.
  repeat constructor; try discriminate;
    simpl; intros H; repeat (destruct H as [H | H]; [discriminate|]); exact H.
Qed.

Lemma headers_include_check : forallb include_check headers = true.
Proof. vm_compute. reflexivity. Qed.

Lemma include_after_cons (h : Header) :
  include_after h = hash :: tl (include_after h).
Proof. reflexivity. Qed.

Lemma include_addition_length (h : Header) :
  add_prefix h = true ->
  length (include_before h) = S (length (include_after h)).
Proof.
  intros Hap. unfold include_before, include_after. rewrite Hap.
  repeat (rewrite ?length_app; simpl length). lia.
Qed.

Ltac split_andb :=
  repeat match goal with
         | E : _ && _ = true |- _ => apply andb_true_iff in E; destruct E
         end;
  repeat match goal with
         | E : (_ =? _) = true |- _ => apply Nat.eqb_eq in E
         end.

Section IncludeMeasures.
Variable h : Header.
Hypothesis Hin : In h headers.
Variables a c : text.

Let l := a ++ include_before h ++ c.
Let l' := a ++ include_after h ++ c.

Lemma include_check_h : include_check h = true.
Proof.
  pose proof headers_include_check as H. rewrite forallb_forall in H.
  apply H, Hin.
Qed.

Lemma occ_include (ps : list text) (w : text) :
  Forall (fun p => ~ In hash p /\ p <> []) ps ->
  all_settled ps w = true ->
  occ ps (a ++ (hash :: w) ++ c) =
  occ ps (a ++ [hash]) + occ ps w + occ ps c.
Proof.
  intros Hps Hw. simpl.
  rewrite (occ_sep hash ps Hps a (w ++ c)), (occ_app_settled ps w Hw c).
  lia.
Qed.

Lemma include_occ_deletable : occ deletable l' = occ deletable l.
Proof.
  pose proof include_check_h as H. unfold include_check in H.
  split_andb.
  unfold l, l'.
  rewrite (include_before_cons h), (include_after_cons h).
  fold hash.
  rewrite !occ_include by (assumption || apply hash_sep_deletable).
  lia.
Qed.

Lemma include_colons : count_char colon l' = count_char colon l.
Proof.
  pose proof include_check_h as H. unfold include_check in H.
  split_andb.
  unfold l, l'.
  rewrite (include_before_cons h), (include_after_cons h).
  change (chr "#" :: tl (include_before h))
    with ([hash] ++ tl (include_before h)).
  change (hash :: tl (include_after h))
    with ([hash] ++ tl (include_after h)).
  rewrite !count_char_app.
  lia.
Qed.

Lemma include_removal_occ :
  add_prefix h = false -> occ removable l = S (occ removable l').
Proof.
  intros Hap.
  pose proof include_check_h as H. unfold include_check in H.
  rewrite Hap in H.
  split_andb.
  unfold l, l'.
  rewrite (include_before_cons h), (include_after_cons h).
  fold hash.
  rewrite !occ_include by (assumption || apply hash_sep_removable).
  lia.
Qed.

Lemma include_addition_occ :
  add_prefix h = true ->
  occ removable l' = occ removable l /\ length l = S (length l').
Proof.
  intros Hap.
  pose proof include_check_h as H. unfold include_check in H.
  rewrite Hap in H.
  split_andb.
  unfold l, l'.
  split.
  - rewrite (include_before_cons h), (include_after_cons h).
    fold hash.
    rewrite !occ_include by (assumption || apply hash_sep_removable).
    lia.
  - pose proof (include_addition_length h Hap). rewrite !length_app. lia.
Qed.
End IncludeMeasures.

(** *** No sequence of edits returns to its starting point *)

Section Peel.
Variable M : text -> Z.
Variables Ra Rb : text -> text -> Prop.
Hypothesis Ha : forall l l', Ra l l' -> (M l' < M l)%Z.
Hypothesis Hb : forall l l', Rb l l' -> M l' = M l.

(** Along edits that never raise [M], an unchanged [M] rules out the
    edits that lower it. *)
Lemma peel (k : nat) (l l' : text) :
  steps (fun x y => Ra x y \/ Rb x y) k l l' ->
  (M l' <= M l)%Z /\ (M l' = M l -> steps Rb k l l').
Proof.
  induction 1 as [l|k l1 l2 l3 H1 _ [IHle IHeq]].
  - split; [lia | intros _; apply steps_O].
  - destruct H1 as [H1 | H1].
    + apply Ha in H1. split; [lia | intros E; lia].
    + pose proof (Hb _ _ H1) as E1. split; [lia|].
      intros E. eapply steps_S; [exact H1 | apply IHeq; lia].
Qed.
End Peel.

Lemma include_removal_measures (l l' : text) :
  include_removal l l' ->
  occ deletable l' = occ deletable l /\
  count_char colon l' = count_char colon l /\
  occ removable l = S (occ removable l').
Proof.
  intros (a & c & h & Hin & Hap & -> & ->).
  split; [apply include_occ_deletable, Hin|].
  split; [apply include_colons, Hin | apply include_removal_occ; assumption].
Qed.

Lemma include_addition_measures (l l' : text) :
  include_addition l l' ->
  occ deletable l' = occ deletable l /\
  count_char colon l' = count_char colon l /\
  occ removable l' = occ removable l /\
  length l = S (length l').
Proof.
  intros (a & c & h & Hin & Hap & -> & ->).
  split; [apply include_occ_deletable, Hin|].
  split; [apply include_colons, Hin | apply include_addition_occ; assumption].
Qed.

Lemma include_addition_steps (k : nat) (l l' : text) :
  steps include_addition k l l' -> length l = length l' + k.
Proof.
  induction 1 as [l|k l1 l2 l3 H1 _ IH]; [lia|].
  apply include_addition_measures in H1. lia.
Qed.

(** Edits of the table never lead back to the text they started from. *)
Lemma edits_alter (k : nat) (l l' : text) :
  steps (edit_of headers) k l l' -> l = l' -> k = 0.
Proof.
  intros H E. subst l'.
  apply (steps_impl _ _ edit_of_kinds) in H.
  apply (peel (fun t => Z.of_nat (occ deletable t))) in H.
  - destruct H as [_ H]. specialize (H eq_refl).
    apply (peel (fun t => (- Z.of_nat (count_char colon t))%Z)) in H.
    + destruct H as [_ H]. specialize (H eq_refl).
      apply (peel (fun t => Z.of_nat (occ removable t))) in H.
      * destruct H as [_ H]. specialize (H eq_refl).
        apply include_addition_steps in H. lia.
      * intros x y Hx. apply include_removal_measures in Hx. lia.
      * intros x y Hx. apply include_addition_measures in Hx.
        destruct Hx as (_ & _ & Hx & _). rewrite Hx. reflexivity.
    + intros x y Hx. apply insertion_colons in Hx. lia.
    + intros x y [Hx | Hx];
        [apply include_removal_measures in Hx
        | apply include_addition_measures in Hx];
        destruct Hx as (_ & Hx & _); rewrite Hx; reflexivity.
  - intros x y Hx. apply deletion_occ in Hx. lia.
  - intros x y [Hx | [Hx | Hx]].
    + apply insertion_occ in Hx. rewrite Hx. reflexivity.
    + apply include_removal_measures in Hx. destruct Hx as (Hx & _).
      rewrite Hx. reflexivity.
    + apply include_addition_measures in Hx. destruct Hx as (Hx & _).
      rewrite Hx. reflexivity.
Qed.

Lemma migrate_changed (lines : text) :
  snd (migrate lines) = true -> fst (migrate lines) <> lines.
Proof.
  destruct (migrate_steps lines) as (k & Hk & Hc).
  rewrite Hc. intros Hpos E. symmetry in E.
  apply (edits_alter k _ _ Hk) in E. subst k. discriminate.
Qed.

(** ** The analyzer wrapper *)

Lemma skip_not_found_spec (lines : list text) :
  forall acc r,
    skip_not_found lines acc = Some r ->
    r = acc ++ spec_drop_not_found lines.
Proof.
  induction lines as [lines IH] using (well_founded_induction
    (Wf_nat.well_founded_ltof _ (@length text))).
  intros acc r H. destruct lines as [|l rest]; simpl in *.
  - inversion H. rewrite app_nil_r. reflexivity.
  - destruct (contains not_found_marker l).
    + destruct rest as [|l1 [|l2 rest']]; try discriminate.
      apply IH in H; [exact H|]. unfold ltof. simpl. lia.
    + apply IH in H; [|unfold ltof; simpl; lia].
      rewrite H, <- app_assoc. reflexivity.
Qed.

(** Whenever the wrapper returns, it returns pass exactly when the filters
    leave no line, and prints the remaining lines under the banner
    otherwise. *)
Lemma run_standalone_returned (name : text) (proc : CompletedProcess)
    (v : bool) (p : option text) :
  run_standalone name proc = Returned v p ->
  match spec_filtered (stdout proc) with
  | [] => v = true /\ p = None
  | ls => v = false /\ p = Some (banner name ls)
  end.
Proof.
  unfold run_standalone, spec_filtered.
  destruct (skip_not_found (prefiltered (stdout proc)) []) as [r|] eqn:E;
    [|discriminate].
  apply skip_not_found_spec in E. simpl in E. subst r.
  destruct (spec_drop_not_found (prefiltered (stdout proc)));
    intros H; inversion H; auto.
Qed.

(** A file-not-found diagnostic that fewer than two lines follow makes the
    loop raise, whatever was collected before. *)
Lemma skip_not_found_raises (before : list text) (l : text)
    (rest : list text) :
  forallb (fun x => negb (contains not_found_marker x)) before = true ->
  contains not_found_marker l = true -> length rest < 2 ->
  forall acc, skip_not_found (before ++ l :: rest) acc = None.
Proof.
  intros Hb Hl Hr. induction before as [|x before IH]; intros acc.
  - simpl. rewrite Hl. destruct rest as [|r1 [|r2 rest]];
      [reflexivity | reflexivity | simpl in Hr; lia].
  - simpl in Hb. apply andb_true_iff in Hb. destruct Hb as [Hx Hb].
    apply negb_true_iff in Hx. simpl. rewrite Hx. apply IH, Hb.
Qed.

(** The exit code is not consulted. *)
Lemma run_standalone_exit_code (name out : text) (rc1 rc2 : Z) :
  run_standalone name (mkCompleted rc1 out) =
  run_standalone name (mkCompleted rc2 out).
Proof. reflexivity. Qed.

(** ** Occurrences that survive an edit *)

Lemma starts_with_short (w p r : text) :
  starts_with w (p ++ r) = true -> length w <= length p ->
  starts_with w p = true.
Proof.
  revert p. induction w as [|x w IH]; intros p H Hlen; [reflexivity|].
  destruct p as [|y p]; [simpl in Hlen; lia|].
  simpl in *. apply andb_true_iff in H. destruct H as [-> H].
  apply IH; [exact H | lia].
Qed.

Lemma starts_with_split (w t r : text) :
  starts_with w (t ++ r) = true -> length t < length w ->
  exists w2, w = t ++ w2 /\ w2 <> [] /\ starts_with w2 r = true.
Proof.
  revert w. induction t as [|y t IH]; intros w H Hlen.
  - exists w. split; [reflexivity|]. split; [|exact H].
    destruct w; [simpl in Hlen; lia | discriminate].
  - destruct w as [|x w]; [simpl in Hlen; lia|].
    simpl in *. apply andb_true_iff in H. destruct H as [E H].
    apply char_eqb_eq in E. subst y.
    destruct (IH w H ltac:(lia)) as (w2 & -> & Hne & Hs).
    exists w2. auto.
Qed.

Lemma occurrences_cons (w : text) (x : char) (l : text) :
  occurrences w (x :: l) =
  (if starts_with w (x :: l) then 1 else 0) + occurrences w l.
Proof. reflexivity. Qed.

Lemma contains_occurrences (w l : text) :
  contains w l = true <-> 0 < occurrences w l.
Proof.
  induction l as [|x l IH].
  - simpl. rewrite orb_false_r. destruct (starts_with w []); split;
      intros H; try reflexivity; try discriminate; simpl in *; lia.
  - rewrite occurrences_cons.
    change (contains w (x :: l)) with (starts_with w (x :: l) || contains w l).
    destruct (starts_with w (x :: l)); simpl.
    + split; [lia | reflexivity].
    + exact IH.
Qed.

Lemma occurrences_le_app (w v c : text) :
  occurrences w c <= occurrences w (v ++ c).
Proof.
  induction v as [|x v IH]; [apply le_n|].
  change ((x :: v) ++ c) with (x :: v ++ c). rewrite occurrences_cons. lia.
Qed.

Lemma occurrences_skip (w u c : text) :
  (forall j, j < length u -> starts_with w (skipn j u ++ c) = false) ->
  occurrences w (u ++ c) = occurrences w c.
Proof.
  induction u as [|x u IH]; intros Hu; [reflexivity|].
  change ((x :: u) ++ c) with (x :: u ++ c). rewrite occurrences_cons.
  pose proof (Hu 0 ltac:(simpl; lia)) as H0. simpl skipn in H0.
  change ((x :: u) ++ c) with (x :: u ++ c) in H0. rewrite H0.
  apply IH. intros j Hj. apply (Hu (S j)). simpl. lia.
Qed.

Lemma occurrences_app_mono (w r1 r2 a : text) :
  (forall a' t, a = a' ++ t -> t <> [] ->
                starts_with w (t ++ r1) = true ->
                starts_with w (t ++ r2) = true) ->
  occurrences w r1 <= occurrences w r2 ->
  occurrences w (a ++ r1) <= occurrences w (a ++ r2).
Proof.
  induction a as [|x a IH]; intros Ha Hr; [exact Hr|].
  change ((x :: a) ++ r1) with (x :: a ++ r1).
  change ((x :: a) ++ r2) with (x :: a ++ r2).
  rewrite !occurrences_cons.
  assert (IH' : occurrences w (a ++ r1) <= occurrences w (a ++ r2)).
  { apply IH; [|exact Hr]. intros a' t E. apply (Ha (x :: a')).
    rewrite E. reflexivity. }
  destruct (starts_with w (x :: a ++ r1)) eqn:E1.
  - pose proof (Ha [] (x :: a) eq_refl ltac:(discriminate) E1) as E2.
    change ((x :: a) ++ r2) with (x :: a ++ r2) in E2. rewrite E2. lia.
  - destruct (starts_with w (x :: a ++ r2)); lia.
Qed.

(** No occurrence of [w] is lost when [u] is replaced by [v] between [a]
    and [c], provided that [w] can neither begin inside [u] nor reach into
    [u] from the left. *)
Lemma occurrences_survive (w a u v c : text) :
  (forall a' t w2, a = a' ++ t -> w = t ++ w2 -> t <> [] -> w2 <> [] ->
                   starts_with w2 (u ++ c) = false) ->
  (forall j, j < length u -> starts_with w (skipn j u ++ c) = false) ->
  occurrences w (a ++ u ++ c) <= occurrences w (a ++ v ++ c).
Proof.
  intros Hleft Hin. apply occurrences_app_mono.
  - intros a' t Ea Ht H.
    destruct (le_lt_dec (length w) (length t)) as [Hs | Hl].
    + apply starts_with_short in H; [|exact Hs].
      apply starts_with_extend, H.
    + exfalso. apply starts_with_split in H; [|exact Hl].
      destruct H as (w2 & Hw & Hne & Hs).
      rewrite (Hleft a' t w2 Ea Hw Ht Hne) in Hs. discriminate.
  - rewrite (occurrences_skip w u c Hin). apply occurrences_le_app.
Qed.

(** ** The passes as data *)

Lemma passes_all_passes : passes = map run_pass all_passes.
Proof. reflexivity. Qed.

Lemma all_passes_headers (p : pass) : In p all_passes -> In (fst p) headers.
Proof.
  unfold all_passes. intros H. apply in_flat_map in H.
  destruct H as (h & Hh & [<- | [<- | [<- | []]]]); exact Hh.
Qed.

Lemma run_pass_steps (p : pass) (l : text) (c : bool) :
  types_nonempty (fst p) = true ->
  exists k, steps (pass_edit p) k l (fst (run_pass p (l, c))).
Proof.
  destruct p as [h [| |]]; unfold run_pass, pass_edit; simpl; intros Hn.
  - destruct (include_step_steps h l c) as (k & Hk & _). exists k. exact Hk.
  - unfold func_step, func_regex. destruct (add_prefix h) eqn:Hap.
    + destruct (func_substitute_steps h l Hap) as (k & Hk & _).
      destruct (func_substitute h (func_pattern h) l) as [l' ch].
      exists k. eapply steps_impl; [|exact Hk]. intros x y H. auto.
    + unfold func_substitute. rewrite func_loop_remove_identity by exact Hap.
      exists 0. apply steps_O.
  - unfold type_step. destruct (type_regex h) as [re|] eqn:E;
      [|exists 0; apply steps_O].
    destruct (re_sub_steps h re (type_regex_pre h re E)
                (types_nonempty_lang h re Hn E) l) as (k & Hk & _).
    exists k. eapply steps_impl; [|exact Hk]. intros x y H.
    exists re. auto.
Qed.

(** *** A decision procedure for surviving occurrences *)

Lemma in_splits (t w2 : text) :
  t <> [] -> w2 <> [] -> In (t, w2) (splits (t ++ w2)).
Proof.
  induction t as [|x t IH]; intros Ht Hw; [congruence|].
  destruct t as [|y t].
  - simpl. destruct w2; [congruence|]. left. reflexivity.
  - change (splits ((x :: y :: t) ++ w2)) with
      (([x], (y :: t) ++ w2) ::
       map (fun tw => (x :: fst tw, snd tw)) (splits ((y :: t) ++ w2))).
    right. apply in_map_iff. exists (y :: t, w2). split; [reflexivity|].
    apply IH; [discriminate | exact Hw].
Qed.

Lemma check_left_sound (ok : text -> bool) (pats : list text)
    (t w2 P c : text) :
  check_left ok pats (t ++ w2) = true ->
  t <> [] -> w2 <> [] -> ok t = true -> In P pats ->
  starts_with w2 (P ++ c) = false.
Proof.
  unfold check_left. intros H Ht Hw Hok HP.
  rewrite forallb_forall in H. specialize (H _ (in_splits t w2 Ht Hw)).
  simpl in H. rewrite Hok in H. simpl in H.
  rewrite forallb_forall in H.
  apply mismatch_starts_with, H, HP.
Qed.

Lemma check_in_sound (n : nat) (pats : list text) (w P c : text) (j : nat) :
  check_in n pats w = true -> In P pats -> j < n -> j <= length P ->
  starts_with w (skipn j (P ++ c)) = false.
Proof.
  unfold check_in. intros H HP Hj Hlen.
  rewrite forallb_forall in H. specialize (H P HP).
  rewrite forallb_forall in H.
  assert (Hin : In j (seq 0 n)) by (apply in_seq; lia).
  specialize (H j Hin).
  rewrite skipn_app. replace (j - length P) with 0 by lia. simpl.
  apply mismatch_starts_with, H.
Qed.

Lemma last_of_suffix (a0 a' t : text) (b : char) :
  a0 ++ [b] = a' ++ t -> t <> [] -> after_boundary t = is_type_boundary b.
Proof.
  intros E Ht. unfold after_boundary.
  rewrite <- (last_app_ne a' t 0%N Ht), <- E, last_last. reflexivity.
Qed.

(** An occurrence of a word that passes the check survives every edit of
    the pass. *)
Lemma pass_robust_sound (p : pass) (w l l' : text) :
  In (fst p) headers -> pass_robust p w = true -> pass_edit p l l' ->
  occurrences w l <= occurrences w l'.
Proof.
  destruct p as [h [| |]]; unfold pass_robust, pass_edit; cbn [fst snd];
    intros Hh Hr He.
  - destruct He as (a & c & -> & ->).
    apply andb_true_iff in Hr. destruct Hr as [Hl Hi].
    apply occurrences_survive.
    + intros a' t w2 _ -> Ht Hw.
      apply (check_left_sound (fun _ => true) [include_before h] t w2); auto.
      left. reflexivity.
    + intros j Hj.
      pose proof (check_in_sound _ [include_before h] w (include_before h)
                    c j Hi (or_introl eq_refl) Hj ltac:(lia)) as H.
      rewrite skipn_app in H.
      replace (j - length (include_before h)) with 0 in H by lia.
      exact H.
  - destruct He as (Hap & a0 & b & g & c0 & Bb & Hm & _ & -> & ->).
    rewrite Hap in Hr. simpl in Hr.
    apply func_boundary_type_boundary in Bb.
    change (a0 ++ b :: g ++ chr "(" :: c0)
      with (a0 ++ [b] ++ [] ++ g ++ chr "(" :: c0).
    change (a0 ++ b :: str "std::" ++ g ++ chr "(" :: c0)
      with (a0 ++ [b] ++ str "std::" ++ g ++ chr "(" :: c0).
    rewrite !(app_assoc a0).
    apply occurrences_survive; [|simpl; intros j Hj; lia].
    intros a' t w2 Ea -> Ht Hw.
    change ([] ++ g ++ chr "(" :: c0) with (g ++ [chr "("] ++ c0).
    rewrite app_assoc.
    apply (check_left_sound after_boundary
             (map (fun g => g ++ [chr "("]) (func_names h)) t w2); auto.
    + rewrite (last_of_suffix a0 a' t b Ea Ht). exact Bb.
    + apply in_map_iff. exists g. split; [reflexivity | apply mem_In, Hm].
  - destruct He as (re & E & a0 & b & g & m2 & c0 & Bb & Lg & _ & -> & ->).
    pose proof (type_words_complete h re g Hh E Lg) as Hg.
    unfold regex_prefix, prefix. destruct (add_prefix h) eqn:Hap.
    + change (a0 ++ b :: str "" ++ g ++ m2 ++ c0)
   with (a0 ++ [b] ++ [] ++ g ++ m2 ++ c0).
 change (a0 ++ b :: str "std::" ++ g ++ m2 ++ c0)
   with (a0 ++ [b] ++ str "std::" ++ g ++ m2 ++ c0).
 rewrite !(app_assoc a0).
      apply occurrences_survive; [|simpl; intros j Hj; lia].
      intros a' t w2 Ea -> Ht Hw. simpl app at 1.
      apply (check_left_sound after_boundary (type_words h) t w2); auto.
      rewrite (last_of_suffix a0 a' t b Ea Ht). exact Bb.
    + apply andb_true_iff in Hr. destruct Hr as [Hl Hi].
      change (a0 ++ b :: str "std::" ++ g ++ m2 ++ c0)
        with (a0 ++ [b] ++ str "std::" ++ g ++ m2 ++ c0).
      change (a0 ++ b :: str "" ++ g ++ m2 ++ c0)
        with (a0 ++ [b] ++ [] ++ g ++ m2 ++ c0).
      rewrite !(app_assoc a0).
      assert (Hin : In (str "std::" ++ g)
                       (map (app (str "std::")) (type_words h))).
      { apply in_map_iff. exists g. auto. }
      apply occurrences_survive.
      * intros a' t w2 Ea -> Ht Hw.
        rewrite (app_assoc (str "std::") g).
        apply (check_left_sound after_boundary
                 (map (app (str "std::")) (type_words h)) t w2); auto.
        rewrite (last_of_suffix a0 a' t b Ea Ht). exact Bb.
      * intros j Hj. simpl length in Hj.
        pose proof (check_in_sound 5 _ w (str "std::" ++ g) (m2 ++ c0) j
                      Hi Hin Hj) as H.
        rewrite length_app in H. simpl length in H.
        specialize (H ltac:(lia)).
        rewrite <- app_assoc in H. rewrite skipn_app in H.
        simpl length in H.
        replace (j - 5) with 0 in H by lia. exact H.
Qed.

Lemma run_passes_app (ps qs : list pass) (st : text * bool) :
  run_passes (ps ++ qs) st = run_passes qs (run_passes ps st).
Proof. apply fold_left_app. Qed.

Lemma migrate_run_passes (lines : text) :
  migrate lines = run_passes all_passes (lines, false).
Proof.
  unfold migrate, run, run_with. rewrite run_with_passes.
  fold passes. rewrite passes_all_passes.
  unfold apply_passes, run_passes.
  generalize (lines, false). induction all_passes as [|p ps IH]; intros st.
  - reflexivity.
  - simpl. apply IH.
Qed.

Lemma steps_monotone (R : text -> text -> Prop) (f : text -> nat) :
  (forall l l', R l l' -> f l <= f l') ->
  forall k l l', steps R k l l' -> f l <= f l'.
Proof.
  intros HR k l l' H. induction H as [l|k l1 l2 l3 H1 _ IH]; [lia|].
  apply HR in H1. lia.
Qed.

Lemma headers_nonempty (p : pass) :
  In (fst p) headers -> types_nonempty (fst p) = true.
Proof.
  pose proof headers_types_nonempty as H. rewrite forallb_forall in H.
  apply H.
Qed.

Lemma run_pass_count (w : text) (p : pass) (l : text) (c : bool) :
  In (fst p) headers -> survives p w ->
  occurrences w l <= occurrences w (fst (run_pass p (l, c))).
Proof.
  intros Hh Hs.
  destruct (run_pass_steps p l c (headers_nonempty p Hh)) as (k & Hk).
  apply (steps_monotone (pass_edit p) (occurrences w) Hs k _ _ Hk).
Qed.

(** Passes that lose no occurrence of [w], one after the other. *)
Lemma run_passes_count (w : text) (ps : list pass) :
  (forall p, In p ps -> In (fst p) headers /\ survives p w) ->
  forall st, occurrences w (fst st) <=
             occurrences w (fst (run_passes ps st)).
Proof.
  induction ps as [|p ps IH]; intros Hps st; [apply le_n|].
  simpl. destruct st as [l c].
  destruct (Hps p (or_introl eq_refl)) as [Hh Hs].
  pose proof (run_pass_count w p l c Hh Hs) as H1.
  pose proof (IH (fun q Hq => Hps q (or_intror Hq)) (run_pass p (l, c))) as H2.
  simpl fst at 1. lia.
Qed.

Lemma run_passes_survive (w : text) (ps : list pass) :
  (forall p, In p ps -> In (fst p) headers /\ survives p w) ->
  forall st, contains w (fst st) = true ->
             contains w (fst (run_passes ps st)) = true.
Proof.
  intros Hps st Hc. apply contains_occurrences in Hc.
  apply contains_occurrences.
  pose proof (run_passes_count w ps Hps st). lia.
Qed.

(** A word that passes the check of every pass of [ps] occurs in the
    output of [ps] whenever it occurs in the input. *)
Lemma run_passes_preserve (w : text) (ps : list pass) :
  (forall p, In p ps -> In (fst p) headers) ->
  passes_robust ps w = true ->
  forall st, contains w (fst st) = true ->
             contains w (fst (run_passes ps st)) = true.
Proof.
  intros Hh Hr. apply run_passes_survive. intros p Hp.
  split; [apply Hh, Hp|]. intros l l'.
  apply pass_robust_sound; [apply Hh, Hp|].
  unfold passes_robust in Hr. rewrite forallb_forall in Hr. apply Hr, Hp.
Qed.

Lemma firstn_all_passes (n : nat) (p : pass) :
  In p (firstn n all_passes) -> In (fst p) headers.
Proof.
  intros H. apply all_passes_headers.
  rewrite <- (firstn_skipn n all_passes). apply in_or_app. left. exact H.
Qed.

Lemma skipn_all_passes (n : nat) (p : pass) :
  In p (skipn n all_passes) -> In (fst p) headers.
Proof.
  intros H. apply all_passes_headers.
  rewrite <- (firstn_skipn n all_passes). apply in_or_app. right. exact H.
Qed.

(** [migrate] loses no occurrence of a word that no pass can touch. *)
Lemma migrate_count (w lines : text) :
  passes_robust all_passes w = true ->
  occurrences w lines <= occurrences w (fst (migrate lines)).
Proof.
  intros Hr. rewrite migrate_run_passes.
  apply (run_passes_count w all_passes) with (st := (lines, false)).
  intros p Hp. split; [apply all_passes_headers, Hp|]. intros l l'.
  apply pass_robust_sound; [apply all_passes_headers, Hp|].
  unfold passes_robust in Hr. rewrite forallb_forall in Hr. apply Hr, Hp.
Qed.

(** A word that no pass can touch occurs in the output of [migrate]
    whenever it occurs in the input. *)
Lemma migrate_preserves (w lines : text) :
  passes_robust all_passes w = true ->
  contains w lines = true -> contains w (fst (migrate lines)) = true.
Proof.
  intros Hr Hc. rewrite migrate_run_passes.
  apply (run_passes_preserve w all_passes all_passes_headers Hr (lines, false)).
  exact Hc.
Qed.

(** A word [w] that no pass before the [n]-th can touch, that the [n]-th
    pass turns into [w'], and [w'] that no later pass can touch: [w'] occurs
    in the output of [migrate] whenever [w] occurs in the input. *)
Lemma migrate_rewrites (n : nat) (p : pass) (w w' lines : text) :
  nth_error all_passes n = Some p ->
  passes_robust (firstn n all_passes) w = true ->
  (forall l c, contains w l = true ->
               contains w' (fst (run_pass p (l, c))) = true) ->
  passes_robust (skipn (S n) all_passes) w' = true ->
  contains w lines = true -> contains w' (fst (migrate lines)) = true.
Proof.
  intros Hn Hbefore Hp Hafter Hc.
  rewrite migrate_run_passes.
  assert (E : all_passes =
              firstn n all_passes ++ [p] ++ skipn (S n) all_passes).
  { rewrite <- (firstn_skipn n all_passes) at 1. f_equal.
    clear -Hn. revert n Hn. generalize all_passes as l.
    induction l as [|x l IH]; intros [|n] Hn; simpl in *; try discriminate.
    - inversion Hn. reflexivity.
    - apply IH, Hn. }
  rewrite E, !run_passes_app.
  apply (run_passes_preserve w' _ (skipn_all_passes (S n)) Hafter).
  pose proof (run_passes_preserve w _ (firstn_all_passes n) Hbefore
                (lines, false) Hc) as H1.
  destruct (run_passes (firstn n all_passes) (lines, false)) as [l1 c1].
  simpl. apply Hp. exact H1.
Qed.

(** *** An occurrence that the type pass rewrites *)

Lemma sep_ok_sound (h : Header) (re : pattern) (b : char) :
  In h headers -> type_regex h = Some re -> sep_ok h b = true ->
  forall g, lang (pat_grp re) g -> ~ In b (regex_prefix h ++ g).
Proof.
  intros Hh E Hs g Lg Hin. unfold sep_ok in Hs. rewrite forallb_forall in Hs.
  specialize (Hs g (type_words_complete h re g Hh E Lg)).
  apply negb_true_iff in Hs.
  assert (Hex : existsb (char_eqb b) (regex_prefix h ++ g) = true).
  { apply existsb_exists. exists b. split; [exact Hin | apply char_eqb_refl]. }
  congruence.
Qed.

Lemma headers_nonempty_lang (h : Header) (re : pattern) :
  In h headers -> type_regex h = Some re ->
  forall g, lang (pat_grp re) g -> g <> [].
Proof.
  intros Hh E. apply (types_nonempty_lang h re); [|exact E].
  pose proof headers_types_nonempty as H. rewrite forallb_forall in H.
  apply H, Hh.
Qed.

(** Behind a boundary character that occurs in no type name of the rule, a
    type name that the expression matches is rewritten, whatever precedes
    the boundary character. *)
Lemma type_pass_hit (h : Header) (re : pattern) (b : char) (g tail l : text) :
  In h headers -> type_regex h = Some re ->
  is_type_boundary b = true -> sep_ok h b = true -> g <> [] ->
  (forall y, match_suffixes re ((regex_prefix h ++ g) ++ tail ++ y) =
             Some (g ++ tail ++ y, tail ++ y)) ->
  (forall y, exists out',
      sub_go type_lookbehind re (type_sub h) (last_opt g) 0 (tail ++ y) =
      tail ++ out') ->
  contains (b :: regex_prefix h ++ g ++ tail) l = true ->
  contains (b :: prefix h ++ g ++ tail)
           (re_sub type_lookbehind re (type_sub h) l) = true.
Proof.
  intros Hh E Bb Hs Hg Hm Ht Hc.
  apply contains_app in Hc. destruct Hc as (x & y & ->).
  pose proof (type_regex_pre h re E) as Hpre.
  pose proof (headers_nonempty_lang h re Hh E) as Hne.
  destruct (sub_go_sep h re Hpre Hne b (sep_ok_sound h re b Hh E Hs)
              (length x) x (le_n _) None
              ((regex_prefix h ++ g) ++ tail ++ y)) as (out & Hout).
  destruct (Ht y) as (out' & Hout').
  apply contains_app. exists out, out'.
  unfold re_sub.
  replace (x ++ (b :: regex_prefix h ++ g ++ tail) ++ y)
    with (x ++ b :: (regex_prefix h ++ g) ++ tail ++ y)
    by (simpl; rewrite <- !app_assoc; reflexivity).
  rewrite Hout.
  rewrite (sub_go_hit h re Hpre Hne (Some b) g (tail ++ y) Bb Hg (Hm y)).
  rewrite Hout'. unfold type_sub. simpl. rewrite <- !app_assoc. reflexivity.
Qed.

Lemma rule_In (n : string) :
  existsb (fun h => text_eqb (name h) (str n)) headers = true ->
  In (rule n) headers.
Proof.
  unfold rule. intros H.
  destruct (find (fun h => text_eqb (name h) (str n)) headers) as [h|] eqn:E.
  - apply find_some in E. apply E.
  - apply existsb_exists in H. destruct H as (h & Hh & Hn).
    rewrite (find_none _ _ E h Hh) in Hn. discriminate.
Qed.

Lemma steps_last (R : text -> text -> Prop) (k : nat) (l l' : text) :
  steps R (S k) l l' -> exists m, R m l'.
Proof.
  revert l. induction k as [|k IH]; intros l H; inversion H; subst.
  - match goal with H2 : steps R 0 _ _ |- _ => inversion H2; subst end.
    eexists; eassumption.
  - eapply IH; eassumption.
Qed.

(** The include step leaves an occurrence of the new directive when the
    old one occurs. *)
Lemma include_step_contains (h : Header) (l : text) (c : bool) :
  contains (include_before h) l = true ->
  contains (include_after h) (fst (include_step h (l, c))) = true /\
  snd (include_step h (l, c)) = true.
Proof.
  intros Hc. unfold include_step. rewrite Hc. simpl. split; [|reflexivity].
  rewrite include_before_cons in Hc |- *.
  destruct (replace_steps (chr "#") (tl (include_before h))
              (include_after h) l) as (k & Hk & _ & Hpos).
  specialize (Hpos Hc). destruct k as [|k]; [lia|].
  apply steps_last in Hk. destruct Hk as (m & a & y & _ & ->).
  apply contains_app. exists a, y. reflexivity.
Qed.

(** *** The words of the examples *)

Lemma stdio_include_rewritten (lines : text) :
  contains (str "#include <stdio.h>") lines = true ->
  contains (str "#include <cstdio>") (fst (migrate lines)) = true.
Proof.
  apply (migrate_rewrites 33 (rule "stdio", PInclude)); try reflexivity.
  intros l c H. apply (include_step_contains (rule "stdio") l c H).
Qed.

Lemma stdio_FILE_rewritten (lines : text) :
  contains (str " FILE *") lines = true ->
  contains (str " std::FILE *") (fst (migrate lines)) = true.
Proof.
  apply (migrate_rewrites 35 (rule "stdio", PType)); try reflexivity.
  intros l c H. unfold run_pass, type_step. cbn [fst snd].
  destruct (type_regex (rule "stdio")) as [re|] eqn:E; [|discriminate].
  cbn [fst].
  apply (type_pass_hit (rule "stdio") re (chr " ") (str "FILE") (str " *"));
    try reflexivity; try discriminate; try exact H; try exact E.
  - apply rule_In. reflexivity.
  - intros y. vm_compute in E. inversion E. reflexivity.
  - intros y. vm_compute in E. inversion E. eexists. cbn. reflexivity.
Qed.


(** *** Call sites of functions that no rule owns *)

Lemma is_lower_lower_digit (x : char) :
  is_lower x = true -> is_lower_digit x = true.
Proof. unfold is_lower_digit. intros ->. reflexivity. Qed.

Lemma lower_digit_facts (x : char) :
  is_lower_digit x = true ->
  is_type_boundary x = false /\ char_eqb x (chr "(") = false /\
  char_eqb (chr "(") x = false /\ char_eqb x hash = false.
Proof.
  unfold is_lower_digit, is_lower, is_digit, is_type_boundary, is_char,
    char_eqb, hash, chr. simpl N_of_ascii. intros H.
  apply orb_true_iff in H. rewrite !andb_true_iff, !N.leb_le in H.
  repeat split; repeat (apply orb_false_iff; split); apply N.eqb_neq; lia.
Qed.

Lemma is_identifier_word (ident : text) :
  is_identifier ident = true ->
  Forall (fun x => is_lower_digit x = true) ident.
Proof.
  destruct ident as [|c m]; [discriminate|]. simpl. intros H.
  apply andb_true_iff in H. destruct H as [Hc Hm].
  constructor; [apply is_lower_lower_digit, Hc|].
  apply Forall_forall. rewrite forallb_forall in Hm. exact Hm.
Qed.

Lemma lang_word (h : Header) (g : text) :
  lang (pat_grp (func_pattern h)) g ->
  Forall (fun x => is_lower_digit x = true) g.
Proof.
  intros L. apply lang_func_grp in L. destruct L as (c & m & -> & Hc & Hm).
  constructor; [apply is_lower_lower_digit, Hc | exact Hm].
Qed.

Lemma prefix_of_snoc (t w2 ident : text) (x : char) :
  t ++ w2 = ident ++ [x] -> w2 <> [] -> exists r, ident = t ++ r.
Proof.
  revert ident. induction t as [|y t IH]; intros ident E Hw.
  - exists ident. reflexivity.
  - destruct ident as [|z ident].
    + simpl in E. inversion E. destruct t; destruct w2; try discriminate.
      congruence.
    + simpl in E. inversion E. subst z.
      destruct (IH ident H1 Hw) as (r & ->). exists r. reflexivity.
Qed.

(** The only cut of a call site behind a boundary character is the one
    behind its first character. *)
Lemma call_split (b : char) (ident t w2 : text) :
  call_site b ident = t ++ w2 -> t <> [] -> w2 <> [] ->
  Forall (fun x => is_lower_digit x = true) ident ->
  after_boundary t = true ->
  t = [b] /\ w2 = ident ++ [chr "("].
Proof.
  unfold call_site. intros E Ht Hw Hid Hb.
  destruct t as [|x t]; [congruence|]. simpl in E. inversion E. subst x.
  destruct t as [|y t]; [auto|]. exfalso.
  symmetry in H1. destruct (prefix_of_snoc (y :: t) w2 ident _ H1 Hw) as (r & Hr).
  unfold after_boundary in Hb.
  assert (Hin : In (last (b :: y :: t) 0%N) ident).
  { rewrite Hr. apply in_or_app. left.
    change (b :: y :: t) with ([b] ++ y :: t).
    rewrite last_app_ne by discriminate.
    destruct (exists_last (l := y :: t) ltac:(discriminate)) as (t' & z & Ez).
    rewrite Ez, last_last. apply in_or_app. right. left. reflexivity. }
  rewrite Forall_forall in Hid. apply Hid, lower_digit_facts in Hin.
  destruct Hin as [Hin _]. congruence.
Qed.

Lemma not_call_word_sound (ident : text) :
  Forall (fun x => is_lower_digit x = true) ident ->
  forall P rest, not_call_word P = true ->
                 starts_with (ident ++ [chr "("]) (P ++ rest) = false.
Proof.
  induction 1 as [|x ident Hx _ IH]; intros P rest HP;
    (destruct P as [|y P]; [discriminate|]);
    cbn [app starts_with not_call_word] in *.
  - destruct (is_lower_digit y) eqn:Hy.
    + apply lower_digit_facts in Hy. destruct Hy as (_ & _ & -> & _).
      reflexivity.
    + apply negb_true_iff in HP. unfold is_char in HP. rewrite HP.
      reflexivity.
  - destruct (char_eqb x y) eqn:E; [|reflexivity].
    apply char_eqb_eq in E. subst y. rewrite Hx in HP.
    cbn [andb]. apply IH, HP.
Qed.

Lemma word_prefix_eq (ident : text) :
  Forall (fun x => is_lower_digit x = true) ident ->
  forall g c0,
    Forall (fun x => is_lower_digit x = true) g ->
    starts_with (ident ++ [chr "("]) (g ++ chr "(" :: c0) = true ->
    ident = g.
Proof.
  induction 1 as [|x ident Hx _ IH]; intros g c0 Hg H.
  - destruct g as [|y g]; [reflexivity|].
    cbn [app starts_with] in H.
    inversion Hg; subst. apply lower_digit_facts in H2.
    destruct H2 as (_ & _ & E & _).
    rewrite E in H. discriminate.
  - destruct g as [|y g]; cbn [app starts_with] in H.
    + apply lower_digit_facts in Hx. destruct Hx as (_ & E & _).
      rewrite E in H. discriminate.
    + apply andb_true_iff in H. destruct H as [E H].
      apply char_eqb_eq in E. subst y. inversion Hg; subst.
      f_equal. apply (IH g c0); assumption.
Qed.

Lemma headers_include_call_ok : forallb include_call_ok headers = true.
Proof. vm_compute. reflexivity. Qed.

Lemma headers_types_not_call : forallb types_not_call headers = true.
Proof. vm_compute. reflexivity. Qed.

Lemma func_boundary_cases (b : char) :
  is_func_boundary b = true -> b = chr " " \/ b = chr "," \/ b = chr "(".
Proof.
  unfold is_func_boundary, is_char. intros H.
  repeat (apply orb_true_iff in H; destruct H as [H | H]);
    apply char_eqb_eq in H; auto.
Qed.

Section CallSite.
Variables (b : char) (ident : text).
Hypothesis Bb : is_func_boundary b = true.
Hypothesis Hid : is_identifier ident = true.
Hypothesis Hun : unowned ident = true.

Let w := call_site b ident.

Lemma call_word : Forall (fun x => is_lower_digit x = true) ident.
Proof. apply is_identifier_word, Hid. Qed.

Lemma call_tail_head (t w2 : text) (z : char) :
  w = t ++ z :: w2 -> t <> [] -> char_eqb z hash = false.
Proof.
  intros E Ht.
  destruct t as [|x t]; [congruence|]. unfold w, call_site in E.
  cbn [app] in E. injection E as _ H1.
  assert (Hin : In z (ident ++ [chr "("])).
  { change (chr "(") with 40%N. rewrite H1.
    apply in_or_app. right. left. reflexivity. }
  apply in_app_or in Hin. destruct Hin as [Hin | [<- | []]].
  - pose proof call_word as Hword.
    rewrite Forall_forall in Hword. apply Hword, lower_digit_facts in Hin.
    destruct Hin as (_ & _ & _ & ->). reflexivity.
  - reflexivity.
Qed.

Lemma call_survives_include (h : Header) :
  In h headers -> survives (h, PInclude) w.
Proof.
  unfold survives, pass_edit. cbn [fst snd].
  intros Hh l l' (a & c & -> & ->). apply occurrences_survive.
  - intros a' t w2 _ E Ht Hw.
    destruct w2 as [|z w2]; [congruence|].
    rewrite include_before_cons. fold hash.
    cbn [app starts_with].
    rewrite (call_tail_head t w2 z E Ht). reflexivity.
  - intros j Hj.
    pose proof headers_include_call_ok as Hok.
    rewrite forallb_forall in Hok. specialize (Hok h Hh).
    unfold include_call_ok in Hok. rewrite forallb_forall in Hok.
    assert (Hj' : In j (seq 0 (length (include_before h))))
      by (apply in_seq; lia).
    specialize (Hok j Hj').
    unfold w, call_site.
    destruct ident as [|c0 m]; [discriminate|].
    pose proof Hid as Hid'. simpl in Hid'.
    apply andb_true_iff in Hid'. destruct Hid' as [Hc0 _].
    destruct (skipn j (include_before h)) as [|x [|y r]] eqn:Es;
      cbn [app starts_with].
    + apply (f_equal (@length char)) in Es.
      rewrite length_skipn in Es. change (length (@nil char)) with 0 in Es.
      lia.
    + destruct (char_eqb b x) eqn:E; [|reflexivity].
      apply char_eqb_eq in E. subst x. rewrite Bb in Hok. discriminate.
    + destruct (char_eqb b x) eqn:E; [|reflexivity].
      destruct (char_eqb c0 y) eqn:E'; [|reflexivity].
      apply char_eqb_eq in E, E'. subst x y.
      rewrite Bb, Hc0 in Hok. discriminate.
Qed.

Lemma call_survives_func (h : Header) :
  In h headers -> survives (h, PFunc) w.
Proof.
  unfold survives, pass_edit. cbn [fst snd].
  intros Hh l l' [Hap (a0 & b' & g & c0 & Bb' & Hm & Lg & -> & ->)].
  apply func_boundary_type_boundary in Bb'.
  change (a0 ++ b' :: g ++ chr "(" :: c0)
    with (a0 ++ [b'] ++ [] ++ g ++ chr "(" :: c0).
  change (a0 ++ b' :: str "std::" ++ g ++ chr "(" :: c0)
    with (a0 ++ [b'] ++ str "std::" ++ g ++ chr "(" :: c0).
  rewrite !(app_assoc a0).
  apply occurrences_survive; [|simpl; intros j Hj; lia].
  intros a' t w2 Ea E Ht Hw.
  destruct (call_split b ident t w2 E Ht Hw call_word) as [_ ->].
  { rewrite (last_of_suffix a0 a' t b' Ea Ht). exact Bb'. }
  cbn [app].
  destruct (starts_with (ident ++ [chr "("]) (g ++ chr "(" :: c0)) eqn:Es;
    [|reflexivity].
  apply (word_prefix_eq ident call_word g c0 (lang_word h g Lg)) in Es.
  subst g. unfold unowned in Hun. rewrite forallb_forall in Hun.
  specialize (Hun h Hh). rewrite Hm in Hun. discriminate.
Qed.

Lemma call_survives_type (h : Header) :
  In h headers -> survives (h, PType) w.
Proof.
  unfold survives, pass_edit. cbn [fst snd].
  intros Hh l l' (re & E & a0 & b' & g & m2 & c0 & Bb' & Lg & _ & -> & ->).
  pose proof (type_words_complete h re g Hh E Lg) as Hg.
  pose proof headers_types_not_call as Hnc.
  rewrite forallb_forall in Hnc. specialize (Hnc h Hh).
  unfold types_not_call in Hnc. rewrite forallb_forall in Hnc.
  specialize (Hnc g Hg).
  unfold regex_prefix, prefix. destruct (add_prefix h) eqn:Hap.
  - change (a0 ++ b' :: str "" ++ g ++ m2 ++ c0)
   with (a0 ++ [b'] ++ [] ++ g ++ m2 ++ c0).
 change (a0 ++ b' :: str "std::" ++ g ++ m2 ++ c0)
   with (a0 ++ [b'] ++ str "std::" ++ g ++ m2 ++ c0).
 rewrite !(app_assoc a0).
    apply occurrences_survive; [|simpl; intros j Hj; lia].
    intros a' t w2 Ea Ew Ht Hw.
    destruct (call_split b ident t w2 Ew Ht Hw call_word) as [_ ->].
    { rewrite (last_of_suffix a0 a' t b' Ea Ht). exact Bb'. }
    cbn [app]. apply (not_call_word_sound ident call_word g), Hnc.
  - change (a0 ++ b' :: str "std::" ++ g ++ m2 ++ c0)
   with (a0 ++ [b'] ++ str "std::" ++ g ++ m2 ++ c0).
 change (a0 ++ b' :: str "" ++ g ++ m2 ++ c0)
   with (a0 ++ [b'] ++ [] ++ g ++ m2 ++ c0).
 rewrite !(app_assoc a0).
    apply occurrences_survive.
    + intros a' t w2 Ea Ew Ht Hw.
      destruct (call_split b ident t w2 Ew Ht Hw call_word) as [_ ->].
      { rewrite (last_of_suffix a0 a' t b' Ea Ht). exact Bb'. }
      rewrite (app_assoc (str "std::") g).
      apply (not_call_word_sound ident call_word (str "std::" ++ g)).
      reflexivity.
    + intros j Hj. unfold w, call_site.
      destruct (func_boundary_cases b Bb) as [-> | [-> | ->]];
        do 5 (destruct j as [|j]; [reflexivity|]); simpl in Hj; lia.
Qed.

(** No edit of any pass touches the call site of an unowned function. *)
Lemma call_survives (p : pass) : In p all_passes -> survives p w.
Proof.
  intros Hp. pose proof (all_passes_headers p Hp) as Hh.
  destruct p as [h [| |]]; simpl in Hh.
  - apply call_survives_include, Hh.
  - apply call_survives_func, Hh.
  - apply call_survives_type, Hh.
Qed.
End CallSite.

(** *** The include directives of the table *)

Lemma all_passes_include (hs : list Header) :
  forall i h,
    nth_error hs i = Some h ->
    nth_error (flat_map passes_of_header hs) (3 * i) = Some (h, PInclude).
Proof.
  induction hs as [|x hs IH]; intros [|i] h H; simpl in H; try discriminate.
  - inversion H. reflexivity.
  - replace (3 * S i) with (S (S (S (3 * i)))) by lia. simpl.
    apply IH, H.
Qed.

Lemma run_pass_flag_set (p : pass) (l : text) :
  In p all_passes -> snd (run_pass p (l, true)) = true.
Proof.
  intros Hp. pose proof passes_flag_correct as H.
  rewrite passes_all_passes in H. rewrite Forall_forall in H.
  apply (H (run_pass p) (in_map run_pass _ _ Hp) l true).
Qed.

Lemma run_passes_flag_set (ps : list pass) :
  (forall p, In p ps -> In p all_passes) ->
  forall l, snd (run_passes ps (l, true)) = true.
Proof.
  induction ps as [|p ps IH]; intros Hps l; [reflexivity|].
  simpl. pose proof (run_pass_flag_set p l (Hps p (or_introl eq_refl))) as H.
  destruct (run_pass p (l, true)) as [l1 c1]. simpl in H. subst c1.
  apply IH. intros q Hq. apply Hps. right. exact Hq.
Qed.

Lemma headers_include_robust :
  forallb include_robust (seq 0 (length headers)) = true.
Proof. vm_compute. reflexivity. Qed.

(** An old directive of the table in the input becomes the new directive
    in the output of [migrate], and the change is reported. *)
Lemma include_rewritten (h : Header) (lines : text) :
  In h headers ->
  contains (include_before h) lines = true ->
  contains (include_after h) (fst (migrate lines)) = true /\
  snd (migrate lines) = true.
Proof.
  intros Hh Hc. apply In_nth_error in Hh. destruct Hh as (i & Hi).
  assert (Hlt : i < length headers) by (apply nth_error_Some; congruence).
  pose proof headers_include_robust as Hr. rewrite forallb_forall in Hr.
  specialize (Hr i ltac:(apply in_seq; lia)).
  unfold include_robust in Hr. rewrite Hi in Hr.
  apply andb_true_iff in Hr. destruct Hr as [Hb Ha].
  pose proof (all_passes_include headers i h Hi) as Hn.
  fold all_passes in Hn.
  split.
  - apply (migrate_rewrites (3 * i) (h, PInclude) (include_before h));
      try assumption.
    intros l c H. apply (include_step_contains h l c H).
  - rewrite migrate_run_passes.
    assert (E : all_passes =
                firstn (3 * i) all_passes ++ [(h, PInclude)] ++
                skipn (S (3 * i)) all_passes).
    { rewrite <- (firstn_skipn (3 * i) all_passes) at 1. f_equal.
      clear -Hn. revert Hn. generalize (3 * i) as n.
      generalize all_passes as l.
      induction l as [|x l IH]; intros [|n] Hn; simpl in *; try discriminate.
      - inversion Hn. reflexivity.
      - apply IH, Hn. }
    rewrite E, !run_passes_app.
    pose proof (run_passes_preserve (include_before h) _
                  (firstn_all_passes (3 * i)) Hb (lines, false) Hc) as H1.
    destruct (run_passes (firstn (3 * i) all_passes) (lines, false))
      as [l1 c1].
    simpl in H1.
    change (run_passes [(h, PInclude)] (l1, c1))
      with (include_step h (l1, c1)).
    destruct (include_step_contains h l1 c1 H1) as [_ Hflag].
    destruct (include_step h (l1, c1)) as [l2 c2]. simpl in Hflag. subst c2.
    apply run_passes_flag_set. intros q Hq.
    rewrite <- (firstn_skipn (S (3 * i)) all_passes).
    apply in_or_app. right. exact Hq.
Qed.

(** *** No old directive is left behind *)

Lemma contains_app_false (p u r : text) :
  (forall j, j < length u -> starts_with p (skipn j u ++ r) = false) ->
  contains p r = false -> contains p (u ++ r) = false.
Proof.
  induction u as [|x u IH]; intros Hu Hr; [exact Hr|].
  change (contains p ((x :: u) ++ r))
    with (starts_with p ((x :: u) ++ r) || contains p (u ++ r)).
  pose proof (Hu 0 ltac:(simpl; lia)) as H0. simpl skipn in H0.
  rewrite H0. simpl orb.
  apply IH; [|exact Hr]. intros j Hj. apply (Hu (S j)). simpl. lia.
Qed.

Section ReplaceFree.
Variables (old' new' : text).
Hypothesis Hold : ~ In hash old'.
Hypothesis Hnew : ~ In hash new'.
Hypothesis Hmis : mismatch (hash :: old') (hash :: new') = true.

Let old := hash :: old'.
Let new := hash :: new'.

(** Replacing does not change how a text without [#] begins. *)
Lemma starts_with_replace (n : nat) :
  forall s, length s <= n ->
  forall p, ~ In hash p ->
            starts_with p (replace old new s) = starts_with p s.
Proof.
  unfold replace. induction n as [|n IH]; intros s Hlen p Hp.
  - destruct s; [reflexivity | simpl in Hlen; lia].
  - destruct p as [|x p]; [reflexivity|].
    destruct s as [|c t]; [reflexivity|]. simpl in Hlen.
    assert (Hx : char_eqb x hash = false).
    { destruct (char_eqb x hash) eqn:E; [|reflexivity].
      apply char_eqb_eq in E. subst x. exfalso. apply Hp. left. reflexivity. }
    change (replace_go old new 0 (c :: t)) with
      (if starts_with old (c :: t)
       then new ++ replace_go old new (length old') t
       else c :: replace_go old new 0 t).
    destruct (starts_with old (c :: t)) eqn:E.
    + unfold old in E. cbn [starts_with] in E. apply andb_true_iff in E.
      destruct E as [E _]. apply char_eqb_eq in E. subst c.
      unfold new. cbn [app starts_with]. rewrite Hx. reflexivity.
    + cbn [starts_with]. f_equal. apply IH; [lia|].
      intros H. apply Hp. right. exact H.
Qed.

(** After the replacement no occurrence of the old text is left. *)
Lemma replace_free (n : nat) :
  forall s, length s <= n -> contains old (replace old new s) = false.
Proof.
  unfold replace. induction n as [|n IH]; intros s Hlen.
  - destruct s; [reflexivity | simpl in Hlen; lia].
  - destruct s as [|c t]; [reflexivity|]. simpl in Hlen.
    change (replace_go old new 0 (c :: t)) with
      (if starts_with old (c :: t)
       then new ++ replace_go old new (length old') t
       else c :: replace_go old new 0 t).
    destruct (starts_with old (c :: t)) eqn:E.
    + rewrite (replace_go_skip hash old' new t).
      apply contains_app_false.
      * intros j Hj. destruct j as [|j].
        -- apply (mismatch_starts_with old new Hmis).
        -- unfold new. simpl skipn.
           destruct (skipn j new') as [|y r] eqn:Es.
           { apply (f_equal (@length char)) in Es.
             rewrite length_skipn in Es. simpl in Es, Hj. lia. }
           unfold old. cbn [app starts_with].
           destruct (char_eqb hash y) eqn:Ey; [|reflexivity].
           apply char_eqb_eq in Ey. subst y. exfalso. apply Hnew.
           rewrite <- (firstn_skipn j new'), Es.
           apply in_or_app. right. left. reflexivity.
      * apply IH. rewrite length_skipn. lia.
    + change (contains old (c :: replace_go old new 0 t)) with
        (starts_with old (c :: replace_go old new 0 t) ||
         contains old (replace_go old new 0 t)).
      rewrite (IH t ltac:(lia)), orb_false_r.
      unfold old in E |- *. cbn [starts_with] in E |- *.
      destruct (char_eqb hash c); [|reflexivity]. cbn [andb] in E |- *.
      rewrite <- E. apply (starts_with_replace (length t) t (le_n _) old' Hold).
Qed.
End ReplaceFree.

Lemma headers_include_free_ok : forallb include_free_ok headers = true.
Proof. vm_compute. reflexivity. Qed.

Lemma not_existsb_In (c : char) (l : text) :
  existsb (char_eqb c) l = false -> ~ In c l.
Proof.
  intros H Hin.
  assert (E : existsb (char_eqb c) l = true).
  { apply existsb_exists. exists c. split; [exact Hin | apply char_eqb_refl]. }
  congruence.
Qed.

(** The include step of a rule of the table replaces every occurrence of
    its old directive. *)
Lemma include_step_free (h : Header) (l : text) :
  In h headers ->
  contains (include_before h)
           (replace (include_before h) (include_after h) l) = false.
Proof.
  intros Hh. pose proof headers_include_free_ok as H.
  rewrite forallb_forall in H. specialize (H h Hh).
  unfold include_free_ok in H.
  apply andb_true_iff in H. destruct H as [H Hm].
  apply andb_true_iff in H. destruct H as [Hb Ha].
  apply negb_true_iff, not_existsb_In in Hb, Ha.
  rewrite include_before_cons, include_after_cons in Hm |- *.
  apply (replace_free (tl (include_before h)) (tl (include_after h))
           Hb Ha Hm (length l) l (le_n _)).
Qed.

(** * The claims *)

(** C1 (idempotence of the migration engine) does not hold for the code:
    on the text [ printf(sin(x))] the first application rewrites only
    [printf], because the function pass of the math rule resumes too far
    behind the unowned [printf] and misses [sin]; a second application then
    rewrites [sin] and reports a change. *)
Theorem migrate_twice_differs :
  migrate (str " printf(sin(x))") = (str " std::printf(sin(x))", true) /\
  migrate (str " std::printf(sin(x))") =
    (str " std::printf(std::sin(x))", true).
Proof. split; vm_compute; reflexivity. Qed.

(** C2 (scanning resumes immediately after the identifier) does not hold
    for an unowned candidate of a prefixing rule: the pass resumes
    [len("std::")] characters behind the identifier. In [ foo(sin(x))] the
    owned call [sin(] that begins right after [foo] is skipped by the math
    rule, whereas the same call behind a bare parenthesis is rewritten. *)
Theorem func_substitute_skips_after_unowned :
  func_substitute (rule "math") (func_pattern (rule "math"))
    (str " foo(sin(x))") = (str " foo(sin(x))", false) /\
  func_substitute (rule "math") (func_pattern (rule "math"))
    (str "(sin(x))") = (str "(std::sin(x))", true).
Proof. split; vm_compute; reflexivity. Qed.

(** C4: the flag returned by [migrate] is set exactly when one of the passes
    (include, function, type; rule after rule) returned a text different
    from the one it received, and exactly when the returned text differs
    from the input. *)
Theorem migrate_changed_iff_altered (lines : text) :
  migrate lines = apply_passes passes (lines, false) /\
  snd (migrate lines) = altered passes (lines, false) /\
  snd (migrate lines) = negb (text_eqb (fst (migrate lines)) lines).
Proof.
  split; [apply (run_with_passes headers)|].
  split; [apply migrate_flag|].
  destruct (snd (migrate lines)) eqn:E.
  - apply migrate_changed in E.
    destruct (text_eqb (fst (migrate lines)) lines) eqn:Eq; [|reflexivity].
    apply text_eqb_eq in Eq. contradiction.
  - apply migrate_unchanged in E. rewrite E, text_eqb_refl. reflexivity.
Qed.

(** C8 (the wrapper passes exactly when the three filters leave no line)
    does not hold for the code: for an output that consists of a single
    file-not-found diagnostic the filters leave nothing, yet the wrapper
    raises [StopIteration] instead of returning pass. The exit code plays
    no role. *)
Theorem run_standalone_no_pass_on_lone_diagnostic (name : text) (rc : Z) :
  let out := str "a.cpp:1:10: error: 'x.h' file not found [clang-diagnostic-error]" in
  spec_filtered out = [] /\
  run_standalone name (mkCompleted rc out) = StopIteration.
Proof. split; vm_compute; reflexivity. Qed.

(** C9 (the wrapper never raises) does not hold for the code: when the
    file-not-found diagnostic is the last line, or is followed by one line
    only, [next(iterlines)] raises [StopIteration]. *)
Theorem run_standalone_raises (name : text) (rc : Z) :
  run_standalone name
    (mkCompleted rc
       (str "a.cpp:1:10: error: 'x.h' file not found [clang-diagnostic-error]"))
  = StopIteration /\
  run_standalone name
    (mkCompleted rc
       (str "a.cpp:1:10: error: 'x.h' file not found [clang-diagnostic-error]"
        ++ [chr "010"] ++ str "#include <x.h>" ++ [chr "010"]))
  = StopIteration.
Proof. split; vm_compute; reflexivity. Qed.

(** C10: for every rule built with [add_prefix = False] the function pass
    returns the text unchanged and reports no change, so the function step
    of [run] leaves text and flag as they are. *)
Theorem func_substitute_identity_without_prefix
    (n : text) (fs : list text) (ts : list regex) (lines : text) (c : bool) :
  let h := mkHeader n fs ts false in
  func_regex h = Some (func_pattern h) /\
  func_substitute h (func_pattern h) lines = (lines, false) /\
  func_step h (lines, c) = (lines, c).
Proof.
  intros h. split; [reflexivity|].
  assert (H : func_substitute h (func_pattern h) lines = (lines, false)).
  { unfold func_substitute. apply func_loop_remove_identity. reflexivity. }
  split; [exact H|].
  unfold func_step, func_regex. rewrite H. rewrite orb_false_r. reflexivity.
Qed.

Example raise_keeps_prefix :
  migrate (str " std::raise(sig)") = (str " std::raise(sig)", false).
Proof. vm_compute. reflexivity. Qed.




Lemma headers_quoted_robust :
  forallb (fun h => passes_robust all_passes (quoted_before h)) headers = true.
Proof. vm_compute. reflexivity. Qed.

(** C5: for every rule of the table, when the text contains
    [#include <oldSpine>] the include step returns the text with every
    occurrence replaced ([str.replace]) and sets the flag; no occurrence of
    the old directive is left; the output of [migrate] contains
    [#include <newSpine>] and [changed] is true. A quoted directive is
    never rewritten: [migrate] loses no occurrence of it. *)
Theorem include_rewrite_correct (h : Header) (l1 l2 : text) (c : bool) :
  In h headers ->
  contains (include_before h) l1 = true ->
  contains (quoted_before h) l2 = true ->
  include_step h (l1, c) =
    (replace (include_before h) (include_after h) l1, true) /\
  contains (include_before h) (fst (include_step h (l1, c))) = false /\
  contains (include_after h) (fst (include_step h (l1, c))) = true /\
  contains (include_after h) (fst (migrate l1)) = true /\
  snd (migrate l1) = true /\
  contains (quoted_before h) (fst (migrate l2)) = true /\
  occurrences (quoted_before h) l2 <=
  occurrences (quoted_before h) (fst (migrate l2)).
Proof.
  intros Hh H1 H2.
  assert (E : include_step h (l1, c) =
              (replace (include_before h) (include_after h) l1, true)).
  { unfold include_step. rewrite H1. reflexivity. }
  split; [exact E|]. split; [rewrite E; apply include_step_free, Hh|].
  split; [apply (include_step_contains h l1 c H1)|].
  destruct (include_rewritten h l1 Hh H1) as [Ha Hf].
  split; [exact Ha|]. split; [exact Hf|].
  pose proof headers_quoted_robust as Hq. rewrite forallb_forall in Hq.
  split; [apply migrate_preserves; [apply Hq, Hh | exact H2]|].
  apply migrate_count, Hq, Hh.
Qed.

Lemma include_rewrite_correct_witness :
  In (rule "stdio") headers /\
  contains (str "#include <stdio.h>") (str "#include <stdio.h>") = true /\
  contains (quoted_before (rule "stdio")) (quoted_before (rule "stdio")) = true /\
  contains (str "#include <cstdio>")
           (fst (migrate (str "#include <stdio.h>"))) = true /\
  snd (migrate (str "#include <stdio.h>")) = true /\
  contains (quoted_before (rule "stdio"))
           (fst (migrate (quoted_before (rule "stdio")))) = true /\
  occurrences (quoted_before (rule "stdio")) (quoted_before (rule "stdio")) <=
  occurrences (quoted_before (rule "stdio"))
              (fst (migrate (quoted_before (rule "stdio")))).
Proof.
  split; [apply rule_In; reflexivity|].
  split; [reflexivity|]. split; [reflexivity|].
  apply (include_rewrite_correct (rule "stdio") (str "#include <stdio.h>")
           (quoted_before (rule "stdio")) false);
    [apply rule_In; reflexivity | reflexivity | reflexivity].
Defined.

Lemma stdio_FILE_star_rewritten (lines : text) :
  contains (str " FILE*") lines = true ->
  contains (str " std::FILE*") (fst (migrate lines)) = true.
Proof.
  apply (migrate_rewrites 35 (rule "stdio", PType)); try reflexivity.
  intros l c H. unfold run_pass, type_step. cbn [fst snd].
  destruct (type_regex (rule "stdio")) as [re|] eqn:E; [|discriminate].
  cbn [fst].
  apply (type_pass_hit (rule "stdio") re (chr " ") (str "FILE") (str "*"));
    try reflexivity; try discriminate; try exact H; try exact E.
  - apply rule_In. reflexivity.
  - intros y. vm_compute in E. inversion E.
    unfold match_suffixes. simpl. rewrite star_cls_const. reflexivity.
  - intros y. vm_compute in E. inversion E. eexists. cbn. reflexivity.
Qed.

(** C6: a text that contains [vector<size_t>] still contains it in the
    output of [migrate] (no prefix is added to [size_t], no occurrence is
    lost); a text that
    contains [ FILE *] contains [ std::FILE *] in the output, and likewise
    [ FILE*] becomes [ std::FILE*], the asterisk being accepted behind the
    type name. *)
Theorem type_boundaries (l1 l2 l3 : text) :
  contains (str "vector<size_t>") l1 = true ->
  contains (str " FILE *") l2 = true ->
  contains (str " FILE*") l3 = true ->
  contains (str "vector<size_t>") (fst (migrate l1)) = true /\
  occurrences (str "vector<size_t>") l1 <=
  occurrences (str "vector<size_t>") (fst (migrate l1)) /\
  contains (str " std::FILE *") (fst (migrate l2)) = true /\
  contains (str " std::FILE*") (fst (migrate l3)) = true.
Proof.
  intros H1 H2 H3. split; [|split; [|split]].
  - apply migrate_preserves; [vm_compute; reflexivity | exact H1].
  - apply migrate_count. vm_compute. reflexivity.
  - apply stdio_FILE_rewritten, H2.
  - apply stdio_FILE_star_rewritten, H3.
Qed.

Lemma type_boundaries_witness :
  contains (str "vector<size_t>") (str "std::vector<size_t> v;") = true /\
  contains (str " FILE *") (str "extern FILE *f;") = true /\
  contains (str " FILE*") (str "extern FILE* f;") = true /\
  contains (str "vector<size_t>")
           (fst (migrate (str "std::vector<size_t> v;"))) = true /\
  occurrences (str "vector<size_t>") (str "std::vector<size_t> v;") <=
  occurrences (str "vector<size_t>")
              (fst (migrate (str "std::vector<size_t> v;"))) /\
  contains (str " std::FILE *") (fst (migrate (str "extern FILE *f;"))) = true /\
  contains (str " std::FILE*") (fst (migrate (str "extern FILE* f;"))) = true.
Proof.
  split; [reflexivity|]. split; [reflexivity|]. split; [reflexivity|].
  apply (type_boundaries (str "std::vector<size_t> v;")
           (str "extern FILE *f;") (str "extern FILE* f;")); reflexivity.
Defined.

(** C7: the call site of an identifier that no rule owns (a boundary
    character, a lowercase identifier, an open parenthesis) is modified by
    no rule: no edit of any pass loses an occurrence of it, the output of
    [migrate] has at least as many occurrences of it as the input, and
    contains it when the input does. *)
Theorem unowned_call_site_kept (b : char) (ident lines : text) :
  is_func_boundary b = true ->
  is_identifier ident = true ->
  unowned ident = true ->
  contains (call_site b ident) lines = true ->
  (forall p, In p all_passes -> survives p (call_site b ident)) /\
  occurrences (call_site b ident) lines <=
  occurrences (call_site b ident) (fst (migrate lines)) /\
  contains (call_site b ident) (fst (migrate lines)) = true.
Proof.
  intros Bb Hid Hun Hc.
  pose proof (call_survives b ident Bb Hid Hun) as Hs.
  assert (Hall : forall p, In p all_passes ->
                   In (fst p) headers /\ survives p (call_site b ident)).
  { intros p Hp. split; [apply all_passes_headers, Hp | apply Hs, Hp]. }
  split; [exact Hs|]. rewrite migrate_run_passes. split.
  - apply (run_passes_count (call_site b ident) all_passes Hall
             (lines, false)).
  - apply (run_passes_survive (call_site b ident) all_passes Hall
             (lines, false) Hc).
Qed.

Lemma unowned_call_site_kept_witness :
  is_func_boundary (chr " ") = true /\
  is_identifier (str "foo") = true /\
  unowned (str "foo") = true /\
  contains (call_site (chr " ") (str "foo")) (str "y = foo(sin(x));") = true /\
  occurrences (call_site (chr " ") (str "foo")) (str "y = foo(sin(x));") <=
  occurrences (call_site (chr " ") (str "foo"))
              (fst (migrate (str "y = foo(sin(x));"))) /\
  contains (call_site (chr " ") (str "foo"))
           (fst (migrate (str "y = foo(sin(x));"))) = true.
Proof.
  split; [reflexivity|]. split; [reflexivity|]. split; [reflexivity|].
  split; [reflexivity|].
  apply (unowned_call_site_kept (chr " ") (str "foo") (str "y = foo(sin(x));"));
    reflexivity.
Defined.

(** * Further properties

    Properties of the code beyond the claims: the command line and the
    filters of the analyzer wrapper, the loop of [func_substitute], and
    what the passes of the engine do and never do. *)

(** ** The command line of the analyzer *)

Lemma fold_extra_flags (extra : list text) :
  forall args,
    fold_left (fun args arg => args ++ [str "-extra-arg"; str "-" ++ arg])
              extra args = args ++ extra_flags extra.
Proof.
  induction extra as [|e extra IH]; intros args; simpl.
  - symmetry. apply app_nil_r.
  - rewrite IH, <- app_assoc. reflexivity.
Qed.

Lemma init_args_flags (cc : option text) (extra : list text) :
  init_args cc extra = str "--quiet" :: dir_flags cc ++ extra_flags extra.
Proof.
  unfold init_args. rewrite fold_extra_flags.
  destruct cc as [[|c s]|]; reflexivity.
Qed.

Lemma extra_flags_length (extra : list text) :
  length (extra_flags extra) = 2 * length extra.
Proof. induction extra as [|e extra IH]; simpl; [reflexivity | lia]. Qed.

Lemma extra_flags_inj (e1 : list text) :
  forall e2, extra_flags e1 = extra_flags e2 -> e1 = e2.
Proof.
  induction e1 as [|a e1 IH]; intros [|b e2] H; try discriminate.
  - reflexivity.
  - simpl in H. injection H as Hab H. f_equal; [exact Hab | apply IH, H].
Qed.

Lemma dir_flags_cases (cc : option text) :
  dir_flags cc = [] \/ exists d, dir_flags cc = [str "-p"; d].
Proof. destruct cc as [[|c s]|]; simpl; eauto. Qed.

Lemma extra_flags_head (extra : list text) :
  extra_flags extra = [] \/
  exists a r, extra_flags extra = str "-extra-arg" :: a :: r.
Proof. destruct extra as [|e extra]; simpl; eauto. Qed.

(** ** The line filters of the analyzer wrapper *)

Lemma rstrip_space (ws : text) :
  forallb is_space ws = true -> rstrip ws = [].
Proof.
  induction ws as [|c ws IH]; [reflexivity|]. simpl. intros H.
  apply andb_true_iff in H. destruct H as [Hc Hws].
  change (rstrip (c :: ws))
    with (match rstrip ws with
          | [] => if is_space c then [] else [c]
          | _ :: _ => c :: rstrip ws
          end).
  rewrite (IH Hws), Hc. reflexivity.
Qed.

Lemma rstrip_app_space (out ws : text) :
  forallb is_space ws = true -> rstrip (out ++ ws) = rstrip out.
Proof.
  intros H. unfold rstrip. rewrite fold_right_app.
  fold (rstrip ws). rewrite (rstrip_space ws H). reflexivity.
Qed.

Lemma rstrip_prefix (out : text) : exists ws, out = rstrip out ++ ws.
Proof.
  induction out as [|c out [ws IH]]; [exists []; reflexivity|].
  change (rstrip (c :: out))
    with (match rstrip out with
          | [] => if is_space c then [] else [c]
          | _ :: _ => c :: rstrip out
          end).
  destruct (rstrip out) as [|y r] eqn:E.
  - destruct (is_space c).
    + exists (c :: out). reflexivity.
    + exists out. simpl in IH. simpl. reflexivity.
  - exists ws. simpl. f_equal. exact IH.
Qed.

Lemma split_head (sep : char) (s : text) :
  exists l ls, split sep s = l :: ls /\ ~ In sep l /\ exists b, s = l ++ b.
Proof.
  induction s as [|c t (l & ls & E & Hl & b & Hb)]; simpl.
  - exists [], []. split; [reflexivity|]. split; [intros []|].
    exists []. reflexivity.
  - destruct (char_eqb c sep) eqn:Ec.
    + exists [], (split sep t). split; [reflexivity|].
      split; [intros []|]. exists (c :: t). reflexivity.
    + rewrite E. exists (c :: l), ls. split; [reflexivity|]. split.
      * intros [H | H]; [|exact (Hl H)].
        subst c. rewrite char_eqb_refl in Ec. discriminate.
      * exists b. simpl. f_equal. exact Hb.
Qed.

Lemma split_In (sep : char) (s l : text) :
  In l (split sep s) -> ~ In sep l /\ exists a b, s = a ++ l ++ b.
Proof.
  induction s as [|c t IH]; simpl.
  - intros [<- | []]. split; [intros []|]. exists [], []. reflexivity.
  - destruct (char_eqb c sep) eqn:Ec.
    + intros [<- | H].
      * split; [intros []|]. exists [], (c :: t). reflexivity.
      * destruct (IH H) as (Hl & a & b & ->). split; [exact Hl|].
        exists (c :: a), b. reflexivity.
    + destruct (split_head sep t) as (l0 & ls & E & Hl0 & b0 & Hb0).
      rewrite E in *. intros [<- | H].
      * split.
        -- intros [H | H]; [|exact (Hl0 H)].
           subst c. rewrite char_eqb_refl in Ec. discriminate.
        -- exists [], b0. simpl. f_equal. exact Hb0.
      * destruct (IH (or_intror H)) as (Hl & a & b & ->). split; [exact Hl|].
        exists (c :: a), b. reflexivity.
Qed.

Lemma contains_inside (m l a b : text) :
  contains m l = true -> contains m (a ++ l ++ b) = true.
Proof.
  intros H. apply contains_app in H. destruct H as (x & y & ->).
  apply contains_app. exists (a ++ x), (y ++ b).
  rewrite <- !app_assoc. reflexivity.
Qed.

Lemma raw_line_contains (m out l : text) :
  In l (raw_lines out) -> contains m l = true -> contains m out = true.
Proof.
  intros Hl Hm. apply split_In in Hl. destruct Hl as (_ & a & b & E).
  destruct (rstrip_prefix out) as (ws & Hout). rewrite Hout, E.
  rewrite <- !app_assoc. apply contains_inside, Hm.
Qed.

Lemma prefiltered_In (out l : text) :
  In l (prefiltered out) ->
  In l (raw_lines out) /\ l <> [] /\
  contains generated_marker l = false /\
  contains processing_marker l = false.
Proof.
  unfold prefiltered. rewrite !filter_In.
  intros [[[H1 H2] H3] H4].
  apply negb_true_iff in H3, H4.
  repeat split; auto. intros ->. discriminate.
Qed.

Lemma skip_not_found_clean (ls : list text) :
  no_not_found ls = true ->
  forall acc, skip_not_found ls acc = Some (acc ++ ls).
Proof.
  induction ls as [|l ls IH]; intros H acc; simpl.
  - rewrite app_nil_r. reflexivity.
  - simpl in H. apply andb_true_iff in H. destruct H as [Hl Hls].
    apply negb_true_iff in Hl. rewrite Hl, (IH Hls), <- app_assoc.
    reflexivity.
Qed.

Lemma skip_not_found_app (before rest : list text) :
  no_not_found before = true ->
  forall acc,
    skip_not_found (before ++ rest) acc = skip_not_found rest (acc ++ before).
Proof.
  induction before as [|l ls IH]; intros H acc; simpl.
  - rewrite app_nil_r. reflexivity.
  - simpl in H. apply andb_true_iff in H. destruct H as [Hl Hls].
    apply negb_true_iff in Hl. rewrite Hl, (IH Hls), <- app_assoc.
    reflexivity.
Qed.

Lemma spec_drop_not_found_lines (ls : list text) :
  forall l, In l (spec_drop_not_found ls) ->
            In l ls /\ contains not_found_marker l = false.
Proof.
  induction ls as [ls IH] using (well_founded_induction
    (Wf_nat.well_founded_ltof _ (@length text))).
  intros l. destruct ls as [|x rest]; simpl; [intros []|].
  destruct (contains not_found_marker x) eqn:Ex.
  - destruct rest as [|l1 [|l2 rest']]; try (intros []).
    intros H. apply IH in H; [|unfold ltof; simpl; lia].
    destruct H as [H1 H2]. split; [|exact H2]. right. right. right. exact H1.
  - intros [<- | H].
    + split; [left; reflexivity | exact Ex].
    + apply IH in H; [|unfold ltof; simpl; lia].
      destruct H as [H1 H2]. split; [right; exact H1 | exact H2].
Qed.

(** X1: the argument vector of the analyzer is the executable, [--quiet],
    [-p] with the compilation database when one is given (a non-empty
    string), the pair [-extra-arg], [-arg] for each extra argument in the
    order given, and the file name last; it has
    [3 + (0 or 2) + 2 * len(extra_args)] entries. *)
Theorem command_shape (executable name : text) (compile_commands : option text)
    (extra_args : list text) :
  command executable (init_args compile_commands extra_args) name =
    executable :: str "--quiet" ::
    dir_flags compile_commands ++ extra_flags extra_args ++ [name] /\
  length (command executable (init_args compile_commands extra_args) name) =
    3 + length (dir_flags compile_commands) + 2 * length extra_args.
Proof.
  unfold command. rewrite init_args_flags. split.
  - cbn [app]. rewrite <- app_assoc. reflexivity.
  - cbn [app length]. rewrite !length_app, extra_flags_length.
    cbn [length]. lia.
Qed.

(** X2: the constructor loses nothing: two constructions that yield the
    same argument list were given the same extra arguments and the same
    compilation database, up to the values that count as absent ([None]
    and the empty string). *)
Theorem init_args_injective (cc1 cc2 : option text) (e1 e2 : list text) :
  init_args cc1 e1 = init_args cc2 e2 ->
  dir_flags cc1 = dir_flags cc2 /\ e1 = e2.
Proof.
  rewrite !init_args_flags. intros H. injection H as H. revert H.
  destruct (dir_flags_cases cc1) as [-> | [d1 ->]];
    destruct (dir_flags_cases cc2) as [-> | [d2 ->]]; cbn [app]; intros H.
  - split; [reflexivity | apply extra_flags_inj, H].
  - destruct (extra_flags_head e1) as [E | (a & r & E)];
      rewrite E in H; discriminate.
  - destruct (extra_flags_head e2) as [E | (a & r & E)];
      rewrite E in H; discriminate.
  - injection H as -> H. split; [reflexivity | apply extra_flags_inj, H].
Qed.

Lemma init_args_injective_witness :
  dir_flags None = dir_flags (Some (str "")) /\
  [str "Wall"; str "std=c++20"] = [str "Wall"; str "std=c++20"].
Proof.
  apply (init_args_injective None (Some (str ""))
           [str "Wall"; str "std=c++20"] [str "Wall"; str "std=c++20"]).
  reflexivity.
Defined.

(** X3: white space at the end of the analyzer output, blank lines
    included, has no effect on the outcome; an output of white space only
    is a pass and nothing is printed. *)
Theorem run_standalone_trailing_space (name out ws : text) (rc : Z) :
  forallb is_space ws = true ->
  run_standalone name (mkCompleted rc (out ++ ws)) =
  run_standalone name (mkCompleted rc out) /\
  run_standalone name (mkCompleted rc ws) = Returned true None.
Proof.
  intros H. unfold run_standalone, prefiltered. cbn [stdout].
  rewrite (rstrip_app_space out ws H), (rstrip_space ws H).
  split; reflexivity.
Qed.

Lemma run_standalone_trailing_space_witness :
  run_standalone (str "a.cpp")
    (mkCompleted 1 (str "a.cpp:3:1: warning: w [x]" ++
                    [newline; chr " "; newline])) =
  run_standalone (str "a.cpp")
    (mkCompleted 1 (str "a.cpp:3:1: warning: w [x]")) /\
  run_standalone (str "a.cpp") (mkCompleted 1 [newline; chr " "; newline]) =
  Returned true None.
Proof.
  apply (run_standalone_trailing_space (str "a.cpp")
           (str "a.cpp:3:1: warning: w [x]") [newline; chr " "; newline] 1).
  reflexivity.
Defined.

(** X4: an output in which the text of the file-not-found diagnostic does
    not occur never makes the wrapper raise: it returns pass when the first
    two filters leave no line, and otherwise fail with exactly the lines
    they leave, in their order, under the banner. *)
Theorem run_standalone_without_not_found (name out : text) (rc : Z) :
  contains not_found_marker out = false ->
  run_standalone name (mkCompleted rc out) =
  match prefiltered out with
  | [] => Returned true None
  | ls => Returned false (Some (banner name ls))
  end.
Proof.
  intros H. unfold run_standalone. cbn [stdout].
  rewrite skip_not_found_clean;
    [cbn [app]; destruct (prefiltered out); reflexivity|].
  apply forallb_forall. intros l Hl. apply negb_true_iff.
  destruct (contains not_found_marker l) eqn:E; [|reflexivity].
  apply prefiltered_In in Hl. destruct Hl as (Hl & _).
  rewrite (raw_line_contains _ out l Hl E) in H. discriminate.
Qed.

Lemma run_standalone_without_not_found_witness :
  run_standalone (str "a.cpp")
    (mkCompleted 1 (str "a.cpp:3:1: warning: w [x]" ++ newline ::
                    str "1 warning generated." ++ [newline])) =
  Returned false
    (Some (banner (str "a.cpp") [str "a.cpp:3:1: warning: w [x]"])).
Proof.
  apply (run_standalone_without_not_found (str "a.cpp")
           (str "a.cpp:3:1: warning: w [x]" ++ newline ::
            str "1 warning generated." ++ [newline]) 1).
  reflexivity.
Defined.

(** X5: whenever the wrapper returns, it returns pass and prints nothing,
    or it returns fail and prints the banner over a non-empty list of
    lines, each of which is a non-empty line of the output that holds no
    line break and none of the three filtered texts. *)
Theorem run_standalone_report (name : text) (proc : CompletedProcess)
    (v : bool) (p : option text) :
  run_standalone name proc = Returned v p ->
  (v = true /\ p = None) \/
  (v = false /\
   exists ls, ls <> [] /\ p = Some (banner name ls) /\
              Forall (reported_line (stdout proc)) ls).
Proof.
  unfold run_standalone.
  destruct (skip_not_found (prefiltered (stdout proc)) []) as [r|] eqn:E;
    [|discriminate].
  apply skip_not_found_spec in E. simpl in E. subst r.
  destruct (spec_drop_not_found (prefiltered (stdout proc))) as [|l ls] eqn:E;
    intros H; inversion H; subst; [left; auto|].
  right. split; [reflexivity|]. exists (l :: ls).
  split; [discriminate|]. split; [reflexivity|].
  apply Forall_forall. intros x Hx. rewrite <- E in Hx.
  apply spec_drop_not_found_lines in Hx. destruct Hx as [Hx Hnf].
  apply prefiltered_In in Hx. destruct Hx as (Hraw & Hne & Hg & Hp).
  unfold reported_line. repeat split; auto.
  apply split_In in Hraw. apply Hraw.
Qed.

Lemma run_standalone_report_witness :
  (false = true /\
   Some (banner (str "a.cpp") [str "a.cpp:3:1: warning: w [x]"]) = None) \/
  (false = false /\
   exists ls, ls <> [] /\
     Some (banner (str "a.cpp") [str "a.cpp:3:1: warning: w [x]"]) =
     Some (banner (str "a.cpp") ls) /\
     Forall (reported_line
               (str "a.cpp:3:1: warning: w [x]" ++ newline ::
                str "1 warning generated." ++ [newline])) ls).
Proof.
  apply (run_standalone_report (str "a.cpp")
           (mkCompleted 1 (str "a.cpp:3:1: warning: w [x]" ++ newline ::
                           str "1 warning generated." ++ [newline]))).
  reflexivity.
Defined.

(** X6: a file-not-found diagnostic that the loop reaches behind lines
    without one is dropped together with the two lines that follow it,
    whatever those two lines hold (further diagnostics included): the loop
    behaves as if the three lines were not there. *)
Theorem skip_not_found_drops_triple (before after : list text)
    (d e1 e2 : text) (acc : list text) :
  no_not_found before = true ->
  contains not_found_marker d = true ->
  skip_not_found (before ++ d :: e1 :: e2 :: after) acc =
  skip_not_found (before ++ after) acc.
Proof.
  intros Hb Hd. rewrite !(skip_not_found_app before) by exact Hb.
  simpl. rewrite Hd. reflexivity.
Qed.

Lemma skip_not_found_drops_triple_witness :
  skip_not_found
    ([str "a.cpp:1:1: warning: w [x]"] ++
     str "a.cpp:2:10: error: 'x.h' file not found [clang-diagnostic-error]" ::
     str "a.cpp:9:1: error: unknown type name 'T' [clang-diagnostic-error]" ::
     str "T t;" :: [str "^"]) [] =
  skip_not_found ([str "a.cpp:1:1: warning: w [x]"] ++ [str "^"]) [].
Proof.
  apply (skip_not_found_drops_triple [str "a.cpp:1:1: warning: w [x]"]
           [str "^"]
           (str "a.cpp:2:10: error: 'x.h' file not found [clang-diagnostic-error]")
           (str "a.cpp:9:1: error: unknown type name 'T' [clang-diagnostic-error]")
           (str "T t;") []); reflexivity.
Defined.

(** ** More on the loop of [func_substitute] *)

Lemma lang_grp_identifier (h : Header) (g : text) :
  lang (pat_grp (func_pattern h)) g -> is_identifier g = true.
Proof.
  intros L. apply lang_func_grp in L. destruct L as (c & m & -> & Hc & Hm).
  simpl. rewrite Hc. simpl. apply forallb_forall.
  rewrite Forall_forall in Hm. exact Hm.
Qed.

Lemma mem_live (g : text) (names : list text) :
  is_identifier g = true ->
  mem g (filter is_identifier names) = mem g names.
Proof.
  intros Hg. unfold mem. induction names as [|n names IH]; [reflexivity|].
  simpl. destruct (is_identifier n) eqn:Hn; simpl.
  - rewrite IH. reflexivity.
  - rewrite IH. destruct (text_eqb g n) eqn:E; [|reflexivity].
    apply text_eqb_eq in E. subst n. congruence.
Qed.

Lemma func_loop_live (h : Header) :
  forall (fuel : nat) (lines : text) (pos : nat) (ch : bool),
    func_loop fuel (prune h) (func_pattern h) lines pos ch =
    func_loop fuel h (func_pattern h) lines pos ch.
Proof.
  induction fuel as [|fuel IH]; intros lines pos ch; [reflexivity|].
  simpl. destruct (pos <? length lines) eqn:Hlt; [|reflexivity].
  apply Nat.ltb_lt in Hlt.
  destruct (search (func_pattern h) lines pos) as [[s1 e1]|] eqn:Hs;
    [|reflexivity].
  destruct (func_search_sound h lines pos s1 e1 (Nat.lt_le_incl _ _ Hlt) Hs)
    as (before & b & g & rest & _ & _ & _ & Lg & _ & _ & Sl & _).
  change (prefix (prune h)) with (prefix h).
  unfold live_names. rewrite Sl, (mem_live g _ (lang_grp_identifier h g Lg)).
  destruct (mem g (func_names h)); apply IH.
Qed.

Lemma func_loop_no_names (h : Header) (re : pattern) :
  func_names h = [] ->
  forall (fuel : nat) (lines : text) (pos : nat) (ch : bool),
    func_loop fuel h re lines pos ch = (lines, ch).
Proof.
  intros Hn. induction fuel as [|fuel IH]; intros lines pos ch; [reflexivity|].
  simpl. destruct (pos <? length lines); [|reflexivity].
  destruct (search re lines pos) as [[s1 e1]|]; [|reflexivity].
  rewrite Hn. simpl. apply IH.
Qed.

Lemma func_step_prune (h : Header) (st : text * bool) :
  func_step (prune h) st = func_step h st.
Proof.
  destruct st as [lines c]. unfold func_step, func_regex, func_substitute.
  change (func_pattern (prune h)) with (func_pattern h).
  rewrite func_loop_live. reflexivity.
Qed.

Lemma run_header_prune (st : text * bool) (h : Header) :
  run_header st (prune h) = run_header st h.
Proof.
  unfold run_header.
  change (include_step (prune h)) with (include_step h).
  change (type_step (prune h)) with (type_step h).
  rewrite func_step_prune. reflexivity.
Qed.

Lemma func_loop_flag_true (h : Header) (re : pattern) :
  forall (fuel : nat) (lines : text) (pos : nat),
    snd (func_loop fuel h re lines pos true) = true.
Proof.
  induction fuel as [|fuel IH]; intros lines pos; [reflexivity|].
  simpl. destruct (pos <? length lines); [|reflexivity].
  destruct (search re lines pos) as [[s1 e1]|]; [|reflexivity].
  destruct (mem (slice lines s1 e1) (func_names h)); apply IH.
Qed.

Lemma firstn_le_eq (i j : nat) (l l' : text) :
  i <= j -> firstn j l = firstn j l' -> firstn i l = firstn i l'.
Proof.
  intros Hij H.
  rewrite <- (Nat.min_l i j Hij), <- !firstn_firstn, H. reflexivity.
Qed.

(** The loop works from left to right: the character at [pos] and the text
    before it are final. *)
Lemma func_loop_keeps (h : Header) :
  forall (fuel : nat) (lines : text) (pos : nat) (ch : bool),
    firstn (S pos) (fst (func_loop fuel h (func_pattern h) lines pos ch)) =
    firstn (S pos) lines.
Proof.
  induction fuel as [|fuel IH]; intros lines pos ch; [reflexivity|].
  cbn [func_loop]. destruct (pos <? length lines) eqn:Hlt; [|reflexivity].
  apply Nat.ltb_lt in Hlt.
  destruct (search (func_pattern h) lines pos) as [[s1 e1]|] eqn:Hs;
    [|reflexivity].
  destruct (func_search_sound h lines pos s1 e1 (Nat.lt_le_incl _ _ Hlt) Hs)
    as (before & b & g & rest & E & Hb & Bb & Lg & Es1 & Ee1 & Sl & Fn & Sk).
  cbv zeta. rewrite Sl.
  destruct (mem g (func_names h)).
  - transitivity
      (firstn (S pos) (firstn s1 lines ++ prefix h ++ g ++ skipn e1 lines)).
    + apply (firstn_le_eq (S pos) (S (s1 + length (prefix h) + length g)));
        [lia | apply IH].
    + assert (Hl : length (firstn s1 lines) = s1).
      { rewrite Fn, length_app. simpl length. lia. }
      rewrite firstn_app, Hl. replace (S pos - s1) with 0 by lia.
      rewrite firstn_O, app_nil_r, firstn_firstn.
      f_equal. lia.
  - apply (firstn_le_eq (S pos) (S (s1 + length (prefix h) + length g)));
      [lia | apply IH].
Qed.

(** *** The first candidate of a text *)

Lemma star_cls_run (A : Type) (p : char -> bool) (m : text) :
  Forall (fun c => p c = true) m ->
  forall (c : char) (s : text) (k : text -> option A) (x : A),
    p c = false -> k (c :: s) = Some x ->
    star_cls p (m ++ c :: s) k = Some x.
Proof.
  induction 1 as [|y m Hy _ IH]; intros c s k x Hc Hk; simpl.
  - rewrite Hc. exact Hk.
  - rewrite Hy, (IH c s k x Hc Hk). reflexivity.
Qed.

Lemma func_pre_hit (A : Type) (h : Header) (b : char) (s : text)
    (k : text -> option A) :
  add_prefix h = true -> is_func_boundary b = true ->
  rmatch (pat_pre (func_pattern h)) (b :: s) k = k s.
Proof.
  intros Hap Bb. unfold func_pattern, regex_prefix. rewrite Hap.
  cbn [pat_pre].
  destruct (func_boundary_cases b Bb) as [-> | [-> | ->]];
    simpl; destruct (k s); reflexivity.
Qed.

Lemma func_match_hit (h : Header) (b : char) (g rest : text) :
  add_prefix h = true -> is_func_boundary b = true ->
  is_identifier g = true ->
  match_here (func_pattern h) (b :: g ++ chr "(" :: rest) =
  Some (1, 1 + length g).
Proof.
  intros Hap Bb Hg.
  assert (Hm : match_suffixes (func_pattern h) (b :: g ++ chr "(" :: rest) =
               Some (g ++ chr "(" :: rest, chr "(" :: rest)).
  { unfold match_suffixes. rewrite (func_pre_hit _ h b _ _ Hap Bb).
    destruct g as [|c0 m]; [discriminate|].
    simpl in Hg. apply andb_true_iff in Hg. destruct Hg as [Hc0 Hm].
    cbn [func_pattern pat_grp pat_post rmatch app]. rewrite Hc0.
    apply star_cls_run; [|reflexivity|reflexivity].
    apply Forall_forall. rewrite forallb_forall in Hm. exact Hm. }
  unfold match_here. rewrite Hm. f_equal. f_equal.
  - simpl length. rewrite length_app. simpl length. lia.
  - simpl length. rewrite length_app. simpl length. lia.
Qed.

Lemma lit_miss (A : Type) (x c : char) (s : text) (k : text -> option A) :
  char_eqb x c = false -> rmatch (Lit [x]) (c :: s) k = None.
Proof. intros H. cbn [rmatch drop_prefix]. rewrite H. reflexivity. Qed.

Lemma func_match_miss (h : Header) (c : char) (s : text) :
  is_func_boundary c = false -> match_here (func_pattern h) (c :: s) = None.
Proof.
  unfold is_func_boundary, is_char. intros H.
  apply orb_false_iff in H. destruct H as [H H3].
  apply orb_false_iff in H. destruct H as [H1 H2].
  unfold match_here, match_suffixes, func_pattern.
  cbn [pat_pre pat_grp pat_post]. unfold lit.
  change (str " ") with [chr " "]. change (str ",") with [chr ","].
  change (str "(") with [chr "("].
  change (rmatch (Cat (Alt (Lit [chr " "]) (Alt (Lit [chr ","]) (Lit [chr "("])))
                      (Lit (regex_prefix h))) (c :: s) ?k)
    with (match rmatch (Lit [chr " "]) (c :: s)
                  (fun s1 => rmatch (Lit (regex_prefix h)) s1 k) with
          | Some x => Some x
          | None =>
              match rmatch (Lit [chr ","]) (c :: s)
                      (fun s1 => rmatch (Lit (regex_prefix h)) s1 k) with
              | Some x => Some x
              | None => rmatch (Lit [chr "("]) (c :: s)
                          (fun s1 => rmatch (Lit (regex_prefix h)) s1 k)
              end
          end).
  rewrite (lit_miss _ _ c s _ H1), (lit_miss _ _ c s _ H2),
    (lit_miss _ _ c s _ H3).
  reflexivity.
Qed.

Lemma search_suffix_skip (h : Header) (pre : text) :
  no_func_boundary pre = true ->
  forall (s : text) (i : nat),
    search_suffix (func_pattern h) (pre ++ s) i =
    search_suffix (func_pattern h) s (i + length pre).
Proof.
  induction pre as [|c pre IH]; intros H s i.
  - simpl. rewrite Nat.add_0_r. reflexivity.
  - simpl in H. apply andb_true_iff in H. destruct H as [Hc Hpre].
    apply negb_true_iff in Hc.
    change ((c :: pre) ++ s) with (c :: pre ++ s).
    cbn [search_suffix]. rewrite (func_match_miss h c _ Hc), (IH Hpre).
    f_equal. simpl. lia.
Qed.

Lemma func_search_first (h : Header) (pre : text) (b : char) (g rest : text) :
  add_prefix h = true -> no_func_boundary pre = true ->
  is_func_boundary b = true -> is_identifier g = true ->
  search (func_pattern h) (pre ++ b :: g ++ chr "(" :: rest) 0 =
  Some (length pre + 1, length pre + 1 + length g).
Proof.
  intros Hap Hpre Bb Hg. unfold search. rewrite skipn_O.
  rewrite (search_suffix_skip h pre Hpre).
  destruct g as [|c0 m] eqn:Eg; [discriminate|]. rewrite <- Eg in *.
  assert (Es : search_suffix (func_pattern h) (b :: g ++ chr "(" :: rest)
                 (0 + length pre) =
               match match_here (func_pattern h) (b :: g ++ chr "(" :: rest) with
               | Some (a, b0) => Some (0 + length pre + a, 0 + length pre + b0)
               | None => search_suffix (func_pattern h) (g ++ chr "(" :: rest)
                           (S (0 + length pre))
               end) by reflexivity.
  rewrite Es, (func_match_hit h b g rest Hap Bb Hg). f_equal. f_equal; lia.
Qed.

Lemma run_with_prune (hs : list Header) :
  forall st, fold_left run_header (map prune hs) st = fold_left run_header hs st.
Proof.
  induction hs as [|h hs IH]; intros st; [reflexivity|].
  simpl. rewrite run_header_prune. apply IH.
Qed.

Lemma func_body_next (h : Header) (lines : text) (pos : nat) (ch : bool)
    (lines' : text) (pos' : nat) (ch' : bool) :
  func_body h (func_pattern h) lines pos ch = Some (lines', pos', ch') ->
  pos < length lines /\ pos + 2 <= pos' /\
  length lines' - pos' < length lines - pos.
Proof.
  unfold func_body.
  destruct (pos <? length lines) eqn:Hlt; [|discriminate].
  apply Nat.ltb_lt in Hlt.
  destruct (search (func_pattern h) lines pos) as [[s1 e1]|] eqn:Hs;
    [|discriminate].
  destruct (func_search_sound h lines pos s1 e1 (Nat.lt_le_incl _ _ Hlt) Hs)
    as (before & b & g & rest & E & Hb & Bb & Lg & Es1 & Ee1 & Sl & Fn & Sk).
  pose proof (lang_func_grp_length h g Lg) as Hg.
  assert (Hlen : length lines =
                 length before + 1 + length (regex_prefix h) + length g + 1
                 + length rest).
  { rewrite E. rewrite length_app. simpl. rewrite !length_app. simpl. lia. }
  cbv zeta. rewrite Sl, Fn, Sk.
  destruct (mem g (func_names h)); intros H; injection H as <- <- _;
    (split; [exact Hlt|]); (split; [lia|]);
    repeat (rewrite ?length_app; simpl length); lia.
Qed.

Lemma func_run_body (fuel : nat) (h : Header) (re : pattern) (lines : text)
    (pos : nat) (ch : bool) :
  func_run (S fuel) h re lines pos ch =
  match func_body h re lines pos ch with
  | None => Some (lines, ch)
  | Some (lines', pos', ch') => func_run fuel h re lines' pos' ch'
  end.
Proof.
  unfold func_body. cbn [func_run].
  destruct (pos <? length lines); [|reflexivity].
  destruct (search re lines pos) as [[s1 e1]|]; [|reflexivity].
  cbv zeta. destruct (mem (slice lines s1 e1) (func_names h)); reflexivity.
Qed.

Lemma func_loop_body (fuel : nat) (h : Header) (re : pattern) (lines : text)
    (pos : nat) (ch : bool) :
  func_loop (S fuel) h re lines pos ch =
  match func_body h re lines pos ch with
  | None => (lines, ch)
  | Some (lines', pos', ch') => func_loop fuel h re lines' pos' ch'
  end.
Proof.
  unfold func_body. cbn [func_loop].
  destruct (pos <? length lines); [|reflexivity].
  destruct (search re lines pos) as [[s1 e1]|]; [|reflexivity].
  cbv zeta. destruct (mem (slice lines s1 e1) (func_names h)); reflexivity.
Qed.

(** With more iterations allowed than [len(lines) - pos], the loop is left,
    and with the state that [func_loop] computes. *)
Lemma func_run_leaves (h : Header) :
  forall (fuel : nat) (lines : text) (pos : nat) (ch : bool),
    length lines - pos < fuel ->
    func_run fuel h (func_pattern h) lines pos ch =
    Some (func_loop fuel h (func_pattern h) lines pos ch).
Proof.
  induction fuel as [|fuel IH]; intros lines pos ch Hf; [lia|].
  rewrite func_run_body, func_loop_body.
  destruct (func_body h (func_pattern h) lines pos ch) as [[[l' p'] c']|] eqn:E;
    [|reflexivity].
  apply func_body_next in E. apply IH. lia.
Qed.

(** X7: the loop of [func_substitute] always ends. An iteration that does
    not leave the loop moves [pos] forward by at least two characters and
    makes [len(lines) - pos] smaller, also when it lengthens the text; so
    from any text, position and flag the loop is left, through its test or
    through [break], within [len(lines) - pos + 1] iterations, with the
    state that [func_loop] computes. In particular the loop that
    [func_substitute] starts is left within [len(lines) + 1] iterations,
    with the result of [func_substitute]. *)
Theorem func_substitute_terminates (h : Header) (lines : text)
    (pos fuel : nat) (ch : bool) :
  length lines - pos < fuel ->
  (forall lines' pos' ch',
     func_body h (func_pattern h) lines pos ch = Some (lines', pos', ch') ->
     pos + 2 <= pos' /\ length lines' - pos' < length lines - pos) /\
  func_run fuel h (func_pattern h) lines pos ch =
  Some (func_loop fuel h (func_pattern h) lines pos ch) /\
  func_run (S (length lines)) h (func_pattern h) lines 0 false =
  Some (func_substitute h (func_pattern h) lines).
Proof.
  intros Hf. split; [|split].
  - intros lines' pos' ch' E. apply func_body_next in E. tauto.
  - apply func_run_leaves, Hf.
  - unfold func_substitute. apply func_run_leaves. lia.
Qed.

Lemma func_substitute_terminates_witness :
  (forall lines' pos' ch',
     func_body (rule "math") (func_pattern (rule "math"))
       (str " foo(sin(x), cos(x))") 0 false = Some (lines', pos', ch') ->
     0 + 2 <= pos' /\
     length lines' - pos' < length (str " foo(sin(x), cos(x))") - 0) /\
  func_run 21 (rule "math") (func_pattern (rule "math"))
    (str " foo(sin(x), cos(x))") 0 false =
  Some (func_loop 21 (rule "math") (func_pattern (rule "math"))
          (str " foo(sin(x), cos(x))") 0 false) /\
  func_run (S (length (str " foo(sin(x), cos(x))"))) (rule "math")
    (func_pattern (rule "math")) (str " foo(sin(x), cos(x))") 0 false =
  Some (func_substitute (rule "math") (func_pattern (rule "math"))
          (str " foo(sin(x), cos(x))")).
Proof.
  apply (func_substitute_terminates (rule "math")
           (str " foo(sin(x), cos(x))") 0 21 false); simpl; lia.
Defined.

(** X8: the entries of [func_names] that are not of the shape
    [[a-z][a-z0-9]*] are never used: the function pass of a rule, and the
    whole engine, behave as if they were not in the table. In the table
    these are [va_list], [at_quick_exit], [quick_exit] and [_Exit]. *)
Theorem dead_names_ignored (lines : text) :
  (forall h, func_substitute (prune h) (func_pattern (prune h)) lines =
             func_substitute h (func_pattern h) lines) /\
  run_with (map prune headers) lines = migrate lines /\
  dead_names = strs ["va_list"; "at_quick_exit"; "quick_exit"; "_Exit"]%string.
Proof.
  split; [|split].
  - intros h. unfold func_substitute.
    change (func_pattern (prune h)) with (func_pattern h).
    apply func_loop_live.
  - unfold migrate, run, run_with. apply run_with_prune.
  - vm_compute. reflexivity.
Qed.

(** X9: a rule none of whose names has the shape [[a-z][a-z0-9]*] (an
    empty set of names included, for which the expression is compiled all
    the same) never rewrites a call site: [func_substitute] returns the
    text as it is, with the flag unset. *)
Theorem func_substitute_without_live_names (h : Header) (lines : text) :
  live_names h = [] ->
  func_substitute h (func_pattern h) lines = (lines, false) /\
  forall c, func_step h (lines, c) = (lines, c).
Proof.
  intros Hn.
  assert (H : func_substitute h (func_pattern h) lines = (lines, false)).
  { unfold func_substitute. rewrite <- func_loop_live.
    apply func_loop_no_names. exact Hn. }
  split; [exact H|]. intros c. unfold func_step, func_regex.
  rewrite H. rewrite orb_false_r. reflexivity.
Qed.

Lemma func_substitute_without_live_names_witness :
  func_substitute (rule "stdarg") (func_pattern (rule "stdarg"))
    (str "f( va_list(ap))") = (str "f( va_list(ap))", false) /\
  forall c, func_step (rule "stdarg") (str "f( va_list(ap))", c) =
            (str "f( va_list(ap))", c).
Proof.
  apply (func_substitute_without_live_names (rule "stdarg")
           (str "f( va_list(ap))")).
  reflexivity.
Defined.

(** X10: the first call site of a text is always handled: when no space,
    comma or open parenthesis precedes the call site of a name that a
    prefixing rule owns, [func_substitute] inserts [std::] in front of that
    name and reports a change, whatever follows. *)
Theorem first_call_site_prefixed (h : Header) (pre : text) (b : char)
    (g rest : text) :
  add_prefix h = true -> no_func_boundary pre = true ->
  is_func_boundary b = true -> is_identifier g = true ->
  mem g (func_names h) = true ->
  exists tail,
    func_substitute h (func_pattern h) (pre ++ b :: g ++ chr "(" :: rest) =
    (pre ++ b :: str "std::" ++ g ++ chr "(" :: tail, true).
Proof.
  intros Hap Hpre Bb Hg Hm.
  assert (Hp : prefix h = str "std::")
    by (unfold prefix; rewrite Hap; reflexivity).
  set (a := pre ++ [b]).
  assert (El : pre ++ b :: g ++ chr "(" :: rest = a ++ g ++ chr "(" :: rest).
  { unfold a. rewrite <- app_assoc. reflexivity. }
  assert (Ea : length pre + 1 = length a).
  { unfold a. rewrite length_app. reflexivity. }
  pose proof (func_search_first h pre b g rest Hap Hpre Bb Hg) as Hs.
  rewrite El, Ea in Hs.
  unfold func_substitute. rewrite El. cbn [func_loop].
  assert (Hlt : (0 <? length (a ++ g ++ chr "(" :: rest)) = true).
  { apply Nat.ltb_lt. unfold a. rewrite !length_app. simpl. lia. }
  rewrite Hlt, Hs. cbv zeta.
  rewrite slice_app, Hm, Hp.
  assert (Fn : firstn (length a) (a ++ g ++ chr "(" :: rest) = a).
  { rewrite firstn_app, Nat.sub_diag, firstn_all. simpl. apply app_nil_r. }
  assert (Sk : skipn (length a + length g) (a ++ g ++ chr "(" :: rest) =
               chr "(" :: rest).
  { rewrite app_assoc, <- length_app, skipn_app, skipn_all, Nat.sub_diag.
    reflexivity. }
  rewrite Fn, Sk.
  set (lines' := a ++ str "std::" ++ g ++ chr "(" :: rest).
  set (pos' := length a + length (str "std::") + length g).
  assert (Hch : (if negb false &&
                    negb (length (a ++ g ++ chr "(" :: rest) =? length lines')
                 then true else false) = true).
  { assert (Hne : (length (a ++ g ++ chr "(" :: rest) =? length lines')
                   = false); [|rewrite Hne; reflexivity].
    apply Nat.eqb_neq. unfold lines'.
    repeat (rewrite ?length_app; simpl length). lia. }
  rewrite Hch.
  pose proof (func_loop_keeps h (length (a ++ g ++ chr "(" :: rest))
                lines' pos' true) as Hk.
  pose proof (func_loop_flag_true h (func_pattern h)
                (length (a ++ g ++ chr "(" :: rest)) lines' pos') as Hf.
  destruct (func_loop (length (a ++ g ++ chr "(" :: rest)) h (func_pattern h)
              lines' pos' true) as [r f].
  cbn [fst snd] in Hk, Hf. subst f.
  exists (skipn (S pos') r). f_equal.
  rewrite <- (firstn_skipn (S pos') r) at 1. rewrite Hk.
  assert (Hl : firstn (S pos') lines' = a ++ str "std::" ++ g ++ [chr "("]).
  { unfold lines'.
    replace (a ++ str "std::" ++ g ++ chr "(" :: rest)
      with ((a ++ str "std::" ++ g ++ [chr "("]) ++ rest)
      by (rewrite <- !app_assoc; reflexivity).
    replace (S pos') with (length (a ++ str "std::" ++ g ++ [chr "("]) + 0).
    - rewrite firstn_app_2. simpl. apply app_nil_r.
    - unfold pos'. repeat (rewrite ?length_app; simpl length). lia. }
  rewrite Hl. unfold a. rewrite <- !app_assoc. reflexivity.
Qed.

Lemma first_call_site_prefixed_witness :
  exists tail,
    func_substitute (rule "math") (func_pattern (rule "math"))
      (str "y" ++ chr "(" :: str "floor" ++ chr "(" :: str "x))") =
    (str "y" ++ chr "(" :: str "std::" ++ str "floor" ++ chr "(" :: tail, true).
Proof.
  apply (first_call_site_prefixed (rule "math") (str "y") (chr "(")
           (str "floor") (str "x))")); reflexivity.
Defined.

(** X11: the function pass of a prefixing rule only inserts: its result is
    reached from its input by [k] insertions of [std::], each between a
    space, comma or open parenthesis and a name of the rule that an open
    parenthesis follows; nothing is deleted or reordered, the result is
    [5 * k] characters longer, and the flag is set exactly when [k] is not
    zero. *)
Theorem func_substitute_only_inserts (h : Header) (lines : text) :
  add_prefix h = true ->
  exists k,
    steps (func_edit h) k lines
          (fst (func_substitute h (func_pattern h) lines)) /\
    snd (func_substitute h (func_pattern h) lines) = (0 <? k) /\
    length (fst (func_substitute h (func_pattern h) lines)) =
    length lines + 5 * k.
Proof.
  intros Hap. unfold func_substitute.
  destruct (func_loop_steps h Hap (S (length lines)) lines 0 false)
    as (k & Hk & Hc).
  exists k. split; [exact Hk|]. split; [exact Hc|].
  apply (func_steps_length h k), Hk.
Qed.

Lemma func_substitute_only_inserts_witness :
  exists k,
    steps (func_edit (rule "math")) k (str "y = sin(x) + cos(x);")
          (fst (func_substitute (rule "math") (func_pattern (rule "math"))
                  (str "y = sin(x) + cos(x);"))) /\
    snd (func_substitute (rule "math") (func_pattern (rule "math"))
           (str "y = sin(x) + cos(x);")) = (0 <? k) /\
    length (fst (func_substitute (rule "math") (func_pattern (rule "math"))
                   (str "y = sin(x) + cos(x);"))) =
    length (str "y = sin(x) + cos(x);") + 5 * k.
Proof.
  apply (func_substitute_only_inserts (rule "math")
           (str "y = sin(x) + cos(x);")).
  reflexivity.
Defined.

(** ** What the engine never touches *)

Lemma steps_invariant (A : Type) (R : text -> text -> Prop) (f : text -> A) :
  (forall l l', R l l' -> f l = f l') ->
  forall k l l', steps R k l l' -> f l = f l'.
Proof.
  intros HR k l l' H. induction H as [l|k l1 l2 l3 H1 _ IH]; [reflexivity|].
  rewrite (HR _ _ H1). exact IH.
Qed.

Lemma count_char_absent (x : char) (l : text) :
  existsb (char_eqb x) l = false -> count_char x l = 0.
Proof.
  unfold count_char. induction l as [|y l IH]; [reflexivity|]. simpl.
  intros H. apply orb_false_iff in H. destruct H as [-> H]. apply IH, H.
Qed.

Lemma existsb_incl (x : char) (l l' : text) :
  incl l l' -> existsb (char_eqb x) l' = false ->
  existsb (char_eqb x) l = false.
Proof.
  intros Hi H. destruct (existsb (char_eqb x) l) eqn:E; [|reflexivity].
  apply existsb_exists in E. destruct E as (y & Hy & Ey).
  rewrite <- H. symmetry. apply existsb_exists. exists y.
  split; [apply Hi, Hy | exact Ey].
Qed.

Section OtherChars.
Variable x : char.
Hypothesis Hx : existsb (char_eqb x) std_chars = false.

Lemma count_std : count_char x (str "std::") = 0.
Proof.
  apply count_char_absent, (existsb_incl x _ std_chars); [|exact Hx].
  intros y Hy. simpl in Hy. unfold std_chars. simpl. tauto.
Qed.

Lemma count_dot_h : count_char x (str ".h") = 0.
Proof.
  apply count_char_absent, (existsb_incl x _ std_chars); [|exact Hx].
  intros y Hy. simpl in Hy. unfold std_chars. simpl. tauto.
Qed.

Lemma count_c : count_char x (str "c") = 0.
Proof.
  apply count_char_absent, (existsb_incl x _ std_chars); [|exact Hx].
  intros y Hy. simpl in Hy. unfold std_chars. simpl. tauto.
Qed.

Lemma count_prefixes (h : Header) :
  count_char x (regex_prefix h) = 0 /\ count_char x (prefix h) = 0.
Proof.
  unfold regex_prefix, prefix.
  destruct (add_prefix h); split; try reflexivity; apply count_std.
Qed.

Lemma count_include (h : Header) :
  count_char x (include_before h) = count_char x (include_after h).
Proof.
  unfold include_before, include_after.
  destruct (add_prefix h); rewrite !count_char_app, count_dot_h, count_c; lia.
Qed.

Lemma edit_count (h : Header) (l l' : text) :
  edit h l l' -> count_char x l = count_char x l'.
Proof.
  intros [H | [[_ H] | (re & _ & H)]].
  - destruct H as (a & c & -> & ->).
    rewrite !count_char_app, count_include. reflexivity.
  - destruct H as (a & b & g & c & _ & _ & _ & -> & ->).
    change (a ++ b :: g ++ chr "(" :: c)
      with (a ++ [b] ++ g ++ chr "(" :: c).
    change (a ++ b :: str "std::" ++ g ++ chr "(" :: c)
      with (a ++ [b] ++ str "std::" ++ g ++ chr "(" :: c).
    rewrite !count_char_app, count_std. reflexivity.
  - destruct H as (a & b & g & m2 & c & _ & _ & _ & -> & ->).
    destruct (count_prefixes h) as [H1 H2].
    change (a ++ b :: regex_prefix h ++ g ++ m2 ++ c)
      with (a ++ [b] ++ regex_prefix h ++ g ++ m2 ++ c).
    change (a ++ b :: prefix h ++ g ++ m2 ++ c)
      with (a ++ [b] ++ prefix h ++ g ++ m2 ++ c).
    rewrite !count_char_app, H1, H2. reflexivity.
Qed.
End OtherChars.

Lemma existsb_middle (p : char -> bool) (a : text) (b : char) (c : text) :
  p b = true -> existsb p (a ++ b :: c) = true.
Proof.
  intros H. rewrite existsb_app. simpl. rewrite H.
  apply orb_true_iff. right. reflexivity.
Qed.

Lemma edit_needs_boundary (h : Header) (l l' : text) :
  edit h l l' -> existsb is_type_boundary l = true.
Proof.
  intros [H | [[_ H] | (re & _ & H)]].
  - destruct H as (a & c & -> & _). unfold include_before.
    change (str "#include <") with (str "#include" ++ chr " " :: str "<").
    rewrite <- !app_assoc, (app_assoc a). cbn [app].
    apply existsb_middle. reflexivity.
  - destruct H as (a & b & g & c & Bb & _ & _ & -> & _).
    apply existsb_middle, func_boundary_type_boundary, Bb.
  - destruct H as (a & b & g & m2 & c & Bb & _ & _ & -> & _).
    apply existsb_middle, Bb.
Qed.

(** *** Call sites behind other characters *)

Lemma include_open_before_eq (h : Header) :
  include_before h = include_open_before h ++ [chr ">"].
Proof.
  unfold include_open_before, include_before.
  change (str ">") with [chr ">"].
  rewrite !app_assoc, removelast_last. reflexivity.
Qed.

Lemma include_open_after_eq (h : Header) :
  include_after h = include_open_after h ++ [chr ">"].
Proof.
  unfold include_open_after, include_after.
  change (str ">") with [chr ">"].
  rewrite !app_assoc, removelast_last. reflexivity.
Qed.

Lemma include_open_before_cons (h : Header) :
  include_open_before h = hash :: tl (include_open_before h).
Proof.
  unfold include_open_before, include_before.
  change (str ">") with [chr ">"].
  rewrite !app_assoc, removelast_last. reflexivity.
Qed.

Lemma headers_include_body_ok : forallb include_body_ok headers = true.
Proof. vm_compute. reflexivity. Qed.

Section CallBehindOther.
Variables (x : char) (ident : text).
Hypothesis Hx : is_func_boundary x = false.
Hypothesis Hid : is_identifier ident = true.

Let w := call_site x ident.

Let word : Forall (fun y => is_lower_digit y = true) ident :=
  is_identifier_word ident Hid.

Lemma other_tail_head (t w2 : text) (z : char) :
  w = t ++ z :: w2 -> t <> [] -> char_eqb z hash = false.
Proof.
  intros E Ht.
  destruct t as [|y t]; [congruence|]. unfold w, call_site in E.
  cbn [app] in E. injection E as _ H1.
  assert (Hin : In z (ident ++ [chr "("])).
  { change (chr "(") with 40%N. rewrite H1.
    apply in_or_app. right. left. reflexivity. }
  apply in_app_or in Hin. destruct Hin as [Hin | [<- | []]].
  - pose proof word as Hword.
    rewrite Forall_forall in Hword. apply Hword, lower_digit_facts in Hin.
    destruct Hin as (_ & _ & _ & ->). reflexivity.
  - reflexivity.
Qed.

Lemma other_survives_include (h : Header) :
  In h headers -> survives (h, PInclude) w.
Proof.
  unfold survives, pass_edit. cbn [fst snd].
  intros Hh l l' (a & c & -> & ->).
  rewrite include_open_before_eq, include_open_after_eq, <- !app_assoc.
  cbn [app]. apply occurrences_survive.
  - intros a' t w2 _ E Ht Hw.
    destruct w2 as [|z w2]; [congruence|].
    rewrite include_open_before_cons.
    cbn [app starts_with].
    rewrite (other_tail_head t w2 z E Ht). reflexivity.
  - intros j Hj.
    pose proof headers_include_body_ok as Hok.
    rewrite forallb_forall in Hok. specialize (Hok h Hh).
    unfold include_body_ok in Hok. rewrite forallb_forall in Hok.
    assert (Hj' : In j (seq 0 (length (include_open_before h))))
      by (apply in_seq; lia).
    specialize (Hok j Hj').
    unfold w, call_site.
    destruct (skipn j (include_open_before h)) as [|y r] eqn:Es.
    + apply (f_equal (@length char)) in Es.
      rewrite length_skipn in Es. change (length (@nil char)) with 0 in Es.
      lia.
    + cbn [tl] in Hok. cbn [app starts_with].
      change (r ++ chr ">" :: c) with (r ++ [chr ">"] ++ c).
      rewrite app_assoc, (not_call_word_sound ident word _ c Hok).
      apply andb_false_r.
Qed.

Lemma other_survives_func (h : Header) :
  In h headers -> survives (h, PFunc) w.
Proof.
  unfold survives, pass_edit. cbn [fst snd].
  intros Hh l l' [Hap (a0 & b' & g & c0 & Bb' & Hm & Lg & -> & ->)].
  change (a0 ++ b' :: g ++ chr "(" :: c0)
    with (a0 ++ [b'] ++ [] ++ g ++ chr "(" :: c0).
  change (a0 ++ b' :: str "std::" ++ g ++ chr "(" :: c0)
    with (a0 ++ [b'] ++ str "std::" ++ g ++ chr "(" :: c0).
  rewrite !(app_assoc a0).
  apply occurrences_survive; [|simpl; intros j Hj; lia].
  intros a' t w2 Ea E Ht Hw. exfalso.
  destruct (call_split x ident t w2 E Ht Hw word) as [-> _].
  { rewrite (last_of_suffix a0 a' t b' Ea Ht).
    apply func_boundary_type_boundary, Bb'. }
  apply app_inj_tail in Ea. destruct Ea as [_ <-]. congruence.
Qed.

Lemma other_survives_type (h : Header) :
  In h headers -> survives (h, PType) w.
Proof.
  unfold survives, pass_edit. cbn [fst snd].
  intros Hh l l' (re & E & a0 & b' & g & m2 & c0 & Bb' & Lg & _ & -> & ->).
  pose proof (type_words_complete h re g Hh E Lg) as Hg.
  pose proof headers_types_not_call as Hnc.
  rewrite forallb_forall in Hnc. specialize (Hnc h Hh).
  unfold types_not_call in Hnc. rewrite forallb_forall in Hnc.
  specialize (Hnc g Hg).
  unfold regex_prefix, prefix. destruct (add_prefix h) eqn:Hap.
  - change (a0 ++ b' :: str "" ++ g ++ m2 ++ c0)
      with (a0 ++ [b'] ++ [] ++ g ++ m2 ++ c0).
    change (a0 ++ b' :: str "std::" ++ g ++ m2 ++ c0)
      with (a0 ++ [b'] ++ str "std::" ++ g ++ m2 ++ c0).
    rewrite !(app_assoc a0).
    apply occurrences_survive; [|simpl; intros j Hj; lia].
    intros a' t w2 Ea Ew Ht Hw.
    destruct (call_split x ident t w2 Ew Ht Hw word) as [_ ->].
    { rewrite (last_of_suffix a0 a' t b' Ea Ht). exact Bb'. }
    cbn [app]. apply (not_call_word_sound ident word g), Hnc.
  - change (a0 ++ b' :: str "std::" ++ g ++ m2 ++ c0)
      with (a0 ++ [b'] ++ str "std::" ++ g ++ m2 ++ c0).
    change (a0 ++ b' :: str "" ++ g ++ m2 ++ c0)
      with (a0 ++ [b'] ++ [] ++ g ++ m2 ++ c0).
    rewrite !(app_assoc a0).
    apply occurrences_survive.
    + intros a' t w2 Ea Ew Ht Hw.
      destruct (call_split x ident t w2 Ew Ht Hw word) as [_ ->].
      { rewrite (last_of_suffix a0 a' t b' Ea Ht). exact Bb'. }
      rewrite (app_assoc (str "std::") g).
      apply (not_call_word_sound ident word (str "std::" ++ g)).
      reflexivity.
    + intros j Hj. unfold w, call_site.
      assert (Hj5 : j < 5) by exact Hj.
      destruct j as [|[|[|[|[|j]]]]]; [| | | | |lia];
        cbn [skipn str app starts_with]; apply andb_false_iff; right.
      * apply (not_call_word_sound ident word (str "td::" ++ g) (m2 ++ c0)).
        reflexivity.
      * apply (not_call_word_sound ident word (str "d::" ++ g) (m2 ++ c0)).
        reflexivity.
      * apply (not_call_word_sound ident word (str "::" ++ g) (m2 ++ c0)).
        reflexivity.
      * apply (not_call_word_sound ident word (str ":" ++ g) (m2 ++ c0)).
        reflexivity.
      * apply (not_call_word_sound ident word g (m2 ++ c0)), Hnc.
Qed.

Lemma other_survives (p : pass) : In p all_passes -> survives p w.
Proof.
  intros Hp. pose proof (all_passes_headers p Hp) as Hh.
  destruct p as [h [| |]]; simpl in Hh.
  - apply other_survives_include, Hh.
  - apply other_survives_func, Hh.
  - apply other_survives_type, Hh.
Qed.
End CallBehindOther.

Lemma sought_types_robust :
  forallb (fun g => passes_robust all_passes (newline :: g)) sought_types
  = true.
Proof. vm_compute. reflexivity. Qed.

(** X12: every change that the engine makes is one of four local edits:
    [std::] is deleted between a boundary character and a type name of a
    rule that removes the prefix, [std::] is inserted between a boundary
    character and an owned name with its open parenthesis or a type name
    of a prefixing rule, or an include directive of the table is replaced
    by its counterpart. The output is reached from the input by a number
    [k] of such edits, and [changed] is set exactly when [k] is not
    zero. *)
Theorem migrate_edit_sequence (lines : text) :
  exists k,
    steps (fun l l' => deletion l l' \/ insertion l l' \/
                       include_removal l l' \/ include_addition l l')
          k lines (fst (migrate lines)) /\
    snd (migrate lines) = (0 <? k).
Proof.
  destruct (migrate_steps lines) as (k & Hk & Hc).
  exists k. split; [|exact Hc].
  apply (steps_impl _ _ edit_of_kinds), Hk.
Qed.

(** X13: the engine inserts and deletes only characters of [std::] and of
    the spines [name.h] and [cname]: the number of occurrences of any other
    character is the same in the output as in the input. In particular the
    output has as many line breaks, hence lines, as the input. *)
Theorem migrate_keeps_other_chars (x : char) (lines : text) :
  existsb (char_eqb x) std_chars = false ->
  count_char x (fst (migrate lines)) = count_char x lines.
Proof.
  intros Hx. destruct (migrate_steps lines) as (k & Hk & _). symmetry.
  apply (steps_invariant nat (edit_of headers) (count_char x)) with (k := k);
    [|exact Hk].
  intros l l' (h & _ & He). apply (edit_count x Hx h l l' He).
Qed.

Lemma migrate_keeps_other_chars_witness :
  count_char newline
    (fst (migrate (str "#include <stdio.h>" ++ newline ::
                   str "int f() { return printf(x); }" ++ [newline]))) =
  count_char newline
    (str "#include <stdio.h>" ++ newline ::
     str "int f() { return printf(x); }" ++ [newline]).
Proof.
  apply (migrate_keeps_other_chars newline
           (str "#include <stdio.h>" ++ newline ::
            str "int f() { return printf(x); }" ++ [newline])).
  reflexivity.
Defined.

(** X14: every rewrite of the engine needs a space, a comma, an open
    parenthesis or a left angle bracket: a text that holds none of them is
    returned as it is, with [changed] unset. *)
Theorem migrate_without_boundary (lines : text) :
  existsb is_type_boundary lines = false ->
  migrate lines = (lines, false).
Proof.
  intros Hb. destruct (migrate_steps lines) as (k & Hk & Hc).
  destruct k as [|k].
  - apply steps_zero in Hk. rewrite (surjective_pairing (migrate lines)).
    rewrite <- Hk, Hc. reflexivity.
  - inversion Hk as [|k' l1 l2 l3 (h & _ & He) _]; subst.
    apply edit_needs_boundary in He. congruence.
Qed.

Lemma migrate_without_boundary_witness :
  migrate (str "std::size_t*p=malloc;" ++ newline :: str "FILE*f;") =
  (str "std::size_t*p=malloc;" ++ newline :: str "FILE*f;", false).
Proof.
  apply (migrate_without_boundary
           (str "std::size_t*p=malloc;" ++ newline :: str "FILE*f;")).
  reflexivity.
Defined.

(** X15: a call site is rewritten only behind a space, a comma or an open
    parenthesis: for every other character [x] (a line break, a tab, [=],
    [!], [>], ...) and every lowercase identifier, owned or not, no edit
    of any pass loses an occurrence of [x], the identifier and the open
    parenthesis, and the output of the engine has at least as many
    occurrences of it as the input. *)
Theorem call_behind_other_char_kept (x : char) (ident lines : text) :
  is_func_boundary x = false ->
  is_identifier ident = true ->
  (forall p, In p all_passes -> survives p (call_site x ident)) /\
  occurrences (call_site x ident) lines <=
  occurrences (call_site x ident) (fst (migrate lines)).
Proof.
  intros Hx Hid.
  pose proof (other_survives x ident Hx Hid) as Hs.
  split; [exact Hs|]. rewrite migrate_run_passes.
  apply (run_passes_count (call_site x ident) all_passes) with
    (st := (lines, false)).
  intros p Hp. split; [apply all_passes_headers, Hp | apply Hs, Hp].
Qed.

Lemma call_behind_other_char_kept_witness :
  (forall p, In p all_passes -> survives p (call_site newline (str "printf"))) /\
  occurrences (call_site newline (str "printf"))
    (str "{" ++ newline :: str "printf(x);}") <=
  occurrences (call_site newline (str "printf"))
    (fst (migrate (str "{" ++ newline :: str "printf(x);}"))).
Proof.
  apply (call_behind_other_char_kept newline (str "printf")
           (str "{" ++ newline :: str "printf(x);}")); reflexivity.
Defined.

(** X16: a type name at the beginning of a line is not matched (the
    limitation that the constructor of [Header] notes): for every type name
    that a rule of the table looks for, with [std::] in front for the rules
    that remove the prefix, the output of the engine has at least as many
    occurrences of a line break followed by it as the input. *)
Theorem type_at_line_start_kept (g lines : text) :
  In g sought_types ->
  occurrences (newline :: g) lines <=
  occurrences (newline :: g) (fst (migrate lines)).
Proof.
  intros Hg. apply migrate_count.
  pose proof sought_types_robust as H. rewrite forallb_forall in H.
  apply H, Hg.
Qed.

Lemma type_at_line_start_kept_witness :
  occurrences (newline :: str "FILE")
    (str "int x;" ++ newline :: str "FILE *f;") <=
  occurrences (newline :: str "FILE")
    (fst (migrate (str "int x;" ++ newline :: str "FILE *f;"))).
Proof.
  apply (type_at_line_start_kept (str "FILE")
           (str "int x;" ++ newline :: str "FILE *f;")).
  vm_compute. tauto.
Defined.

(** ** Passes that are idempotent *)

Lemma star_cls_complete (A : Type) (p : char -> bool) (m : text) :
  Forall (fun c => p c = true) m ->
  forall (rest : text) (k : text -> option A),
    k rest <> None -> star_cls p (m ++ rest) k <> None.
Proof.
  induction 1 as [|c m Hc _ IH]; intros rest k Hk.
  - destruct rest as [|c s]; simpl; [exact Hk|].
    destruct (p c); [|exact Hk].
    destruct (star_cls p s k); [discriminate | exact Hk].
  - simpl. rewrite Hc.
    destruct (star_cls p (m ++ rest) k) eqn:E; [discriminate|].
    exfalso. exact (IH rest k Hk E).
Qed.

(** The matcher finds a match whenever there is one. *)
Lemma rmatch_complete (A : Type) (r : regex) :
  forall (m rest : text) (k : text -> option A),
    lang r m -> k rest <> None -> rmatch r (m ++ rest) k <> None.
Proof.
  induction r as [l|p|r1 IH1 r2 IH2|r1 IH1 r2 IH2|r1 IH1|p|p];
    intros m rest k L Hk; simpl in L; cbn [rmatch].
  - subst m.
    assert (E : drop_prefix l (l ++ rest) = Some rest)
      by (apply drop_prefix_app; reflexivity).
    rewrite E. exact Hk.
  - destruct L as (c & -> & Hc). simpl. rewrite Hc. exact Hk.
  - destruct L as (m1 & m2 & -> & L1 & L2). rewrite <- app_assoc.
    apply IH1; [exact L1|]. apply IH2; assumption.
  - destruct (rmatch r1 (m ++ rest) k) eqn:E; [discriminate|].
    destruct L as [L | L]; [exfalso; exact (IH1 m rest k L Hk E)|].
    apply IH2; assumption.
  - destruct (rmatch r1 (m ++ rest) k) eqn:E; [discriminate|].
    destruct L as [-> | L]; [exact Hk|].
    exfalso. exact (IH1 m rest k L Hk E).
  - apply star_cls_complete; assumption.
  - destruct L as [Hm L]. destruct m as [|c m]; [congruence|].
    inversion L; subst. simpl. rewrite H1.
    apply star_cls_complete; assumption.
Qed.

Lemma lookahead_head (m : text) :
  lang type_lookahead m ->
  exists y m', m = y :: m' /\ lang type_lookahead [y].
Proof.
  unfold type_lookahead, lit. simpl.
  intros [-> | [-> | [-> | [-> | [Hm L]]]]].
  - eexists _, _. split; [reflexivity|]. auto.
  - eexists _, _. split; [reflexivity|]. auto.
  - eexists _, _. split; [reflexivity|]. auto 6.
  - eexists _, _. split; [reflexivity|]. auto 6.
  - destruct m as [|y m]; [congruence|]. inversion L; subst.
    exists y, m. split; [reflexivity|].
    right; right; right; right. split; [discriminate|].
    constructor; [assumption | constructor].
Qed.

Lemma split_at_boundary (t : text) :
  exists mw,
    existsb is_type_boundary mw = false /\
    (t = mw \/
     exists b rest, is_type_boundary b = true /\ t = mw ++ b :: rest).
Proof.
  induction t as [|x t (mw & Hmw & IH)].
  - exists []. auto.
  - destruct (is_type_boundary x) eqn:Bx.
    + exists []. split; [reflexivity|]. right. exists x, t. auto.
    + exists (x :: mw). split; [simpl; rewrite Bx; exact Hmw|].
      destruct IH as [-> | (b & rest & Bb & ->)]; [left; reflexivity|].
      right. exists b, rest. auto.
Qed.

Lemma existsb_not_in (b : char) (l : text) :
  is_type_boundary b = true -> existsb is_type_boundary l = false ->
  ~ In b l.
Proof.
  intros Bb H Hin.
  assert (E : existsb is_type_boundary l = true)
    by (apply existsb_exists; exists b; auto).
  congruence.
Qed.

Section TypeIdem.
Variable h : Header.
Variable re : pattern.
Hypothesis Hpre : pat_pre re = Lit (regex_prefix h).
Hypothesis Hne : forall g, lang (pat_grp re) g -> g <> [].
Hypothesis Hpost : pat_post re = type_lookahead.
Hypothesis Hold : forall g,
  lang (pat_grp re) g ->
  existsb is_type_boundary (regex_prefix h ++ g) = false.
Hypothesis Hnew : forall g,
  lang (pat_grp re) g -> existsb is_type_boundary (prefix h ++ g) = false.
Hypothesis Hfresh : forall g g',
  lang (pat_grp re) g -> lang (pat_grp re) g' ->
  mismatch (regex_prefix h ++ g') (prefix h ++ g) = true.

Let sub := sub_go type_lookbehind re (type_sub h).

Lemma idem_cons (prev : option char) (c : char) (t : text) :
  sub prev 0 (c :: t) =
  match match_at type_lookbehind re prev (c :: t) with
  | Some (a, b) =>
      type_sub h (slice (c :: t) a b) ++
      match b with
      | 0 => c :: sub (Some c) 0 t
      | S k => sub prev (S k) (c :: t)
      end
  | None => c :: sub (Some c) 0 t
  end.
Proof. reflexivity. Qed.

Lemma idem_nil (prev : option char) : sub prev 0 [] = [].
Proof. apply (sub_go_nil h re Hpre Hne). Qed.

Lemma match_suffixes_complete (g m2 s' : text) :
  lang (pat_grp re) g -> lang (pat_post re) m2 ->
  match_suffixes re ((regex_prefix h ++ g) ++ m2 ++ s') <> None.
Proof.
  intros Lg Lm. unfold match_suffixes. rewrite Hpre. cbn [rmatch].
  assert (E : drop_prefix (regex_prefix h)
                ((regex_prefix h ++ g) ++ m2 ++ s') = Some (g ++ m2 ++ s')).
  { apply drop_prefix_app. rewrite <- app_assoc. reflexivity. }
  rewrite E. apply rmatch_complete; [exact Lg|].
  apply rmatch_complete; [exact Lm | discriminate].
Qed.

(** Text without boundary characters, read behind a character that is not
    a boundary, is copied. *)
Lemma sub_plain_app (mw : text) :
  existsb is_type_boundary mw = false ->
  forall (prev : option char) (X : text),
    type_lookbehind prev = false ->
    sub prev 0 (mw ++ X) =
    mw ++ sub (match last_opt mw with Some z => Some z | None => prev end)
              0 X.
Proof.
  induction mw as [|y mw IH]; intros Hmw prev X Hlb; [reflexivity|].
  simpl in Hmw. apply orb_false_iff in Hmw. destruct Hmw as [Hy Hmw].
  change ((y :: mw) ++ X) with (y :: mw ++ X).
  rewrite idem_cons. unfold match_at. rewrite Hlb.
  rewrite (IH Hmw (Some y) X Hy).
  destruct mw as [|z mw]; reflexivity.
Qed.

Lemma sub_plain (mw : text) (prev : option char) :
  existsb is_type_boundary mw = false -> type_lookbehind prev = false ->
  sub prev 0 mw = mw.
Proof.
  intros Hmw Hlb. rewrite <- (app_nil_r mw) at 1.
  rewrite (sub_plain_app mw Hmw prev [] Hlb), idem_nil. apply app_nil_r.
Qed.

(** The pass creates no match in front of the text that it rewrites. *)
Lemma no_new_match (prev : option char) (c : char) (t : text) :
  match_at type_lookbehind re prev (c :: t) = None ->
  match_at type_lookbehind re prev (c :: sub (Some c) 0 t) = None.
Proof.
  intros Hnone.
  destruct (match_at type_lookbehind re prev (c :: sub (Some c) 0 t))
    as [[a e]|] eqn:E0; [exfalso|reflexivity].
  pose proof E0 as E.
  apply (type_match_sound h re Hpre Hne) in E.
  destruct E as (bc & G & M2 & S' & Hprev & Bb & E & LG & LM & HG & _ & _).
  pose proof (Hold G LG) as HW.
  assert (Hc : is_type_boundary c = false).
  { destruct (regex_prefix h ++ G) as [|x W'] eqn:EW.
    - destruct (regex_prefix h); destruct G; try discriminate; congruence.
    - simpl in E. injection E as -> _. simpl in HW.
      apply orb_false_iff in HW. apply HW. }
  destruct (split_at_boundary t) as (mw & Hmw & [Et | (b & rest0 & Bb0 & Et)]).
  - rewrite Et, (sub_plain mw (Some c) Hmw Hc), <- Et in E0. congruence.
  - rewrite Et, (sub_plain_app mw Hmw (Some c) (b :: rest0) Hc) in E.
    rewrite idem_cons in E.
    assert (Hlb : type_lookbehind
                    (match last_opt mw with Some z => Some z | None => Some c end)
                  = false).
    { destruct mw as [|z mw]; [exact Hc|].
      unfold last_opt, type_lookbehind.
      destruct (is_type_boundary (last (z :: mw) 0%N)) eqn:El; [|reflexivity].
      assert (Hin : In (last (z :: mw) 0%N) (z :: mw)).
      { destruct (exists_last (l := z :: mw) ltac:(discriminate))
          as (l' & u & Eu).
        rewrite Eu, last_last. apply in_or_app. right. left. reflexivity. }
      exfalso. exact (existsb_not_in _ _ El Hmw Hin). }
    unfold match_at in E. rewrite Hlb in E.
    change (c :: mw ++ b :: sub (Some b) 0 rest0)
      with ((c :: mw) ++ b :: sub (Some b) 0 rest0) in E.
    symmetry in E.
    destruct (app_sep_split b (regex_prefix h ++ G)
                (existsb_not_in b _ Bb0 HW)
                (c :: mw) (M2 ++ S') _ E) as (pre' & Ep & Ex).
    rewrite Hpost in LM.
    destruct (lookahead_head M2 LM) as (y & M2' & -> & Ly).
    assert (Et' : exists tail, c :: t = (regex_prefix h ++ G) ++ [y] ++ tail).
    { rewrite Et. change (c :: mw ++ b :: rest0) with ((c :: mw) ++ b :: rest0).
      rewrite Ep, <- app_assoc.
      destruct pre' as [|y' pre'']; simpl in Ex; injection Ex as <- _.
      - exists rest0. reflexivity.
      - exists (pre'' ++ b :: rest0). reflexivity. }
    destruct Et' as (tail & Et').
    rewrite <- Hpost in Ly.
    pose proof (match_suffixes_complete G [y] tail LG Ly) as Hm.
    rewrite <- Et' in Hm.
    unfold match_at in Hnone. rewrite Hprev in Hnone. simpl in Hnone.
    rewrite Bb in Hnone. unfold match_here in Hnone.
    destruct (match_suffixes re (c :: t)) as [[s1 s2]|];
      [discriminate | congruence].
Qed.

(** What the pass writes is copied by a second pass. *)
Lemma sub_copy (prev : option char) (g o : text) :
  lang (pat_grp re) g ->
  sub prev 0 ((prefix h ++ g) ++ o) = (prefix h ++ g) ++ sub (last_opt g) 0 o.
Proof.
  intros Lg. pose proof (Hnew g Lg) as Hu. pose proof (Hne g Lg) as Hg.
  assert (Hl : last_opt (prefix h ++ g) = last_opt g)
    by (apply last_opt_app, Hg).
  destruct (prefix h ++ g) as [|x u'] eqn:Eu.
  { destruct (prefix h); destruct g; try discriminate; congruence. }
  change ((x :: u') ++ o) with (x :: u' ++ o). rewrite idem_cons.
  destruct (match_at type_lookbehind re prev (x :: u' ++ o))
    as [[a e]|] eqn:E.
  - exfalso. apply (type_match_sound h re Hpre Hne) in E.
    destruct E as (bc & G & M2 & S' & _ & _ & E & LG & _).
    pose proof (Hfresh g G Lg LG) as Hm. rewrite Eu in Hm.
    apply mismatch_starts_with with (c := o) in Hm.
    change ((x :: u') ++ o) with (x :: u' ++ o) in Hm.
    assert (Hs : starts_with (regex_prefix h ++ G) (x :: u' ++ o) = true).
    { apply starts_with_app. exists (M2 ++ S'). exact E. }
    congruence.
  - simpl in Hu. apply orb_false_iff in Hu. destruct Hu as [Hx Hu'].
    rewrite (sub_plain_app u' Hu' (Some x) o Hx).
    cbn [app]. f_equal. f_equal. f_equal.
    rewrite <- Hl. destruct u' as [|z u']; reflexivity.
Qed.

Lemma sub_go_idem (n : nat) :
  forall (s : text),
    length s <= n ->
    forall prev, sub prev 0 (sub prev 0 s) = sub prev 0 s.
Proof.
  induction n as [|n IH]; intros s Hlen prev.
  - destruct s; [|simpl in Hlen; lia]. rewrite !idem_nil. reflexivity.
  - destruct s as [|c t]; [rewrite !idem_nil; reflexivity|].
    simpl in Hlen. rewrite (idem_cons prev c t).
    destruct (match_at type_lookbehind re prev (c :: t)) as [[a b]|] eqn:E.
    + apply (type_match_sound h re Hpre Hne) in E.
      destruct E as (bc & g & m2 & s' & Hprev & Bb & E & Lg & L2 & Hg & -> & Sl).
      rewrite Sl.
      assert (Hmne : regex_prefix h ++ g <> []).
      { destruct (regex_prefix h); destruct g; try discriminate; congruence. }
      destruct (length (regex_prefix h ++ g)) as [|k] eqn:Hb.
      { destruct (regex_prefix h ++ g); [congruence | discriminate]. }
      assert (Hskip : sub prev (S k) (c :: t) =
                      sub (last_opt g) 0 (m2 ++ s')).
      { unfold sub.
        rewrite (sub_go_skip h re Hpre Hne), <- Hb, E, prev_after_app
          by exact Hmne.
        rewrite skipn_app, skipn_all, Nat.sub_diag. simpl skipn. simpl app.
        rewrite last_opt_app by exact Hg. reflexivity. }
      rewrite Hskip. unfold type_sub.
      rewrite (sub_copy prev g _ Lg). f_equal.
      apply IH.
      assert (length (c :: t) = S k + length (m2 ++ s'))
        by (rewrite E, length_app, Hb; reflexivity).
      simpl in H. lia.
    + rewrite idem_cons, (no_new_match prev c t E). f_equal.
      apply IH. lia.
Qed.

Lemma re_sub_idem (s : text) :
  re_sub type_lookbehind re (type_sub h)
    (re_sub type_lookbehind re (type_sub h) s) =
  re_sub type_lookbehind re (type_sub h) s.
Proof. apply (sub_go_idem (length s) s (le_n _) None). Qed.
End TypeIdem.

Lemma headers_resub_ok : forallb resub_ok headers = true.
Proof. vm_compute. reflexivity. Qed.

Lemma type_regex_post (h : Header) (re : pattern) :
  type_regex h = Some re -> pat_post re = type_lookahead.
Proof.
  unfold type_regex. destruct (type_regexes h); [discriminate|].
  intros H; inversion H; reflexivity.
Qed.

Lemma type_step_idem (h : Header) (st : text * bool) :
  In h headers -> type_step h (type_step h st) = type_step h st.
Proof.
  intros Hh. destruct st as [l c]. unfold type_step.
  destruct (type_regex h) as [re|] eqn:E; [|reflexivity].
  pose proof headers_resub_ok as Hok. rewrite forallb_forall in Hok.
  specialize (Hok h Hh). unfold resub_ok in Hok.
  rewrite forallb_forall in Hok.
  assert (Hw : forall g, lang (pat_grp re) g ->
            forallb (fun g' => mismatch (regex_prefix h ++ g') (prefix h ++ g))
                    (type_words h) = true /\
            existsb is_type_boundary (regex_prefix h ++ g) = false /\
            existsb is_type_boundary (prefix h ++ g) = false).
  { intros g Lg. specialize (Hok g (type_words_complete h re g Hh E Lg)).
    apply andb_true_iff in Hok. destruct Hok as [Hok H3].
    apply andb_true_iff in Hok. destruct Hok as [H1 H2].
    apply negb_true_iff in H2, H3. auto. }
  rewrite (re_sub_idem h re (type_regex_pre h re E)
             (headers_nonempty_lang h re Hh E) (type_regex_post h re E)).
  - rewrite Nat.eqb_refl, andb_false_r. reflexivity.
  - intros g Lg. apply (Hw g Lg).
  - intros g Lg. apply (Hw g Lg).
  - intros g g' Lg Lg'. destruct (Hw g Lg) as [H1 _].
    rewrite forallb_forall in H1.
    apply H1, (type_words_complete h re g' Hh E Lg').
Qed.

Lemma include_step_idem (h : Header) (st : text * bool) :
  In h headers -> include_step h (include_step h st) = include_step h st.
Proof.
  intros Hh. destruct st as [l c]. unfold include_step.
  destruct (contains (include_before h) l) eqn:E.
  - rewrite (include_step_free h l Hh). reflexivity.
  - rewrite E. reflexivity.
Qed.

(** X17: the include step and the type pass of every rule of the table are
    idempotent: applied to their own result they return it as it is, text
    and flag. (The function pass is not, see C1 and C2.) *)
Theorem include_and_type_pass_idempotent (h : Header) (st : text * bool) :
  In h headers ->
  include_step h (include_step h st) = include_step h st /\
  type_step h (type_step h st) = type_step h st.
Proof.
  intros Hh. split; [apply include_step_idem | apply type_step_idem]; exact Hh.
Qed.

Lemma include_and_type_pass_idempotent_witness :
  include_step (rule "stdio")
    (include_step (rule "stdio") (str "#include <stdio.h> FILE *f;", false)) =
  include_step (rule "stdio") (str "#include <stdio.h> FILE *f;", false) /\
  type_step (rule "stdio")
    (type_step (rule "stdio") (str "#include <stdio.h> FILE *f;", false)) =
  type_step (rule "stdio") (str "#include <stdio.h> FILE *f;", false).
Proof.
  apply (include_and_type_pass_idempotent (rule "stdio")
           (str "#include <stdio.h> FILE *f;", false)).
  apply rule_In. reflexivity.
Defined.

(** ** Every type name of the table is rewritten *)

Lemma words_sound (r : regex) :
  forall m, In m (words r) -> lang r m.
Proof.
  induction r as [l|p|r1 IH1 r2 IH2|r1 IH1 r2 IH2|r1 IH1|p|p];
    intros m H; simpl in H |- *; try contradiction.
  - destruct H as [<- | []]. reflexivity.
  - apply in_flat_map in H. destruct H as (m1 & H1 & H).
    apply in_map_iff in H. destruct H as (m2 & <- & H2).
    exists m1, m2. auto.
  - apply in_app_or in H. destruct H as [H | H]; auto.
  - destruct H as [<- | H]; auto.
Qed.

Lemma lookahead_first (m : text) :
  lang type_lookahead m ->
  exists y m', m = y :: m' /\ In y lookahead_chars.
Proof.
  unfold type_lookahead, lit, lookahead_chars. simpl.
  intros [-> | [-> | [-> | [-> | [Hm L]]]]];
    try (eexists _, _; split; [reflexivity|]; simpl; tauto).
  destruct m as [|y m]; [congruence|]. inversion L; subst.
  exists y, m. split; [reflexivity|].
  apply char_eqb_eq in H1. subst y. simpl. tauto.
Qed.

Lemma lookahead_single (la : char) :
  In la lookahead_chars -> lang type_lookahead [la].
Proof.
  unfold type_lookahead, lit, lookahead_chars. simpl.
  intros [<- | [<- | [<- | [<- | [<- | []]]]]]; auto 6.
  right; right; right; right. split; [discriminate|].
  constructor; [reflexivity | constructor].
Qed.

Lemma prefix_unique (L : list char) (m1 : text) :
  forall (g : text) (y1 y2 : char) (r1 r2 : text),
    (forall c, In c L -> ~ In c m1) -> (forall c, In c L -> ~ In c g) ->
    In y1 L -> In y2 L ->
    m1 ++ y1 :: r1 = g ++ y2 :: r2 -> m1 = g /\ y1 :: r1 = y2 :: r2.
Proof.
  induction m1 as [|x m1 IH]; intros g y1 y2 r1 r2 H1 H2 Hy1 Hy2 E.
  - destruct g as [|z g]; [auto|]. exfalso. simpl in E. injection E as -> _.
    apply (H2 z Hy1). left. reflexivity.
  - destruct g as [|z g]; simpl in E.
    + exfalso. injection E as -> _. apply (H1 y2 Hy2). left. reflexivity.
    + injection E as -> E.
      destruct (IH g y1 y2 r1 r2) as [-> Hr]; auto.
      * intros c Hc Hin. apply (H1 c Hc). right. exact Hin.
      * intros c Hc Hin. apply (H2 c Hc). right. exact Hin.
Qed.

Lemma type_match_exact (h : Header) (re : pattern) (g : text) (la : char)
    (y : text) :
  pat_pre re = Lit (regex_prefix h) -> pat_post re = type_lookahead ->
  lang (pat_grp re) g ->
  (forall m, lang (pat_grp re) m ->
             forall c, In c lookahead_chars -> ~ In c m) ->
  In la lookahead_chars ->
  match_suffixes re ((regex_prefix h ++ g) ++ [la] ++ y) =
  Some (g ++ [la] ++ y, [la] ++ y).
Proof.
  intros Hpre Hpost Lg Hfree Hla.
  destruct (match_suffixes re ((regex_prefix h ++ g) ++ [la] ++ y))
    as [[s1 s2]|] eqn:E.
  - unfold match_suffixes in E. rewrite Hpre in E.
    apply rmatch_sound in E. destruct E as (m0 & t1 & E0 & L0 & E).
    apply rmatch_sound in E. destruct E as (m1 & t2 & E1 & L1 & E).
    apply rmatch_sound in E. destruct E as (m2 & t3 & E2 & L2 & E).
    injection E as <- <-. simpl in L0. subst m0.
    rewrite <- app_assoc in E0. apply app_inv_head in E0.
    rewrite Hpost in L2.
    destruct (lookahead_first m2 L2) as (y2 & m2' & -> & Hy2).
    rewrite E1, E2 in E0. cbn [app] in E0.
    destruct (prefix_unique lookahead_chars g m1 la y2 y (m2' ++ t3)
                (Hfree g Lg) (Hfree m1 L1) Hla Hy2 E0) as [<- Hr].
    rewrite E1, E2. cbn [app]. rewrite <- Hr. reflexivity.
  - exfalso.
    apply (match_suffixes_complete h re Hpre g [la] y Lg); [|exact E].
    rewrite Hpost. apply lookahead_single, Hla.
Qed.

Lemma all_passes_type (hs : list Header) :
  forall i h,
    nth_error hs i = Some h ->
    nth_error (flat_map passes_of_header hs) (3 * i + 2) = Some (h, PType).
Proof.
  induction hs as [|x hs IH]; intros [|i] h H; simpl in H; try discriminate.
  - inversion H. reflexivity.
  - replace (3 * S i + 2) with (S (S (S (3 * i + 2)))) by lia. simpl.
    apply IH, H.
Qed.

Lemma headers_types_plain : forallb types_plain headers = true.
Proof. vm_compute. reflexivity. Qed.

Lemma headers_type_rewrite_robust :
  forallb type_rewrite_robust (seq 0 (length headers)) = true.
Proof. vm_compute. reflexivity. Qed.

Lemma boundary_chars_In (b : char) :
  is_type_boundary b = true -> In b boundary_chars.
Proof.
  intros H. apply type_boundary_cases in H.
  destruct H as [-> | [-> | [-> | ->]]]; unfold boundary_chars; simpl; tauto.
Qed.

(** The type pass of a rule rewrites each of its type names that stands
    between a boundary character and a lookahead character. *)
Lemma type_pass_rewrites (h : Header) (g : text) (b la : char) (l : text)
    (c : bool) :
  In h headers -> In g (type_words h) ->
  is_type_boundary b = true -> In la lookahead_chars ->
  contains (b :: regex_prefix h ++ g ++ [la]) l = true ->
  contains (b :: prefix h ++ g ++ [la])
           (fst (run_pass (h, PType) (l, c))) = true.
Proof.
  intros Hh Hg Bb Hla Hc. unfold run_pass, type_step. cbn [fst snd].
  unfold type_words in Hg.
  destruct (type_regex h) as [re|] eqn:E; [|contradiction].
  cbn [fst].
  pose proof (words_sound _ g Hg) as Lg.
  pose proof headers_types_plain as Hp. rewrite forallb_forall in Hp.
  specialize (Hp h Hh). unfold types_plain in Hp.
  apply andb_true_iff in Hp. destruct Hp as [Hsep Hfree].
  rewrite forallb_forall in Hsep, Hfree.
  pose proof headers_resub_ok as Hok. rewrite forallb_forall in Hok.
  specialize (Hok h Hh). unfold resub_ok in Hok.
  rewrite forallb_forall in Hok.
  assert (Hw : In g (type_words h)) by (unfold type_words; rewrite E; exact Hg).
  specialize (Hok g Hw).
  apply andb_true_iff in Hok. destruct Hok as [Hok _].
  apply andb_true_iff in Hok. destruct Hok as [_ Hold].
  apply negb_true_iff in Hold.
  assert (Hne : g <> []) by (apply (headers_nonempty_lang h re Hh E g Lg)).
  apply (type_pass_hit h re b g [la] l Hh E Bb); try assumption.
  - apply Hsep, boundary_chars_In, Bb.
  - intros y.
    apply (type_match_exact h re g la y (type_regex_pre h re E)
             (type_regex_post h re E) Lg); [|exact Hla].
    intros m Lm x Hx Hin.
    specialize (Hfree m (type_words_complete h re m Hh E Lm)).
    rewrite forallb_forall in Hfree. specialize (Hfree x Hx).
    apply negb_true_iff, not_existsb_In in Hfree. exact (Hfree Hin).
  - intros y. exists (sub_go type_lookbehind re (type_sub h) (Some la) 0 y).
    cbn [app sub_go]. unfold match_at.
    assert (Hlb : type_lookbehind (last_opt g) = false).
    { destruct g as [|z g']; [congruence|].
      unfold last_opt, type_lookbehind.
      destruct (is_type_boundary (last (z :: g') 0%N)) eqn:El; [|reflexivity].
      exfalso.
      assert (Hin : In (last (z :: g') 0%N) (regex_prefix h ++ z :: g')).
      { apply in_or_app. right.
        destruct (exists_last (l := z :: g') ltac:(discriminate))
          as (l' & u & Eu).
        rewrite Eu, last_last. apply in_or_app. right. left. reflexivity. }
      exact (existsb_not_in _ _ El Hold Hin). }
    rewrite Hlb. reflexivity.
Qed.

(** X18: every type name of the table is rewritten wherever the
    expression can match it: for every rule, every type name that it looks
    for, every boundary character ([<], space, comma, open parenthesis)
    before and every lookahead character (close parenthesis, comma,
    semicolon, space, asterisk) behind, if the input holds the name in
    that context (with [std::] for a rule that removes the prefix), then
    the output of the engine holds it there with the prefix added, or
    removed. *)
Theorem type_names_rewritten (h : Header) (g : text) (b la : char)
    (lines : text) :
  In h headers -> In g (type_words h) ->
  is_type_boundary b = true -> In la lookahead_chars ->
  contains (b :: regex_prefix h ++ g ++ [la]) lines = true ->
  contains (b :: prefix h ++ g ++ [la]) (fst (migrate lines)) = true.
Proof.
  intros Hh Hg Bb Hla Hc.
  pose proof Hh as Hi. apply In_nth_error in Hi. destruct Hi as (i & Hi).
  assert (Hlt : i < length headers) by (apply nth_error_Some; congruence).
  pose proof headers_type_rewrite_robust as Hr. rewrite forallb_forall in Hr.
  specialize (Hr i ltac:(apply in_seq; lia)).
  unfold type_rewrite_robust in Hr. rewrite Hi in Hr.
  rewrite forallb_forall in Hr. specialize (Hr g Hg).
  rewrite forallb_forall in Hr. specialize (Hr b (boundary_chars_In b Bb)).
  rewrite forallb_forall in Hr. specialize (Hr la Hla).
  apply andb_true_iff in Hr. destruct Hr as [Hbefore Hafter].
  pose proof (all_passes_type headers i h Hi) as Hn. fold all_passes in Hn.
  apply (migrate_rewrites (3 * i + 2) (h, PType)
           (b :: regex_prefix h ++ g ++ [la])); try assumption.
  intros l c H. apply type_pass_rewrites; assumption.
Qed.

Lemma type_names_rewritten_witness :
  contains (chr "(" :: prefix (rule "stdint") ++
            str "uint_least16_t" ++ [chr "*"])
    (fst (migrate (str "f(std::uint_least16_t* p, int x);"))) = true.
Proof.
  apply (type_names_rewritten (rule "stdint") (str "uint_least16_t")
           (chr "(") (chr "*") (str "f(std::uint_least16_t* p, int x);")).
  - apply rule_In. reflexivity.
  - vm_compute. tauto.
  - reflexivity.
  - vm_compute. tauto.
  - vm_compute. reflexivity.
Defined.

(** ** The printed report *)

Lemma split_plain (sep : char) (a : text) :
  ~ In sep a -> split sep a = [a].
Proof.
  induction a as [|c a IH]; intros H; [reflexivity|].
  simpl. destruct (char_eqb c sep) eqn:E.
  - exfalso. apply char_eqb_eq in E. apply H. left. exact E.
  - rewrite IH; [reflexivity|]. intros Hin. apply H. right. exact Hin.
Qed.

Lemma split_app_sep (sep : char) (a r : text) :
  ~ In sep a -> split sep (a ++ sep :: r) = a :: split sep r.
Proof.
  induction a as [|c a IH]; intros H.
  - simpl. rewrite char_eqb_refl. reflexivity.
  - simpl. destruct (char_eqb c sep) eqn:E.
    + exfalso. apply char_eqb_eq in E. apply H. left. exact E.
    + rewrite IH; [reflexivity|]. intros Hin. apply H. right. exact Hin.
Qed.

(** [split] undoes [join] on lines that hold no separator. *)
Lemma split_join (sep : char) (ls : list text) :
  ls <> [] -> Forall (fun l => ~ In sep l) ls ->
  split sep (join [sep] ls) = ls.
Proof.
  induction ls as [|l ls IH]; intros Hne H; [congruence|].
  inversion H as [|l0 ls0 Hl Hls]; subst.
  destruct ls as [|l' ls].
  - simpl. apply split_plain, Hl.
  - change (join [sep] (l :: l' :: ls))
      with (l ++ sep :: join [sep] (l' :: ls)).
    rewrite (split_app_sep sep l _ Hl), IH; [reflexivity | discriminate |].
    exact Hls.
Qed.

Lemma split_join_end (sep : char) (ls : list text) :
  ls <> [] -> Forall (fun l => ~ In sep l) ls ->
  split sep (join [sep] ls ++ [sep]) = ls ++ [[]].
Proof.
  induction ls as [|l ls IH]; intros Hne H; [congruence|].
  inversion H as [|l0 ls0 Hl Hls]; subst.
  destruct ls as [|l' ls].
  - simpl join. rewrite (split_app_sep sep l [] Hl). reflexivity.
  - change (join [sep] (l :: l' :: ls))
      with (l ++ sep :: join [sep] (l' :: ls)).
    rewrite <- app_assoc. cbn [app].
    rewrite (split_app_sep sep l _ Hl), IH; [reflexivity | discriminate |].
    exact Hls.
Qed.

Lemma join_end (sep : char) (ls : list text) :
  ls <> [] ->
  join [sep] ls ++ [sep] = flat_map (fun l => l ++ [sep]) ls.
Proof.
  induction ls as [|l ls IH]; intros Hne; [congruence|].
  destruct ls as [|l' ls].
  - simpl. rewrite app_nil_r. reflexivity.
  - change (join [sep] (l :: l' :: ls))
      with (l ++ [sep] ++ join [sep] (l' :: ls)).
    change (flat_map (fun l0 => l0 ++ [sep]) (l :: l' :: ls))
      with ((l ++ [sep]) ++ flat_map (fun l0 => l0 ++ [sep]) (l' :: ls)).
    rewrite <- IH by discriminate.
    rewrite <- !app_assoc. reflexivity.
Qed.

(** X19: the report that is written can be read back: when
    [run_standalone] fails for a file name without a line break, the text
    that [print] writes (its argument and the line break that [print]
    adds) is the banner line and then a non-empty list of lines, each
    followed by a line break and each a non-empty line of the output that
    holds none of the three filtered texts; split at line breaks it is
    these lines and a last, empty piece behind the final line break. *)
Theorem run_standalone_report_lines (name : text) (proc : CompletedProcess)
    (p : text) :
  run_standalone name proc = Returned false (Some p) ->
  ~ In newline name ->
  exists ls,
    ls <> [] /\ Forall (reported_line (stdout proc)) ls /\
    written p =
      flat_map (fun l => l ++ [newline]) (banner_line name :: ls) /\
    split newline (written p) = (banner_line name :: ls) ++ [[]].
Proof.
  unfold run_standalone. intros H Hname.
  destruct (skip_not_found (prefiltered (stdout proc)) []) as [r|] eqn:E;
    [|discriminate].
  apply skip_not_found_spec in E. simpl in E. subst r.
  destruct (spec_drop_not_found (prefiltered (stdout proc))) as [|l ls] eqn:E;
    [discriminate|].
  injection H as <-. exists (l :: ls).
  assert (Hrep : Forall (reported_line (stdout proc)) (l :: ls)).
  { apply Forall_forall. intros x Hx. rewrite <- E in Hx.
    apply spec_drop_not_found_lines in Hx. destruct Hx as [Hx Hnf].
    apply prefiltered_In in Hx. destruct Hx as (Hraw & Hne & Hg & Hp).
    unfold reported_line. repeat split; auto.
    apply split_In in Hraw. apply Hraw. }
  assert (Hnl : Forall (fun x => ~ In newline x) (l :: ls)).
  { apply Forall_forall. intros x Hx. rewrite Forall_forall in Hrep.
    destruct (Hrep x Hx) as (_ & _ & Hnl & _). exact Hnl. }
  assert (Hb : ~ In newline (banner_line name)).
  { unfold banner_line. intros Hin.
    apply in_app_or in Hin. destruct Hin as [Hin | Hin].
    - vm_compute in Hin. intuition discriminate.
    - apply in_app_or in Hin. destruct Hin as [Hin | Hin]; [auto|].
      vm_compute in Hin. intuition discriminate. }
  assert (Ew : written (banner name (l :: ls)) =
               banner_line name ++
               newline :: (join [newline] (l :: ls) ++ [newline])).
  { unfold written, banner, banner_line.
    change (chr "010") with newline.
    rewrite <- !app_assoc. reflexivity. }
  split; [discriminate|]. split; [exact Hrep|]. rewrite Ew. split.
  - rewrite join_end by discriminate.
    change (flat_map (fun l0 => l0 ++ [newline]) (banner_line name :: l :: ls))
      with ((banner_line name ++ [newline]) ++
            flat_map (fun l0 => l0 ++ [newline]) (l :: ls)).
    rewrite <- app_assoc. reflexivity.
  - rewrite (split_app_sep newline _ _ Hb).
    rewrite split_join_end; [reflexivity | discriminate | exact Hnl].
Qed.

Lemma run_standalone_report_lines_witness :
  exists ls,
    ls <> [] /\
    Forall (reported_line
              (str "a.cpp:3:1: warning: w [x]" ++ newline ::
               str "1 warning generated." ++ [newline])) ls /\
    written (banner (str "a.cpp") [str "a.cpp:3:1: warning: w [x]"]) =
      flat_map (fun l => l ++ [newline]) (banner_line (str "a.cpp") :: ls) /\
    split newline
      (written (banner (str "a.cpp") [str "a.cpp:3:1: warning: w [x]"])) =
    (banner_line (str "a.cpp") :: ls) ++ [[]].
Proof.
  apply (run_standalone_report_lines (str "a.cpp")
           (mkCompleted 1 (str "a.cpp:3:1: warning: w [x]" ++ newline ::
                           str "1 warning generated." ++ [newline]))).
  - reflexivity.
  - vm_compute. intuition discriminate.
Defined.
